(** * node-sql-generate: a shallow embedding of the generator

    The generator (the module's single exported function) reads the
    [information_schema] catalog of a MySQL, PostgreSQL or MSSQL database
    and emits [sql.define] table definitions as text.  This development
    embeds that function, with the database drivers, the file system, the
    clock, [Buffer], [JSON.parse] and the Unicode case tables gathered in
    a [world] of external answers, and proves the properties of dialect
    resolution, row normalisation, table filtering, text emission and of
    the sequential pipeline.

    Conventions of the embedding.
    - A JavaScript string is a [string]: the sequence of the bytes of its
      UTF-8 encoding.  A [Buffer] built from a text with the encoding
      UTF-8 therefore holds the text's bytes and decodes back to it; for
      any other encoding the bytes and their decoding are the world's.
    - A string-valued option that is absent is the empty string: absent and
      [''] are both falsy, and the source tests every such option for
      truthiness before using it.
    - A number is an integer-valued double: [Num z] with [z] below [2^53]
      in magnitude, or [NaN].
    - An exception ends the run where it is raised: nothing in the source
      catches one, but for the [try] around [JSON.parse].
    - [log] calls are left out: the default logger does nothing and no
      control flow depends on it.  [options.mode] goes to [fs.open] and
      nowhere else; it is part of the world's answer to [fs.open]. *)

From Stdlib Require Import ZArith Ascii String List Bool Lia.
From stdpp Require Import base option list strings gmap pretty.


Open Scope Z_scope.

(** ** JavaScript values *)

Inductive jsnum :=
| NaN
| Num (z : Z).

Inductive jsval :=
| JUndefined
| JNull
| JBool (b : bool)
| JNumber (n : jsnum)
| JString (s : string).

Global Instance jsnum_eq_dec : EqDecision jsnum.
Proof. solve_decision. Defined.
Global Instance jsval_eq_dec : EqDecision jsval.
Proof. solve_decision. Defined.

(** The double quote, as a one-character string. *)
Definition dquote : string := String (ascii_of_nat 34) EmptyString.

Definition LF : string := String (ascii_of_nat 10) EmptyString.
Definition CR : string := String (ascii_of_nat 13) EmptyString.
Definition TAB : string := String (ascii_of_nat 9) EmptyString.

Definition nonempty (s : string) : bool :=
  match s with
  | EmptyString => false
  | String _ _ => true
  end.

(** [s1 || s2] on strings. *)
Definition str_or (s d : string) : string := if nonempty s then s else d.

(** ToBoolean *)
Definition truthy (v : jsval) : bool :=
  match v with
  | JUndefined | JNull => false
  | JBool b => b
  | JNumber NaN => false
  | JNumber (Num z) => negb (z =? 0)
  | JString s => nonempty s
  end.

(** ToString *)
Definition ToString (v : jsval) : string :=
  match v with
  | JUndefined => "undefined"
  | JNull => "null"
  | JBool true => "true"
  | JBool false => "false"
  | JNumber NaN => "NaN"
  | JNumber (Num z) => pretty z
  | JString s => s
  end.

(** ToNumber, on the values that reach an addition in the source. *)
Definition ToNumber (v : jsval) : jsnum :=
  match v with
  | JUndefined => NaN
  | JNull => Num 0
  | JBool true => Num 1
  | JBool false => Num 0
  | JNumber n => n
  | JString _ => NaN
  end.

Definition num_add (a b : jsnum) : jsnum :=
  match a, b with
  | Num x, Num y => Num (x + y)
  | _, _ => NaN
  end.

(** [v + n] for a number [n]: concatenation when [v] is a string, numeric
    addition after ToNumber otherwise. *)
Definition js_plus (v : jsval) (n : Z) : jsval :=
  match v with
  | JString s => JString (s +:+ pretty n)
  | _ => JNumber (num_add (ToNumber v) (Num n))
  end.

(** [a === b] *)
Definition strict_eq (a b : jsval) : bool :=
  match a, b with
  | JNumber NaN, _ | _, JNumber NaN => false
  | _, _ => bool_decide (a = b)
  end.

(** ** Strings *)

Definition lower_char (c : ascii) : ascii :=
  let n := nat_of_ascii c in
  if ((65 <=? n) && (n <=? 90))%nat then ascii_of_nat (n + 32) else c.

Definition upper_char (c : ascii) : ascii :=
  let n := nat_of_ascii c in
  if ((97 <=? n) && (n <=? 122))%nat then ascii_of_nat (n - 32) else c.

Fixpoint toLowerCase (s : string) : string :=
  match s with
  | EmptyString => EmptyString
  | String c r => String (lower_char c) (toLowerCase r)
  end.

Fixpoint drop_str (n : nat) (s : string) : string :=
  match n, s with
  | O, _ => s
  | S n', String _ r => drop_str n' r
  | S _, EmptyString => EmptyString
  end.

(** [Array.prototype.join]: the first element, then separator and element
    for each further one. *)
Definition js_join (sep : string) (l : list string) : string :=
  match l with
  | [] => EmptyString
  | x :: r => fold_left (fun acc y => acc +:+ sep +:+ y) r x
  end.

(** [s.replace(pat, rep)] with a string pattern: the first occurrence. *)
Fixpoint replace_first (pat rep s : string) : string :=
  if String.prefix pat s then rep +:+ drop_str (String.length pat) s
  else match s with
       | EmptyString => EmptyString
       | String c r => String c (replace_first pat rep r)
       end.

(** [s.replace(/c/g, rep)] for a one-character pattern. *)
Fixpoint replace_all (c : ascii) (rep s : string) : string :=
  match s with
  | EmptyString => EmptyString
  | String d r =>
      (if Ascii.eqb d c then rep else String d EmptyString) +:+ replace_all c rep r
  end.

(** [s.slice(-1) === ';'] then [s.substring(0, s.length - 1)] *)
Fixpoint strip_last_semicolon (s : string) : string :=
  match s with
  | EmptyString => EmptyString
  | String c EmptyString => if Ascii.eqb c ";" then EmptyString else s
  | String c r => String c (strip_last_semicolon r)
  end.

(** ** parseInt *)

Definition is_ws (c : ascii) : bool :=
  let n := nat_of_ascii c in
  ((9 <=? n) && (n <=? 13) || (n =? 32))%nat.

Fixpoint strip_ws (s : string) : string :=
  match s with
  | String c r => if is_ws c then strip_ws r else s
  | EmptyString => EmptyString
  end.

Definition digit_value (radix : Z) (c : ascii) : option Z :=
  let n := Z.of_nat (nat_of_ascii c) in
  let d := if (48 <=? n) && (n <=? 57) then Some (n - 48)
           else if (97 <=? n) && (n <=? 122) then Some (n - 87)
           else if (65 <=? n) && (n <=? 90) then Some (n - 55)
           else None in
  match d with
  | Some v => if v <? radix then Some v else None
  | None => None
  end.

(** The longest prefix of digits of the radix, as a number; [None] when
    there is no digit and nothing was accumulated. *)
Fixpoint parse_digits (radix : Z) (acc : option Z) (s : string) : option Z :=
  match s with
  | EmptyString => acc
  | String c r =>
      match digit_value radix c with
      | Some v => parse_digits radix (Some (default 0 acc * radix + v)) r
      | None => acc
      end
  end.

(** [parseInt(v)] without a radix argument: ToString, leading white space
    (the ASCII white space and line terminators), a sign, a [0x] prefix for
    radix 16, then the digits.  The embedding is exact where the text has
    no white space outside ASCII and the digits stay below [2^53]; the
    catalog delivers nothing else, and the source reads the result only
    through [|| null]. *)
Definition parseInt (v : jsval) : jsnum :=
  let s := strip_ws (ToString v) in
  let '(sign, s) :=
    match s with
    | String "-" r => (-1, r)
    | String "+" r => (1, r)
    | _ => (1, s)
    end in
  let '(radix, s) :=
    match s with
    | String "0" (String "x" r) => (16, r)
    | String "0" (String "X" r) => (16, r)
    | _ => (10, s)
    end in
  match parse_digits radix None s with
  | Some n => Num (sign * n)
  | None => NaN
  end.

(** [parseInt(v) || null] *)
Definition parseInt_or_null (v : jsval) : jsval :=
  let n := JNumber (parseInt v) in
  if truthy n then n else JNull.

(** ** Characters *)

(** The number of bytes of a character, by the first byte of its UTF-8
    sequence. *)
Definition utf8_width (c : ascii) : nat :=
  let n := nat_of_ascii c in
  if (n <? 192)%nat then 1%nat
  else if (n <? 224)%nat then 2%nat
  else if (n <? 240)%nat then 3%nat
  else 4%nat.

Fixpoint take_str (n : nat) (s : string) : string :=
  match n, s with
  | S n', String c r => String c (take_str n' r)
  | _, _ => EmptyString
  end.

(** The first character of a string, as its bytes; empty for the empty
    string. *)
Definition first_char (s : string) : string :=
  match s with
  | EmptyString => EmptyString
  | String c _ => take_str (utf8_width c) s
  end.

(** The line separator U+2028 and the paragraph separator U+2029. *)
Definition LS : string :=
  String (ascii_of_nat 226) (String (ascii_of_nat 128) (String (ascii_of_nat 168) EmptyString)).
Definition PS : string :=
  String (ascii_of_nat 226) (String (ascii_of_nat 128) (String (ascii_of_nat 169) EmptyString)).

(** The characters that [.] does not match in a regular expression. *)
Definition is_line_terminator (ch : string) : bool :=
  String.eqb ch LF || String.eqb ch CR || String.eqb ch LS || String.eqb ch PS.

(** ** Options, statistics and the outside world *)

Definition error := string.

(** A regular expression is represented by its search predicate:
    [re name = true] exactly when [name.match(re) !== null]. *)
Definition regex := string -> bool.

Module options.
Record t := mk {
  dsn : string;
  dialect : string;
  database : string;
  schema : string;
  indent : string;
  eol : string;
  encoding : string;
  outputFile : jsval;
  camelize : bool;
  prepend : string;
  append : string;
  omitComments : bool;
  includeSchema : bool;
  modularize : bool;
  includeMeta : bool;
  includeRegex : option (list regex);
  excludeRegex : option (list regex)
}.

Definition set_dialect (d : string) (o : t) : t :=
  mk (dsn o) d (database o) (schema o) (indent o) (eol o) (encoding o) (outputFile o)
     (camelize o) (prepend o) (append o) (omitComments o) (includeSchema o)
     (modularize o) (includeMeta o) (includeRegex o) (excludeRegex o).
Definition set_database (d : string) (o : t) : t :=
  mk (dsn o) (dialect o) d (schema o) (indent o) (eol o) (encoding o) (outputFile o)
     (camelize o) (prepend o) (append o) (omitComments o) (includeSchema o)
     (modularize o) (includeMeta o) (includeRegex o) (excludeRegex o).
Definition set_schema (d : string) (o : t) : t :=
  mk (dsn o) (dialect o) (database o) d (indent o) (eol o) (encoding o) (outputFile o)
     (camelize o) (prepend o) (append o) (omitComments o) (includeSchema o)
     (modularize o) (includeMeta o) (includeRegex o) (excludeRegex o).
Definition set_indent (d : string) (o : t) : t :=
  mk (dsn o) (dialect o) (database o) (schema o) d (eol o) (encoding o) (outputFile o)
     (camelize o) (prepend o) (append o) (omitComments o) (includeSchema o)
     (modularize o) (includeMeta o) (includeRegex o) (excludeRegex o).
Definition set_eol (d : string) (o : t) : t :=
  mk (dsn o) (dialect o) (database o) (schema o) (indent o) d (encoding o) (outputFile o)
     (camelize o) (prepend o) (append o) (omitComments o) (includeSchema o)
     (modularize o) (includeMeta o) (includeRegex o) (excludeRegex o).
Definition set_encoding (d : string) (o : t) : t :=
  mk (dsn o) (dialect o) (database o) (schema o) (indent o) (eol o) d (outputFile o)
     (camelize o) (prepend o) (append o) (omitComments o) (includeSchema o)
     (modularize o) (includeMeta o) (includeRegex o) (excludeRegex o).
Definition set_outputFile (v : jsval) (o : t) : t :=
  mk (dsn o) (dialect o) (database o) (schema o) (indent o) (eol o) (encoding o) v
     (camelize o) (prepend o) (append o) (omitComments o) (includeSchema o)
     (modularize o) (includeMeta o) (includeRegex o) (excludeRegex o).
Definition set_omitComments (b : bool) (o : t) : t :=
  mk (dsn o) (dialect o) (database o) (schema o) (indent o) (eol o) (encoding o)
     (outputFile o) (camelize o) (prepend o) (append o) b (includeSchema o)
     (modularize o) (includeMeta o) (includeRegex o) (excludeRegex o).
Definition set_modularize (b : bool) (o : t) : t :=
  mk (dsn o) (dialect o) (database o) (schema o) (indent o) (eol o) (encoding o)
     (outputFile o) (camelize o) (prepend o) (append o) (omitComments o) (includeSchema o)
     b (includeMeta o) (includeRegex o) (excludeRegex o).
End options.

(** A row of a result set: a JavaScript object, from property names to
    values.  Reading a property the object does not have gives
    [undefined]. *)
Definition get (col : gmap string jsval) (k : string) : jsval :=
  default JUndefined (col !! k).

(** The entry [stats.tables[tableName].columns] collects one of these per
    column. *)
Record column_stat := {
  cs_name : jsval;
  cs_property : string;
  cs_type : jsval;
  cs_nullable : jsval;
  cs_charLength : jsval
}.

(** [stats.tables]: an object literal used as a map from table names to
    entries.  An assignment to the key [__proto__] creates no property: it
    replaces the object's prototype, which is [Object.prototype] until
    then ([proto] is [None]); any other key becomes an own property. *)
Record table_map := mkTables {
  own : gmap string (list column_stat);
  proto : option (list column_stat)
}.

(** [tables[name] = { columns: cols }] *)
Definition table_map_set (name : string) (cols : list column_stat) (m : table_map)
  : table_map :=
  if String.eqb name "__proto__" then mkTables (own m) (Some cols)
  else mkTables (<[name := cols]> (own m)) (proto m).

Module stats.
(** The object literal of the source has [start], [end], [elapsed],
    [written], [buffer] and [tables]; [bytesWritten] is not among them
    and reads as [undefined] until [write] first assigns it. *)
Record t := mk {
  start : Z;
  end_ : option Z;
  elapsed : option Z;
  written : Z;
  buffer : string;
  tables : table_map;
  bytesWritten : jsval
}.
End stats.

(** The metadata queries, by the conditions they carry. *)
Inductive query :=
| QTables (dialect : string) (schema : string) (catalog : string)
| QColumns (dialect : string) (tableName : string) (schema : string) (catalog : string).

(** What a run does, in order: the calls it makes to the outside, the
    additions to [stats.buffer], the call of the callback, and the
    exception that ends it. *)
Inductive event :=
| EvOpen (path : string)
| EvConnect
| EvQuery (q : query)
| EvWrite (fd : Z) (data : string)
| EvBuffer (text : string)
| EvClose (fd : Z)
| EvCallback (err : option error) (st : option stats.t)
| EvThrow (msg : string).

(** The answers of everything outside the generator.
    - [info_name] and [info_version] are the fields of [package.json];
      [now] is the text of [new Date()], the two clocks are the times of
      the first and of the last [new Date()] of a run.
    - [toUpperCase] is [c.toUpperCase()] for a character [c] of the Basic
      Multilingual Plane outside ASCII.
    - [Buffer_encode encoding text] is the content of
      [new Buffer(text, encoding)] for an encoding other than UTF-8, or
      the message of the exception the constructor raises; [utf8_decode]
      is [toString()] on such a content.
    - [mysql_createConnection], [pg_Client] and [mssql_Connection] are
      the constructors of the three drivers: the first two answer with
      the database the client read from the DSN (empty when it read
      none), and each of them may raise an exception instead.
    - [fs_write] sees the events that precede the call. *)
Record world := {
  info_name : string;
  info_version : string;
  now : string;
  clock_start : Z;
  clock_end : Z;
  toUpperCase : string -> string;
  Buffer_encode : string -> string -> string + string;
  utf8_decode : string -> string;
  mysql_createConnection : string -> string + string;
  pg_Client : string -> string + string;
  mssql_Connection : gmap string string -> option string;
  JSON_parse : string -> error + gmap string string;
  connect_result : option error;
  tables_result : query -> option error * list string;
  columns_result : query -> option error * list (gmap string jsval);
  fs_open : string -> error + Z;
  fs_write : list event -> Z -> string -> option error * option Z;
  fs_close : Z -> option error
}.

(** ** Camel case *)

(** [c.toUpperCase()] for the character the group [(.)] captured.  The
    regular expression works on UTF-16 code units: of a character outside
    the Basic Multilingual Plane (four bytes here) it captures the first
    half, which has no upper case, and the second half follows
    unchanged. *)
Definition char_toUpperCase (w : world) (ch : string) : string :=
  match ch with
  | String c EmptyString => String (upper_char c) EmptyString
  | _ => if (String.length ch =? 4)%nat then ch else toUpperCase w ch
  end.

(** [name.replace(/_(.)/g, function(all, c) { return c.toUpperCase(); })]:
    an underscore and the character after it (any but a line terminator)
    become that character in upper case; matches do not overlap.  [skip]
    counts the bytes of a captured character still to pass over. *)
Fixpoint camelize_from (w : world) (skip : nat) (name : string) : string :=
  match name with
  | EmptyString => EmptyString
  | String c tl =>
      match skip with
      | S k => camelize_from w k tl
      | O =>
          if Ascii.eqb c "_" && nonempty (first_char tl)
             && negb (is_line_terminator (first_char tl))
          then char_toUpperCase w (first_char tl)
               +:+ camelize_from w (String.length (first_char tl)) tl
          else String c (camelize_from w 0 tl)
      end
  end.

Definition camelize (w : world) (name : string) : string := camelize_from w 0 name.

(** ** Buffers *)

(** The names of the encoding UTF-8. *)
Definition is_utf8 (encoding : string) : bool :=
  String.eqb (toLowerCase encoding) "utf8" || String.eqb (toLowerCase encoding) "utf-8".

(** A [Buffer]: its bytes, and what [toString()] makes of them. *)
Record Buffer := mkBuffer {
  Buffer_bytes : string;
  Buffer_toString : string
}.

(** [new Buffer(text, encoding)], or the message of its exception. *)
Definition Buffer_new (w : world) (text encoding : string) : string + Buffer :=
  if is_utf8 encoding then inr (mkBuffer text text)
  else match Buffer_encode w encoding text with
       | inl msg => inl msg
       | inr bytes => inr (mkBuffer bytes (utf8_decode w bytes))
       end.

(** ** Dialect resolution (the head of the exported function) *)

(** [var supportedDialects = { mysql: 1, pg: 1, mssql: 1 }] *)
Definition supportedDialects : gmap string jsval :=
  <["mysql" := JNumber (Num 1)]>
    (<["pg" := JNumber (Num 1)]> (<["mssql" := JNumber (Num 1)]> ∅)).

(** The properties an object literal inherits from [Object.prototype];
    each of them holds an object or a function. *)
Definition Object_prototype : list string :=
  [ "constructor"; "toString"; "toLocaleString"; "valueOf"; "hasOwnProperty";
    "isPrototypeOf"; "propertyIsEnumerable"; "__proto__"; "__defineGetter__";
    "__defineSetter__"; "__lookupGetter__"; "__lookupSetter__" ].

(** Truthiness of [obj[key]] for an object literal [obj]: the own property
    when there is one, else the inherited one, else [undefined]. *)
Definition lookup_truthy (obj : gmap string jsval) (key : string) : bool :=
  match obj !! key with
  | Some v => truthy v
  | None => bool_decide (key ∈ Object_prototype)
  end.

(** [/^(mysql|postgres|mssql)/i.exec(dsn)], then [match[1].toLowerCase()] *)
Definition dsn_dialect (dsn : string) : option string :=
  let l := toLowerCase dsn in
  if String.prefix "mysql" l then Some "mysql"
  else if String.prefix "postgres" l then Some "postgres"
  else if String.prefix "mssql" l then Some "mssql"
  else None.

Definition unsupported_dialect_message : error :=
  "options.dialect must be either " +:+ dquote +:+ "mysql" +:+ dquote +:+ ", "
  +:+ dquote +:+ "pg" +:+ dquote +:+ " or " +:+ dquote +:+ "mssql" +:+ dquote.

(** Lines 36-57: the error handed to the callback, or the options with
    [options.dialect] settled. *)
Definition resolveDialect (o : options.t) : error + options.t :=
  if negb (nonempty (options.dsn o)) then inl "options.dsn is required"
  else
    let inferred :=
      if negb (nonempty (options.dialect o)) then
        match dsn_dialect (options.dsn o) with
        | None => inl "options.dialect is required"
        | Some m =>
            inr (options.set_dialect (if String.eqb m "postgres" then "pg" else m) o)
        end
      else inr o in
    match inferred with
    | inl e => inl e
    | inr o =>
        let o := options.set_dialect (toLowerCase (options.dialect o)) o in
        if negb (lookup_truthy supportedDialects (options.dialect o))
        then inl unsupported_dialect_message
        else inr o
    end.

(** [db = require(options.dialect)]: the three driver modules are the only
    modules found under the names that pass the check above; no module is
    called [constructor] or [__proto__], and requiring one throws. *)
Inductive driver := mysql | pg | mssql.

Definition require (name : string) : string + driver :=
  if String.eqb name "mysql" then inr mysql
  else if String.eqb name "pg" then inr pg
  else if String.eqb name "mssql" then inr mssql
  else inl ("Cannot find module '" +:+ name +:+ "'").

(** ** Table filter and column normalisation *)

(** An array-valued option is truthy as soon as it is given. *)
Definition given {A} (x : option A) : bool :=
  match x with Some _ => true | None => false end.

(** The callback of [rows.map] in [getListOfTables], on [row.name];
    [None] is [undefined]. *)
Definition tableRowFilter (o : options.t) (name : string) : option string :=
  if given (options.includeRegex o) || given (options.excludeRegex o) then
    match options.includeRegex o with
    | Some includeRegex =>
        if existsb (fun re => re name) includeRegex then
          match options.excludeRegex o with
          | Some excludeRegex =>
              if negb (forallb (fun re => negb (re name)) excludeRegex)
              then None else Some name
          | None => Some name
          end
        else None
    | None =>
        match options.excludeRegex o with
        | Some excludeRegex =>
            if negb (forallb (fun re => negb (re name)) excludeRegex)
            then None else Some name
        | None => None
        end
    end
  else Some name.

(** [rows.map(...).filter(function(r) { return r !== undefined; })] *)
Definition filterTableRows (o : options.t) (rows : list string) : list string :=
  omap (tableRowFilter o) rows.

(** The callback of [results.map] in [getListOfColumns]. *)
Definition normalizeColumn (col : gmap string jsval) : gmap string jsval :=
  let col :=
    if strict_eq (get col "type") (JString "character varying")
    then <["type" := JString "varchar"]> col
    else if strict_eq (get col "type") (JString "character")
    then <["type" := JString "char"]> col
    else if strict_eq (get col "type") (JString "integer")
    then <["type" := JString "int"]> col
    else col in
  let col := <["nullable" := JBool (strict_eq (get col "nullable") (JString "YES"))]> col in
  let col := <["maxLength" := parseInt_or_null (get col "maxLength")]> col in
  col.

(** ** The generator's variables and its asynchronous tasks *)

(** The variables [fd], [tableNames] and [stats] of the closure, and the
    events so far.  [tableNames] is assigned by [fetchTables] before
    [processTables] reads it. *)
Record state := mkState {
  fd : option Z;
  tableNames : list string;
  the_stats : stats.t;
  trace : list event
}.

Definition emit (e : event) (s : state) : state :=
  mkState (fd s) (tableNames s) (the_stats s) (trace s ++ [e]).
Definition set_fd (d : option Z) (s : state) : state :=
  mkState d (tableNames s) (the_stats s) (trace s).
Definition set_tableNames (l : list string) (s : state) : state :=
  mkState (fd s) l (the_stats s) (trace s).
Definition set_stats (x : stats.t) (s : state) : state :=
  mkState (fd s) (tableNames s) x (trace s).

Definition stats_add_bytes (n : Z) (x : stats.t) : stats.t :=
  stats.mk (stats.start x) (stats.end_ x) (stats.elapsed x) (stats.written x)
           (stats.buffer x) (stats.tables x) (js_plus (stats.bytesWritten x) n).
Definition stats_add_buffer (text : string) (x : stats.t) : stats.t :=
  stats.mk (stats.start x) (stats.end_ x) (stats.elapsed x) (stats.written x)
           (stats.buffer x +:+ text) (stats.tables x) (stats.bytesWritten x).
Definition stats_set_table (name : string) (cols : list column_stat) (x : stats.t) : stats.t :=
  stats.mk (stats.start x) (stats.end_ x) (stats.elapsed x) (stats.written x)
           (stats.buffer x) (table_map_set name cols (stats.tables x)) (stats.bytesWritten x).
Definition stats_set_end (e : Z) (x : stats.t) : stats.t :=
  stats.mk (stats.start x) (Some e) (Some (e - stats.start x)) (stats.written x)
           (stats.buffer x) (stats.tables x) (stats.bytesWritten x).

(** How a task ends: it calls [next], with an error or without one, or an
    exception is raised while it runs. *)
Inductive outcome :=
| Next (err : option error)
| Thrown (msg : string).

(** A task takes the continuation [next]; here it returns how it ends and
    the variables after it. *)
Definition task := state -> outcome * state.

(** [async.series(tasks, callback)]: one task after the other, up to the
    first error. *)
Fixpoint async_series (tasks : list task) (s : state) : outcome * state :=
  match tasks with
  | [] => (Next None, s)
  | t :: rest =>
      match t s with
      | (Next None, s') => async_series rest s'
      | (Next (Some err), s') => (Next (Some err), s')
      | (Thrown msg, s') => (Thrown msg, s')
      end
  end.

(** [async.eachSeries(arr, iterator, callback)] *)
Fixpoint async_eachSeries {A} (arr : list A) (iterator : A -> task) (s : state)
  : outcome * state :=
  match arr with
  | [] => (Next None, s)
  | x :: rest =>
      match iterator x s with
      | (Next None, s') => async_eachSeries rest iterator s'
      | (Next (Some err), s') => (Next (Some err), s')
      | (Thrown msg, s') => (Thrown msg, s')
      end
  end.

(** [if (fd)]: a descriptor other than [null] and [0]. *)
Definition fd_truthy (d : option Z) : option Z :=
  match d with
  | Some z => if z =? 0 then None else Some z
  | None => None
  end.

(** The text [write] builds from its arguments but the last. *)
Definition write_text (o : options.t) (args : list string) : string :=
  js_join (options.eol o)
          (List.filter nonempty (map (fun obj => str_or obj EmptyString) args))
  +:+ options.eol o.

Definition write (w : world) (o : options.t) (args : list string) : task := fun s =>
  let string := write_text o args in
  match Buffer_new w string (options.encoding o) with
  | inl msg => (Thrown msg, s)
  | inr buffer =>
      match fd_truthy (fd s) with
      | Some d =>
          let '(err, written) := fs_write w (trace s) d (Buffer_bytes buffer) in
          let s := emit (EvWrite d (Buffer_bytes buffer)) s in
          (Next err, set_stats (stats_add_bytes (default 0 written) (the_stats s)) s)
      | None =>
          let s := emit (EvBuffer (Buffer_toString buffer)) s in
          let s := set_stats (stats_add_buffer (Buffer_toString buffer) (the_stats s)) s in
          let s := set_stats (stats_add_bytes (Z.of_nat (String.length (Buffer_bytes buffer)))
                                              (the_stats s)) s in
          (Next None, s)
      end
  end.

Definition getListOfTables_query (db : driver) (o : options.t) : query :=
  match db with
  | mysql => QTables "mysql" (options.database o) EmptyString
  | pg => QTables "pg" (options.schema o) (options.database o)
  | mssql => QTables "mssql" (str_or (options.schema o) "dbo") (options.database o)
  end.

Definition getListOfTables (w : world) (db : driver) (o : options.t) (s : state)
  : option error * list string * state :=
  let q := getListOfTables_query db o in
  let s := emit (EvQuery q) s in
  match tables_result w q with
  | (Some err, _) => (Some err, [], s)
  | (None, rows) => (None, filterTableRows o rows, s)
  end.

Definition getListOfColumns_query (db : driver) (o : options.t) (tableName : string) : query :=
  match db with
  | mysql => QColumns "mysql" tableName (options.database o) EmptyString
  | pg => QColumns "pg" tableName (options.schema o) (options.database o)
  | mssql => QColumns "mssql" tableName (str_or (options.schema o) "dbo") (options.database o)
  end.

Definition getListOfColumns (w : world) (db : driver) (o : options.t) (tableName : string)
  (s : state) : option error * list (gmap string jsval) * state :=
  let q := getListOfColumns_query db o tableName in
  let s := emit (EvQuery q) s in
  match columns_result w q with
  | (Some err, _) => (Some err, [], s)
  | (None, results) => (None, map normalizeColumn results, s)
  end.

Definition tryCamelize (w : world) (o : options.t) (name : string) : string :=
  if negb (options.camelize o) then name else camelize w name.

Definition openFile (w : world) (o : options.t) : task := fun s =>
  match options.outputFile o with
  | JString path =>
      let s := emit (EvOpen path) s in
      match fs_open w path with
      | inl err => (Next (Some err), s)
      | inr descriptor => (Next None, set_fd (Some descriptor) s)
      end
  | v =>
      if strict_eq v (JNumber (Num 1)) then (Next None, set_fd (Some 1) s)
      else (Next None, s)
  end.

Definition connect (w : world) : task := fun s =>
  (Next (connect_result w), emit EvConnect s).

Definition headerComment (w : world) : string :=
  "// autogenerated by " +:+ info_name w +:+ " v" +:+ info_version w +:+ " on " +:+ now w.

Definition writeHead (w : world) (o : options.t) : task := fun s =>
  let functions := [] in
  let functions :=
    if nonempty (options.prepend o)
    then functions ++ [write w o [options.prepend o +:+ options.eol o]]
    else functions in
  let functions :=
    if negb (options.omitComments o)
    then functions ++ [write w o [headerComment w +:+ options.eol o]]
    else functions in
  let functions :=
    if options.modularize o
    then functions ++ [write w o [ "module.exports = function(sql) {";
                                   options.indent o +:+ "var exports = {};";
                                   options.eol o ]]
    else functions ++ [write w o [ "var sql = require('sql');"; options.eol o ]] in
  async_series functions s.

Definition fetchTables (w : world) (db : driver) (o : options.t) : task := fun s =>
  let '(err, tables, s) := getListOfTables w db o s in
  (Next err, set_tableNames tables s).

(** The pieces [writeTable] pushes onto [args], in the order of the source;
    [indent] is [options.indent] when [options.modularize] is set, else
    the empty string. *)
Definition table_indent (o : options.t) : string :=
  if options.modularize o then options.indent o else EmptyString.

Definition fullName (o : options.t) (tableName : string) : string :=
  str_or (options.schema o) (options.database o) +:+ "." +:+ tableName.

Definition commentBlock (o : options.t) (tableName : string) : list string :=
  let indent := table_indent o in
  [ indent +:+ "/**";
    indent +:+ " * SQL definition for " +:+ fullName o tableName;
    indent +:+ " */" ].

Definition definitionHead (w : world) (o : options.t) (tableName : string) : list string :=
  let indent := table_indent o in
  [ indent +:+ "exports." +:+ tryCamelize w o tableName +:+ " = sql.define({";
    indent +:+ options.indent o +:+ "name: '" +:+ tableName +:+ "'," ]
  ++ (if options.includeSchema o
      then [ indent +:+ options.indent o +:+ "schema: '"
             +:+ str_or (options.schema o) (options.database o) +:+ "'," ]
      else [])
  ++ [ indent +:+ options.indent o +:+ "columns: [" ].

(** The callback of [columnData.map]; the catalog delivers column names as
    strings, so [camelize] receives [column.name] itself. *)
Definition columnString (w : world) (o : options.t) (column : gmap string jsval) : string :=
  let indent := table_indent o in
  let columnString :=
    indent +:+ options.indent o +:+ options.indent o +:+ "{ "
    +:+ "name: '" +:+ ToString (get column "name") +:+ "'" in
  let camelized := camelize w (ToString (get column "name")) in
  let columnString :=
    if options.camelize o
    then columnString +:+ ", property: '" +:+ camelized +:+ "'"
    else columnString in
  let columnString :=
    if options.includeMeta o
    then ((columnString +:+ ", type: '" +:+ ToString (get column "type") +:+ "'")
          +:+ ", nullable: " +:+ ToString (get column "nullable"))
         +:+ ", charLength: " +:+ ToString (get column "charLength")
    else columnString in
  columnString +:+ " }".

Definition definitionFoot (o : options.t) : list string :=
  let indent := table_indent o in
  [ indent +:+ options.indent o +:+ "]";
    indent +:+ "});" ].

Definition column_stat_of (w : world) (column : gmap string jsval) : column_stat :=
  {| cs_name := get column "name";
     cs_property := camelize w (ToString (get column "name"));
     cs_type := get column "type";
     cs_nullable := get column "nullable";
     cs_charLength := get column "charLength" |}.

(** The arguments [writeTable] passes to [write], the final callback
    apart. *)
Definition writeTable_args (w : world) (o : options.t) (tableName : string)
  (columnData : list (gmap string jsval)) : list string :=
  (if negb (options.omitComments o) then commentBlock o tableName else [])
  ++ definitionHead w o tableName
  ++ [ js_join ("," +:+ options.eol o) (map (columnString w o) columnData) ]
  ++ definitionFoot o
  ++ [ options.eol o ].

Definition writeTable (w : world) (db : driver) (o : options.t) (tableName : string)
  : task := fun s =>
  let s := set_stats (stats_set_table tableName [] (the_stats s)) s in
  let '(err, columnData, s) := getListOfColumns w db o tableName s in
  match err with
  | Some e => (Next (Some e), s)
  | None =>
      let args := writeTable_args w o tableName columnData in
      let s := set_stats (stats_set_table tableName (map (column_stat_of w) columnData)
                                          (the_stats s)) s in
      write w o args s
  end.

Definition processTables (w : world) (db : driver) (o : options.t) : task := fun s =>
  async_eachSeries (tableNames s) (writeTable w db o) s.

Definition writeTail (w : world) (o : options.t) : task := fun s =>
  let tail := fun (r : outcome) (s : state) =>
    match r with
    | Next None =>
        if nonempty (options.append o)
        then write w o [options.append o] s
        else (Next None, s)
    | _ => (r, s)
    end in
  if options.modularize o then
    let '(r, s) := write w o [ options.indent o +:+ "return exports;"; "};" ] s in
    tail r s
  else tail (Next None) s.

(** ** The pipeline and the exported function *)

Definition pipeline (w : world) (db : driver) (o : options.t) : list task :=
  [ openFile w o;
    connect w;
    writeHead w o;
    fetchTables w db o;
    processTables w db o;
    writeTail w o ].

(** [callback(err, stats)]; the callback is optional, and calling an absent
    one throws. *)
Definition invoke (callback : bool) (err : option error) (st : option stats.t) : list event :=
  if callback then [EvCallback err st]
  else [EvThrow "TypeError: undefined is not a function"].

(** The final callback of the series; after an exception it is never
    reached. *)
Definition finish (w : world) (callback : bool) (r : outcome) (s : state)
  : list event :=
  match r with
  | Thrown msg => trace s ++ [EvThrow msg]
  | Next appError =>
      let st := stats_set_end (clock_end w) (the_stats s) in
      match fd_truthy (fd s) with
      | Some d =>
          if d =? 1 then trace s ++ invoke callback appError (Some st)
          else trace s ++ [EvClose d] ++ invoke callback appError (Some st)
      | None => trace s ++ invoke callback appError (Some st)
      end
  end.

Definition init_stats (w : world) : stats.t :=
  stats.mk (clock_start w) None None 0 EmptyString (mkTables ∅ None) JUndefined.

Definition init_state (w : world) : state :=
  mkState None [] (init_stats w) [].

Definition runPipeline (w : world) (db : driver) (o : options.t) (callback : bool)
  : list event :=
  let '(r, s) := async_series (pipeline w db o) (init_state w) in
  finish w callback r s.

(** The text handed to [JSON.parse] for an mssql DSN. *)
Definition mssqlDsn_json (dsn : string) : string :=
  let mssqlDsn := strip_last_semicolon dsn in
  "{" +:+ dquote
  +:+ replace_all ";" (dquote +:+ "," +:+ dquote)
        (replace_all "=" (dquote +:+ ":" +:+ dquote)
           (replace_first "mssql://" EmptyString mssqlDsn))
  +:+ dquote +:+ "}".

(** How the [switch] that creates the client ends: with the error of the
    [catch] branch handed to the callback, with an exception of a driver's
    constructor, or with [options.database] (and [options.schema] for pg)
    settled. *)
Inductive setup :=
| SetupError (e : error)
| SetupThrown (msg : string)
| SetupDone (o : options.t).

Definition setupClient (w : world) (db : driver) (o : options.t) : setup :=
  match db with
  | mysql =>
      match mysql_createConnection w (options.dsn o) with
      | inl msg => SetupThrown msg
      | inr database =>
          SetupDone (options.set_database (str_or (options.database o) database) o)
      end
  | pg =>
      match pg_Client w (options.dsn o) with
      | inl msg => SetupThrown msg
      | inr database =>
          let o := options.set_database (str_or (options.database o) database) o in
          SetupDone (options.set_schema (str_or (options.schema o) "public") o)
      end
  | mssql =>
      match JSON_parse w (mssqlDsn_json (options.dsn o)) with
      | inl e => SetupError e
      | inr mssqlDsn =>
          match mssql_Connection w mssqlDsn with
          | Some msg => SetupThrown msg
          | None =>
              SetupDone (options.set_database
                           (str_or (options.database o)
                                   (default EmptyString (mssqlDsn !! "database"))) o)
          end
      end
  end.

(** Lines 59-62, but for [options.mode]. *)
Definition withDefaults (o : options.t) : options.t :=
  let o := options.set_eol (str_or (options.eol o) LF) o in
  let o := options.set_encoding (str_or (options.encoding o) "utf8") o in
  options.set_indent (str_or (options.indent o) TAB) o.

(** [module.exports = function(options, callback)] *)
Definition generate (w : world) (o : options.t) (callback : bool) : list event :=
  match resolveDialect o with
  | inl e => if callback then [EvCallback (Some e) None] else []
  | inr o =>
      let o := withDefaults o in
      match require (options.dialect o) with
      | inl msg => [EvThrow msg]
      | inr db =>
          match setupClient w db o with
          | SetupThrown msg => [EvThrow msg]
          | SetupError e => invoke callback (Some e) None
          | SetupDone o =>
              if negb (nonempty (options.database o))
              then invoke callback
                     (Some "options.database is required if it is not part of the DSN") None
              else runPipeline w db o callback
          end
      end
  end.

(** ** Observations on a run *)

Definition callback_of (e : event) : option (option error * option stats.t) :=
  match e with
  | EvCallback err st => Some (err, st)
  | _ => None
  end.

Definition query_of (e : event) : option query :=
  match e with
  | EvQuery q => Some q
  | _ => None
  end.

Definition open_of (e : event) : option string :=
  match e with
  | EvOpen path => Some path
  | _ => None
  end.

Definition close_of (e : event) : option Z :=
  match e with
  | EvClose d => Some d
  | _ => None
  end.

Definition written_of (e : event) : option string :=
  match e with
  | EvWrite _ data => Some data
  | _ => None
  end.

Definition buffered_of (e : event) : option string :=
  match e with
  | EvBuffer text => Some text
  | _ => None
  end.

Definition callbacks_of (tr : list event) : list (option error * option stats.t) :=
  omap callback_of tr.
Definition queries_of (tr : list event) : list query := omap query_of tr.
Definition opens_of (tr : list event) : list string := omap open_of tr.
Definition closes_of (tr : list event) : list Z := omap close_of tr.

(** Texts one after the other. *)
Definition flatten (l : list string) : string := foldr String.append EmptyString l.

(** The [stats.buffer] a run hands to its callback; empty when it hands
    over no stats object. *)
Definition handed_back (tr : list event) : string :=
  match callbacks_of tr with
  | (_, Some st) :: _ => stats.buffer st
  | _ => EmptyString
  end.

(** The output of a run: what it handed to [fs.write], call after call,
    and what it handed back in [stats.buffer]. *)
Definition output_of (tr : list event) : string :=
  flatten (omap written_of tr) +:+ handed_back tr.

(** [stats.bytesWritten] holds no count. *)
Definition no_count (v : jsval) : Prop := v = JUndefined ∨ v = JNumber NaN.

(** ** The run as its description has it *)

(** The steps of a run: opening the output file, connecting, a metadata
    query, and a call of [write] with a text. *)
Inductive step :=
| DoOpen (path : string)
| DoConnect
| DoQuery (q : query)
| DoWrite (text : string).

Definition text_of (x : step) : option string :=
  match x with
  | DoWrite text => Some text
  | _ => None
  end.

(** What [openFile] leaves in [fd], and the event it emits. *)
Definition openFile_fd (w : world) (o : options.t) : option Z :=
  match options.outputFile o with
  | JString path =>
      match fs_open w path with
      | inl _ => None
      | inr descriptor => Some descriptor
      end
  | v => if strict_eq v (JNumber (Num 1)) then Some 1 else None
  end.

Definition openFile_events (o : options.t) : list event :=
  match options.outputFile o with
  | JString path => [EvOpen path]
  | _ => []
  end.

(** A call of [write] with [text] while the descriptor in use is [d]: the
    bytes of the text in [options.encoding] go to the descriptor, or, with
    no descriptor, their decoding is added to [stats.buffer]; when no
    [Buffer] can be built, the exception. *)
Definition write_event (w : world) (o : options.t) (d : option Z) (text : string) : event :=
  match Buffer_new w text (options.encoding o) with
  | inl msg => EvThrow msg
  | inr buffer =>
      match d with
      | Some z => EvWrite z (Buffer_bytes buffer)
      | None => EvBuffer (Buffer_toString buffer)
      end
  end.

(** What that call puts out. *)
Definition rendered (w : world) (o : options.t) (d : option Z) (text : string) : string :=
  match Buffer_new w text (options.encoding o) with
  | inl _ => EmptyString
  | inr buffer =>
      match d with
      | Some _ => Buffer_bytes buffer
      | None => Buffer_toString buffer
      end
  end.

Definition event_of (w : world) (o : options.t) (d : option Z) (x : step) : event :=
  match x with
  | DoOpen path => EvOpen path
  | DoConnect => EvConnect
  | DoQuery q => EvQuery q
  | DoWrite text => write_event w o d text
  end.

(** What the outside answers to an event that follows the events
    [before]: the error it reports, if any. *)
Definition answer (w : world) (before : list event) (e : event) : option error :=
  match e with
  | EvOpen path =>
      match fs_open w path with
      | inl err => Some err
      | inr _ => None
      end
  | EvConnect => connect_result w
  | EvQuery (QTables d s c) => fst (tables_result w (QTables d s c))
  | EvQuery (QColumns d t s c) => fst (columns_result w (QColumns d t s c))
  | EvWrite z data => fst (fs_write w before z data)
  | _ => None
  end.

(** An event other than an exception. *)
Definition calm (e : event) : Prop :=
  match e with
  | EvThrow _ => False
  | _ => True
  end.

(** The events of [script] that take place after [before]: all of them up
    to the first that meets an error, that one included, and none from the
    first exception on. *)
Fixpoint performed (w : world) (before script : list event) : list event :=
  match script with
  | [] => []
  | EvThrow _ :: _ => []
  | e :: rest =>
      e :: match answer w before e with
           | Some _ => []
           | None => performed w (before ++ [e]) rest
           end
  end.

(** ... and how they end: with the first error or exception, or without
    either. *)
Fixpoint verdict (w : world) (before script : list event) : outcome :=
  match script with
  | [] => Next None
  | EvThrow msg :: _ => Thrown msg
  | e :: rest =>
      match answer w before e with
      | Some err => Next (Some err)
      | None => verdict w (before ++ [e]) rest
      end
  end.

(** *** The texts, line by line *)

Definition prepend_texts (o : options.t) : list string :=
  if nonempty (options.prepend o)
  then [ options.prepend o +:+ options.eol o +:+ options.eol o ]
  else [].

Definition comment_texts (w : world) (o : options.t) : list string :=
  if options.omitComments o then []
  else [ "// autogenerated by " +:+ info_name w +:+ " v" +:+ info_version w
         +:+ " on " +:+ now w +:+ options.eol o +:+ options.eol o ].

Definition opening_text (o : options.t) : string :=
  if options.modularize o
  then "module.exports = function(sql) {" +:+ options.eol o
       +:+ options.indent o +:+ "var exports = {};" +:+ options.eol o
       +:+ options.eol o +:+ options.eol o
  else "var sql = require('sql');" +:+ options.eol o
       +:+ options.eol o +:+ options.eol o.

Definition wrapper_texts (o : options.t) : list string :=
  if options.modularize o
  then [ options.indent o +:+ "return exports;" +:+ options.eol o
         +:+ "};" +:+ options.eol o ]
  else [].

Definition append_texts (o : options.t) : list string :=
  if nonempty (options.append o) then [ options.append o +:+ options.eol o ] else [].

Definition header_texts (w : world) (o : options.t) : list string :=
  prepend_texts o ++ comment_texts w o ++ [opening_text o].

Definition tail_texts (o : options.t) : list string := wrapper_texts o ++ append_texts o.

(** The lines of a table definition, before the indentation that
    [options.modularize] adds to each. *)
Definition comment_lines (o : options.t) (tableName : string) : list string :=
  [ "/**";
    " * SQL definition for " +:+ str_or (options.schema o) (options.database o)
      +:+ "." +:+ tableName;
    " */" ].

Definition column_line (w : world) (o : options.t) (column : gmap string jsval) : string :=
  options.indent o +:+ options.indent o +:+ "{ name: '" +:+ ToString (get column "name") +:+ "'"
  +:+ (if options.camelize o
       then ", property: '" +:+ camelize w (ToString (get column "name")) +:+ "'"
       else EmptyString)
  +:+ (if options.includeMeta o
       then ", type: '" +:+ ToString (get column "type") +:+ "'"
            +:+ ", nullable: " +:+ ToString (get column "nullable")
            +:+ ", charLength: " +:+ ToString (get column "charLength")
       else EmptyString)
  +:+ " }".

(** A comma after every line but the last. *)
Fixpoint with_commas (l : list string) : list string :=
  match l with
  | [] => []
  | [x] => [x]
  | x :: r => (x +:+ ",") :: with_commas r
  end.

Definition definition_lines (w : world) (o : options.t) (tableName : string)
  (columns : list (gmap string jsval)) : list string :=
  [ "exports." +:+ (if options.camelize o then camelize w tableName else tableName)
      +:+ " = sql.define({";
    options.indent o +:+ "name: '" +:+ tableName +:+ "'," ]
  ++ (if options.includeSchema o
      then [ options.indent o +:+ "schema: '"
             +:+ str_or (options.schema o) (options.database o) +:+ "'," ]
      else [])
  ++ [ options.indent o +:+ "columns: [" ]
  ++ with_commas (map (column_line w o) columns)
  ++ [ options.indent o +:+ "]"; "});" ].

(** Each line after [indent] and before an end of line. *)
Definition indented (indent eol : string) (lines : list string) : string :=
  flatten (map (fun l => indent +:+ l +:+ eol) lines).

(** The text of a table definition: its lines, the comment block first
    unless comments are omitted, each with the indentation of a module in
    front, and two ends of line after the last. *)
Definition table_text (w : world) (o : options.t) (tableName : string)
  (columns : list (gmap string jsval)) : string :=
  indented (if options.modularize o then options.indent o else EmptyString) (options.eol o)
    ((if options.omitComments o then [] else comment_lines o tableName)
     ++ definition_lines w o tableName columns)
  +:+ options.eol o +:+ options.eol o.

(** *** The steps, in order *)

Definition fetched_tables (w : world) (db : driver) (o : options.t) : list string :=
  filterTableRows o (snd (tables_result w (getListOfTables_query db o))).

Definition fetched_columns (w : world) (db : driver) (o : options.t) (tableName : string)
  : list (gmap string jsval) :=
  snd (columns_result w (getListOfColumns_query db o tableName)).

(** The text written for a table the filter kept. *)
Definition fetched_text (w : world) (db : driver) (o : options.t) (tableName : string)
  : string :=
  table_text w o tableName (map normalizeColumn (fetched_columns w db o tableName)).

Definition table_steps (w : world) (db : driver) (o : options.t) (tableName : string)
  : list step :=
  [ DoQuery (getListOfColumns_query db o tableName);
    DoWrite (fetched_text w db o tableName) ].

Definition open_steps (o : options.t) : list step :=
  match options.outputFile o with
  | JString path => [DoOpen path]
  | _ => []
  end.

(** Connect, write the header, fetch the tables, process them one by one,
    write the tail. *)
Definition inner_plan (w : world) (db : driver) (o : options.t) : list step :=
  [DoConnect]
  ++ map DoWrite (header_texts w o)
  ++ [DoQuery (getListOfTables_query db o)]
  ++ concat (map (table_steps w db o) (fetched_tables w db o))
  ++ map DoWrite (tail_texts o).

(** Open the file, then the rest. *)
Definition plan (w : world) (db : driver) (o : options.t) : list step :=
  open_steps o ++ inner_plan w db o.

Definition script (w : world) (db : driver) (o : options.t) : list event :=
  map (event_of w o (fd_truthy (openFile_fd w o))) (plan w db o).

(** All the texts of a complete run. *)
Definition the_texts (w : world) (db : driver) (o : options.t) : list string :=
  header_texts w o ++ map (fetched_text w db o) (fetched_tables w db o) ++ tail_texts o.

(** The queries of a complete run: the tables query, then the columns
    query of every table the filter keeps. *)
Definition expected_queries (w : world) (db : driver) (o : options.t) : list query :=
  getListOfTables_query db o
  :: map (getListOfColumns_query db o) (fetched_tables w db o).

(** *** The statistics, from the events *)

Definition buffered (evs : list event) : string := flatten (omap buffered_of evs).

Definition is_write (e : event) : bool :=
  match e with
  | EvWrite _ _ | EvBuffer _ => true
  | _ => false
  end.

(** [stats.bytesWritten] after the events [evs]: the first [write] turns
    [undefined] into [NaN], and [NaN] it remains. *)
Definition count_after (evs : list event) (v : jsval) : jsval :=
  if existsb is_write evs then JNumber NaN else v.

(** What [writeTable] leaves in [stats.tables] for a table: nothing yet
    when the query for its columns fails, else an entry per column. *)
Definition table_entry (w : world) (q : query) : list column_stat :=
  match columns_result w q with
  | (Some _, _) => []
  | (None, results) => map (column_stat_of w) (map normalizeColumn results)
  end.

Definition record_event (w : world) (m : table_map) (e : event) : table_map :=
  match e with
  | EvQuery (QColumns d t s c) => table_map_set t (table_entry w (QColumns d t s c)) m
  | _ => m
  end.

Definition recorded (w : world) (evs : list event) (m : table_map) : table_map :=
  foldl (record_event w) m evs.

(** What [writeTable] leaves in [stats.tables] for a table whose columns
    were fetched. *)
Definition table_stats (w : world) (db : driver) (o : options.t) (tableName : string)
  : list column_stat :=
  map (column_stat_of w) (map normalizeColumn (fetched_columns w db o tableName)).

(** The outcome of the series and the variables after it. *)
Definition series_result (w : world) (db : driver) (o : options.t) : outcome * state :=
  async_series (pipeline w db o) (init_state w).

(** The stats object after the events [body]. *)
Definition stats_after (w : world) (body : list event) : stats.t :=
  stats.mk (clock_start w) (Some (clock_end w)) (Some (clock_end w - clock_start w)) 0
           (buffered body) (recorded w body (mkTables ∅ None))
           (count_after body JUndefined).

(** The end of a run: the file is closed when one was opened, stdout is
    not. *)
Definition closing (w : world) (o : options.t) : list event :=
  match fd_truthy (openFile_fd w o) with
  | Some d => if d =? 1 then [] else [EvClose d]
  | None => []
  end.

(** What follows the events of the tasks: after an exception nothing,
    else the closing of the file and the callback with the error, if any,
    and the stats object. *)
Definition ending (w : world) (db : driver) (o : options.t) (callback : bool)
  : list event :=
  match verdict w [] (script w db o) with
  | Thrown msg => [EvThrow msg]
  | Next err =>
      closing w o
      ++ invoke callback err (Some (stats_after w (performed w [] (script w db o))))
  end.

(** An event of a task that writes to [d]: a [write] goes to that
    descriptor, text is kept in memory only without one, and no task
    closes a file or calls the callback. *)
Definition at_descriptor (d : option Z) (e : event) : Prop :=
  match e with
  | EvWrite z _ => d = Some z
  | EvBuffer _ => d = None
  | EvClose _ | EvCallback _ _ => False
  | _ => True
  end.

(** The text an event puts out. *)
Definition emitted_of (e : event) : option string :=
  match e with
  | EvWrite _ data => Some data
  | EvBuffer text => Some text
  | _ => None
  end.

(** The lines of a table definition. *)
Definition table_lines (w : world) (o : options.t) (tableName : string)
  (columns : list (gmap string jsval)) : list string :=
  (if options.omitComments o then [] else comment_lines o tableName)
  ++ definition_lines w o tableName columns.

(** What a task does, against the events [script] it is expected to
    cause: it ends as they end, it appends those that take place, it
    keeps the descriptor, and the statistics follow the events. *)
Definition enacts (w : world) (script : list event) (s : state) (r : outcome * state)
  : Prop :=
  let evs := performed w (trace s) script in
  fst r = verdict w (trace s) script ∧
  trace (snd r) = trace s ++ evs ∧
  fd (snd r) = fd s ∧
  stats.buffer (the_stats (snd r)) = stats.buffer (the_stats s) +:+ buffered evs ∧
  stats.tables (the_stats (snd r)) = recorded w evs (stats.tables (the_stats s)) ∧
  (stats.start (the_stats (snd r)) = stats.start (the_stats s) ∧
   stats.end_ (the_stats (snd r)) = stats.end_ (the_stats s) ∧
   stats.elapsed (the_stats (snd r)) = stats.elapsed (the_stats s) ∧
   stats.written (the_stats (snd r)) = stats.written (the_stats s)) ∧
  (no_count (stats.bytesWritten (the_stats s)) →
   stats.bytesWritten (the_stats (snd r))
   = count_after evs (stats.bytesWritten (the_stats s))).

(** ** The table filter, in the words of its description *)

(** A name is kept when some include pattern matches it (if include
    patterns are given) and no exclude pattern matches it (if exclude
    patterns are given). *)
Definition table_kept (o : options.t) (name : string) : bool :=
  match options.includeRegex o with
  | Some includeRegex => existsb (fun re => re name) includeRegex
  | None => true
  end
  && match options.excludeRegex o with
     | Some excludeRegex => negb (existsb (fun re => re name) excludeRegex)
     | None => true
     end.

(** ** DSNs of [key=value] pairs *)

Definition dsn_pair (kv : string * string) : string := fst kv +:+ "=" +:+ snd kv.

Definition dsn_of_pairs (kvs : list (string * string)) : string :=
  String.concat ";" (map dsn_pair kvs).

Definition json_member (kv : string * string) : string :=
  dquote +:+ fst kv +:+ dquote +:+ ":" +:+ dquote +:+ snd kv +:+ dquote.

(** The JSON text of the object with the given string members. *)
Definition json_object (kvs : list (string * string)) : string :=
  "{" +:+ String.concat "," (map json_member kvs) +:+ "}".

Fixpoint has_char (c : ascii) (s : string) : bool :=
  match s with
  | EmptyString => false
  | String d r => Ascii.eqb d c || has_char c r
  end.

(** Neither the key nor the value holds a separator of the DSN. *)
Definition plain_pair (kv : string * string) : Prop :=
  has_char "=" (fst kv) = false ∧ has_char ";" (fst kv) = false ∧
  has_char "=" (snd kv) = false ∧ has_char ";" (snd kv) = false.

(** [pat] occurs in [s]. *)
Fixpoint occurs (pat s : string) : bool :=
  String.prefix pat s
  || match s with
     | EmptyString => false
     | String _ r => occurs pat r
     end.

(** ** The command line *)

(** [program.outputFile = program.outputFile || 1] in the command-line
    script, before it calls the exported function with [program] as the
    options. *)
Definition cli_outputFile (given : jsval) : jsval :=
  if truthy given then given else JNumber (Num 1).

Definition cli_options (program : options.t) : options.t :=
  options.set_outputFile (cli_outputFile (options.outputFile program)) program.

(** ** The scope of the queries *)

(** The dialect tag, the schema and the catalog a query carries. *)
Definition query_scope (q : query) : string * string * string :=
  match q with
  | QTables d s c => (d, s, c)
  | QColumns d _ s c => (d, s, c)
  end.

(** The database a driver's client read from the DSN. *)
Definition dsn_database (answer : string + string) : string :=
  match answer with
  | inr database => database
  | inl _ => EmptyString
  end.

(** The scope the queries of a call are expected to carry, from the
    options as given and the database the DSN names. *)
Definition settled_scope (w : world) (db : driver) (o : options.t)
  : string * string * string :=
  match db with
  | mysql =>
      ("mysql",
       str_or (options.database o) (dsn_database (mysql_createConnection w (options.dsn o))),
       "")
  | pg =>
      ("pg", str_or (options.schema o) "public",
       str_or (options.database o) (dsn_database (pg_Client w (options.dsn o))))
  | mssql =>
      ("mssql", str_or (options.schema o) "dbo",
       str_or (options.database o)
         match JSON_parse w (mssqlDsn_json (options.dsn o)) with
         | inr mssqlDsn => default "" (mssqlDsn !! "database")
         | inl _ => ""
         end)
  end.

(** ** Worlds without trouble *)

(** No text meets an exception on its way into a [Buffer]. *)
Definition encodable (w : world) (o : options.t) : Prop :=
  ∀ text, ∃ buffer, Buffer_new w text (options.encoding o) = inr buffer.

(** The outside answers every request without an error. *)
Definition healthy (w : world) (o : options.t) : Prop :=
  connect_result w = None ∧
  (∀ q, fst (tables_result w q) = None) ∧
  (∀ q, fst (columns_result w q) = None) ∧
  (∀ tr z data, fst (fs_write w tr z data) = None) ∧
  (∀ path, options.outputFile o = JString path → ∃ z, fs_open w path = inr z) ∧
  encodable w o.

(** ** A sample world *)

Definition sample_row (name ty nullable : string) (charLength : jsval) : gmap string jsval :=
  <["name" := JString name]>
    (<["nullable" := JString nullable]>
       (<["defaultValue" := JNull]>
          (<["charLength" := charLength]> (<["type" := JString ty]> ∅)))).

(** A column as the columns query delivers it: [name], [nullable],
    [defaultValue], [charLength] and [type], the aliases of its select
    list. *)
Definition sample_column : gmap string jsval :=
  sample_row "full_name" "character varying" "YES" (JNumber (Num 255)).

(** A parser for the JSON texts of flat objects with string members and
    no escapes, standing in for [JSON.parse] in the sample world. *)
Fixpoint split_on (c : ascii) (cur : string) (s : string) : list string :=
  match s with
  | EmptyString => [String.rev cur]
  | String d r =>
      if Ascii.eqb d c then String.rev cur :: split_on c EmptyString r
      else split_on c (String d cur) r
  end.

Fixpoint sample_members (toks : list string) : option (list (string * string)) :=
  match toks with
  | k :: colon :: v :: sep :: rest =>
      if negb (String.eqb colon ":") then None
      else if String.eqb sep "}" then
        match rest with [] => Some [(k, v)] | _ => None end
      else if String.eqb sep "," then
        match sample_members rest with
        | Some l => Some ((k, v) :: l)
        | None => None
        end
      else None
  | _ => None
  end.

Definition sample_JSON_parse (text : string) : error + gmap string string :=
  if has_char "\" text then inl "SyntaxError: Unexpected token"
  else
    match split_on (ascii_of_nat 34) EmptyString text with
    | brace :: toks =>
        if String.eqb brace "{" then
          match sample_members toks with
          | Some kvs => inr (list_to_map (reverse kvs))
          | None => inl "SyntaxError: Unexpected token"
          end
        else inl "SyntaxError: Unexpected token"
    | [] => inl "SyntaxError: Unexpected end of input"
    end.

Definition byte_string (l : list N) : string :=
  foldr (fun n acc => String (ascii_of_N n) acc) EmptyString l.

(** The small letter e with an acute accent, U+00E9, and its capital,
    U+00C9. *)
Definition e_acute : string := byte_string [195; 169]%N.
Definition E_acute : string := byte_string [195; 137]%N.

(** The upper case of the letters of Latin-1, standing in for the case
    tables of Unicode: the letters U+00E0 to U+00FE but the division sign
    lose 32, the sharp s becomes [SS], the y with diaeresis becomes
    U+0178; every other character is left as it is. *)
Definition sample_toUpperCase (ch : string) : string :=
  match ch with
  | String a (String b EmptyString) =>
      let x := N_of_ascii a in
      let y := N_of_ascii b in
      if (x =? 195)%N && (y =? 159)%N then "SS"
      else if (x =? 195)%N && (y =? 191)%N then byte_string [197; 184]%N
      else if (x =? 195)%N && (160 <=? y)%N && (y <=? 190)%N && negb (y =? 183)%N
      then byte_string [195; (y - 32)]%N
      else ch
  | _ => ch
  end.

(** The code points of a text. *)
Fixpoint code_points (need : nat) (acc : N) (s : string) : list N :=
  match s with
  | EmptyString => []
  | String c r =>
      let n := N_of_ascii c in
      match need with
      | O =>
          if (n <? 128)%N then n :: code_points 0 0%N r
          else if (n <? 224)%N then code_points 1 (n - 192)%N r
          else if (n <? 240)%N then code_points 2 (n - 224)%N r
          else code_points 3 (n - 240)%N r
      | S O => (acc * 64 + (n - 128))%N :: code_points 0 0%N r
      | S k => code_points k (acc * 64 + (n - 128))%N r
      end
  end.

(** The bytes of a code point in UTF-16, the low byte of a unit first. *)
Definition utf16le_unit (u : N) : list N := [u mod 256; u / 256]%N.

Definition utf16le_point (cp : N) : list N :=
  if (cp <? 65536)%N then utf16le_unit cp
  else utf16le_unit (55296 + (cp - 65536) / 1024)%N
       ++ utf16le_unit (56320 + (cp - 65536) mod 1024)%N.

(** The encodings of the sample world besides UTF-8: UTF-16 under its
    four names; any other name is unknown. *)
Definition sample_Buffer_encode (encoding text : string) : string + string :=
  let e := toLowerCase encoding in
  if String.eqb e "utf16le" || String.eqb e "utf-16le"
     || String.eqb e "ucs2" || String.eqb e "ucs-2"
  then inr (byte_string (concat (map utf16le_point (code_points 0 0 text))))
  else inl ("Unknown encoding: " +:+ encoding).

(** The replacement character, U+FFFD. *)
Definition REPLACEMENT : string := byte_string [239; 191; 189]%N.

(** Decoding as UTF-8, standing in for [toString()]: a sequence of a
    first byte and its continuation bytes is kept, and what is no such
    sequence becomes U+FFFD. *)
Fixpoint sample_utf8_decode (need : nat) (pending : string) (s : string) : string :=
  match s with
  | EmptyString => if nonempty pending then REPLACEMENT else EmptyString
  | String c r =>
      let n := nat_of_ascii c in
      let start :=
        if (n <? 128)%nat then String c (sample_utf8_decode 0 EmptyString r)
        else if (194 <=? n)%nat && (n <? 224)%nat
        then sample_utf8_decode 1 (String c EmptyString) r
        else if (224 <=? n)%nat && (n <? 240)%nat
        then sample_utf8_decode 2 (String c EmptyString) r
        else if (240 <=? n)%nat && (n <? 245)%nat
        then sample_utf8_decode 3 (String c EmptyString) r
        else REPLACEMENT +:+ sample_utf8_decode 0 EmptyString r in
      match need with
      | O => start
      | S k =>
          if (128 <=? n)%nat && (n <? 192)%nat
          then match k with
               | O => (pending +:+ String c EmptyString)
                      +:+ sample_utf8_decode 0 EmptyString r
               | S _ => sample_utf8_decode k (pending +:+ String c EmptyString) r
               end
          else REPLACEMENT +:+ start
      end
  end.

Definition sample_world : world :=
  {| info_name := "sql-generate";
     info_version := "0.3.0";
     now := "Mon Nov 02 2026 10:00:00 GMT+0000 (UTC)";
     clock_start := 1000;
     clock_end := 1042;
     toUpperCase := sample_toUpperCase;
     Buffer_encode := sample_Buffer_encode;
     utf8_decode := sample_utf8_decode 0 EmptyString;
     mysql_createConnection := fun _ => inr "shop";
     pg_Client := fun _ => inr "shop";
     mssql_Connection := fun _ => None;
     JSON_parse := sample_JSON_parse;
     connect_result := None;
     tables_result := fun _ => (None, ["users"]);
     columns_result := fun _ =>
       (None, [sample_row "id" "integer" "NO" JNull; sample_column]);
     fs_open := fun _ => inr 3;
     fs_write := fun _ _ data => (None, Some (Z.of_nat (String.length data)));
     fs_close := fun _ => None |}.

(** The same world with a database that refuses the connection. *)
Definition refusing_world : world :=
  {| info_name := info_name sample_world;
     info_version := info_version sample_world;
     now := now sample_world;
     clock_start := clock_start sample_world;
     clock_end := clock_end sample_world;
     toUpperCase := toUpperCase sample_world;
     Buffer_encode := Buffer_encode sample_world;
     utf8_decode := utf8_decode sample_world;
     mysql_createConnection := mysql_createConnection sample_world;
     pg_Client := pg_Client sample_world;
     mssql_Connection := mssql_Connection sample_world;
     JSON_parse := JSON_parse sample_world;
     connect_result := Some "ECONNREFUSED";
     tables_result := tables_result sample_world;
     columns_result := columns_result sample_world;
     fs_open := fs_open sample_world;
     fs_write := fs_write sample_world;
     fs_close := fs_close sample_world |}.

(** A world whose DSNs name no database. *)
Definition nameless_world : world :=
  {| info_name := info_name sample_world;
     info_version := info_version sample_world;
     now := now sample_world;
     clock_start := clock_start sample_world;
     clock_end := clock_end sample_world;
     toUpperCase := toUpperCase sample_world;
     Buffer_encode := Buffer_encode sample_world;
     utf8_decode := utf8_decode sample_world;
     mysql_createConnection := fun _ => inr "";
     pg_Client := fun _ => inr "";
     mssql_Connection := mssql_Connection sample_world;
     JSON_parse := JSON_parse sample_world;
     connect_result := connect_result sample_world;
     tables_result := tables_result sample_world;
     columns_result := columns_result sample_world;
     fs_open := fs_open sample_world;
     fs_write := fs_write sample_world;
     fs_close := fs_close sample_world |}.

(** [{ dsn: 'mysql://root@localhost/shop' }] *)
Definition sample_options : options.t :=
  options.mk "mysql://root@localhost/shop" "" "" "" "" "" "" JUndefined
             false "" "" false false false false None None.

(** [{ dsn: 'mysql://root@localhost/shop', dialect: 'constructor' }] *)
Definition constructor_options : options.t :=
  options.set_dialect "constructor" sample_options.

(** [{ dsn: 'mssql://server=db1;database=shop;' }] and a DSN whose value
    holds an equals sign. *)
Definition mssql_options : options.t :=
  options.mk "mssql://server=db1;database=shop;" "" "" "" "" "" "" JUndefined
             false "" "" false false false false None None.

Definition broken_mssql_options : options.t :=
  options.mk "mssql://server=db1;password=a=b" "" "" "" "" "" "" JUndefined
             false "" "" false false false false None None.

(** [{ dsn: 'mysql://root@localhost/' }] *)
Definition nameless_options : options.t :=
  options.mk "mysql://root@localhost/" "" "" "" "" "" "" JUndefined
             false "" "" false false false false None None.

(** Options after resolution, with text before and after, wrapped in a
    module. *)
Definition wrapped_options : options.t :=
  options.mk "mysql://root@localhost/shop" "mysql" "shop" "" TAB LF "utf8" JUndefined
             false "//hello" "//bye" false false true false None None.

(** [includeRegex: [/^user/]], [excludeRegex: [/_log$/]] *)
Definition starts_with_user : regex := String.prefix "user".
Definition ends_with_log : regex := fun name => String.prefix "gol_" (String.rev name).

Definition filtered_options : options.t :=
  options.mk "mysql://root@localhost/shop" "mysql" "shop" "" TAB LF "utf8" JUndefined
             false "" "" false false false false
             (Some [starts_with_user]) (Some [ends_with_log]).

(** [{ outputFile: 'out.js', omitComments: true, camelize: true,
    includeMeta: true }], after resolution. *)
Definition file_options : options.t :=
  options.mk "mysql://root@localhost/shop" "mysql" "shop" "" TAB LF "utf8" (JString "out.js")
             true "" "" true false false true None None.

(** [{ includeRegex: [] }], after resolution. *)
Definition empty_include_options : options.t :=
  options.mk "mysql://root@localhost/shop" "mysql" "shop" "" TAB LF "utf8" JUndefined
             false "" "" false false false false (Some []) None.

(** [{ dsn: 'mysql://root@localhost/shop', encoding: 'utf16le' }] *)
Definition utf16_options : options.t :=
  options.set_encoding "utf16le" sample_options.

(** [{ dsn: 'mysql://root@localhost/shop', encoding: 'latin9' }], an
    encoding [Buffer] does not know. *)
Definition latin9_options : options.t :=
  options.set_encoding "latin9" sample_options.

(** Options on the sample DSN as the pipeline gets them: the dialect
    resolved, the defaults filled in, and the database taken from the
    DSN. *)
Definition resolved (o : options.t) : options.t :=
  options.set_database "shop" (withDefaults (options.set_dialect "mysql" o)).

(** ** Lemmas on strings and observations *)

Lemma append_cons (c : ascii) (a b : string) : String c a +:+ b = String c (a +:+ b).
Proof. reflexivity. Qed.

Lemma append_empty_l (s : string) : "" +:+ s = s.
Proof. reflexivity. Qed.

Lemma append_empty_r (s : string) : s +:+ "" = s.
Proof.
  induction s as [|c s IH]; [reflexivity|].
  by rewrite append_cons, IH.
Qed.

Lemma append_assoc (a b c : string) : (a +:+ b) +:+ c = a +:+ (b +:+ c).
Proof.
  induction a as [|x a IH]; [reflexivity|].
  by rewrite !append_cons, IH.
Qed.

Lemma nonempty_append (a b : string) : nonempty a = true → nonempty (a +:+ b) = true.
Proof. by destruct a. Qed.

Lemma nonempty_append_r (a b : string) : nonempty b = true → nonempty (a +:+ b) = true.
Proof. destruct a; [done|]. by rewrite append_cons. Qed.

Lemma nonempty_false (s : string) : nonempty s = false → s = "".
Proof. by destruct s. Qed.

Lemma flatten_app (a b : list string) : flatten (a ++ b) = flatten a +:+ flatten b.
Proof.
  induction a as [|x a IH]; [reflexivity|].
  simpl. by rewrite IH, append_assoc.
Qed.

Lemma callbacks_of_app (a b : list event) :
  callbacks_of (a ++ b) = callbacks_of a ++ callbacks_of b.
Proof. apply omap_app. Qed.

Lemma queries_of_app (a b : list event) :
  queries_of (a ++ b) = queries_of a ++ queries_of b.
Proof. apply omap_app. Qed.

Lemma opens_of_app (a b : list event) : opens_of (a ++ b) = opens_of a ++ opens_of b.
Proof. apply omap_app. Qed.

Lemma closes_of_app (a b : list event) : closes_of (a ++ b) = closes_of a ++ closes_of b.
Proof. apply omap_app. Qed.

Lemma buffered_app (a b : list event) : buffered (a ++ b) = buffered a +:+ buffered b.
Proof. unfold buffered. by rewrite omap_app, flatten_app. Qed.

Lemma recorded_app (w : world) (a b : list event) (m : table_map) :
  recorded w (a ++ b) m = recorded w b (recorded w a m).
Proof. apply foldl_app. Qed.

Lemma count_after_app (a b : list event) (v : jsval) :
  count_after (a ++ b) v = count_after b (count_after a v).
Proof.
  unfold count_after. rewrite existsb_app.
  by destruct (existsb is_write a), (existsb is_write b).
Qed.

Lemma no_count_plus (v : jsval) (n : Z) : no_count v → js_plus v n = JNumber NaN.
Proof. by intros [-> | ->]. Qed.

Lemma no_count_after (evs : list event) (v : jsval) : no_count v → no_count (count_after evs v).
Proof. unfold count_after. destruct (existsb is_write evs); [by right | done]. Qed.

Lemma Forall_prefix {A} (P : A → Prop) (a b : list A) :
  a `prefix_of` b → Forall P b → Forall P a.
Proof. intros [k ->] H. by apply Forall_app in H as [H _]. Qed.

Lemma omap_prefix {A B} (f : A → option B) (a b : list A) :
  a `prefix_of` b → omap f a `prefix_of` omap f b.
Proof. intros [k ->]. rewrite omap_app. by apply prefix_app_r. Qed.

Lemma map_prefix {A B} (f : A → B) (a b : list A) :
  a `prefix_of` b → map f a `prefix_of` map f b.
Proof. intros [k ->]. rewrite map_app. by apply prefix_app_r. Qed.

(** ** Events that take place *)

Lemma app_cons_snoc {A} (b : list A) (e : A) (l : list A) : b ++ e :: l = (b ++ [e]) ++ l.
Proof. by rewrite <- app_assoc. Qed.

Lemma calm_or_throw (e : event) : calm e ∨ ∃ msg, e = EvThrow msg.
Proof. destruct e; simpl; eauto. Qed.

Lemma performed_cons (w : world) (b : list event) (e : event) (rest : list event) :
  calm e →
  performed w b (e :: rest)
  = e :: match answer w b e with
         | Some _ => []
         | None => performed w (b ++ [e]) rest
         end.
Proof. by destruct e. Qed.

Lemma verdict_cons (w : world) (b : list event) (e : event) (rest : list event) :
  calm e →
  verdict w b (e :: rest)
  = match answer w b e with
    | Some err => Next (Some err)
    | None => verdict w (b ++ [e]) rest
    end.
Proof. by destruct e. Qed.

Lemma verdict_app (w : world) (b e1 e2 : list event) :
  verdict w b (e1 ++ e2)
  = match verdict w b e1 with
    | Next None => verdict w (b ++ e1) e2
    | r => r
    end.
Proof.
  revert b. induction e1 as [|e e1 IH]; intros b.
  - simpl. by rewrite app_nil_r.
  - destruct (calm_or_throw e) as [Hc|[msg ->]]; [|reflexivity].
    change ((e :: e1) ++ e2) with (e :: (e1 ++ e2)).
    rewrite !verdict_cons by done.
    destruct (answer w b e); [reflexivity|].
    rewrite IH. by rewrite <- app_assoc.
Qed.

Lemma performed_app (w : world) (b e1 e2 : list event) :
  performed w b (e1 ++ e2)
  = match verdict w b e1 with
    | Next None => e1 ++ performed w (b ++ e1) e2
    | _ => performed w b e1
    end.
Proof.
  revert b. induction e1 as [|e e1 IH]; intros b.
  - simpl. by rewrite app_nil_r.
  - destruct (calm_or_throw e) as [Hc|[msg ->]]; [|reflexivity].
    change ((e :: e1) ++ e2) with (e :: (e1 ++ e2)).
    rewrite !performed_cons, verdict_cons by done.
    destruct (answer w b e); [reflexivity|].
    rewrite IH. rewrite <- app_assoc. simpl.
    by destruct (verdict w (b ++ [e]) e1) as [[?|]|?].
Qed.

Lemma performed_complete (w : world) (b script : list event) :
  verdict w b script = Next None → performed w b script = script.
Proof.
  revert b. induction script as [|e rest IH]; intros b; [done|].
  destruct (calm_or_throw e) as [Hc|[msg ->]]; [|done].
  rewrite performed_cons, verdict_cons by done.
  destruct (answer w b e); [done|]. intros H. by rewrite IH.
Qed.

Lemma performed_prefix (w : world) (b script : list event) :
  performed w b script `prefix_of` script.
Proof.
  revert b. induction script as [|e rest IH]; intros b; [done|].
  destruct (calm_or_throw e) as [Hc|[msg ->]]; [|apply prefix_nil].
  rewrite performed_cons by done. apply prefix_cons.
  destruct (answer w b e); [apply prefix_nil | apply IH].
Qed.

Lemma performed_calm (w : world) (b script : list event) :
  Forall calm (performed w b script).
Proof.
  revert b. induction script as [|e rest IH]; intros b; [constructor|].
  destruct (calm_or_throw e) as [Hc|[msg ->]]; [|constructor].
  rewrite performed_cons by done. constructor; [done|].
  destruct (answer w b e); [constructor | apply IH].
Qed.

(** A script ends in one of three ways: every event takes place and none
    meets an error; or the events up to one that meets an error take
    place, that one included; or the events before an exception take
    place, none of which meets an error. *)
Lemma performed_cases (w : world) (b script : list event) :
  (verdict w b script = Next None ∧
   performed w b script = script ∧
   ∀ i e, script !! i = Some e → calm e ∧ answer w (b ++ take i script) e = None)
  ∨ (∃ k e err,
       verdict w b script = Next (Some err) ∧
       performed w b script = take (S k) script ∧
       script !! k = Some e ∧ calm e ∧
       answer w (b ++ take k script) e = Some err ∧
       ∀ i e', (i < k)%nat → script !! i = Some e' →
               calm e' ∧ answer w (b ++ take i script) e' = None)
  ∨ (∃ k msg,
       verdict w b script = Thrown msg ∧
       performed w b script = take k script ∧
       script !! k = Some (EvThrow msg) ∧
       ∀ i e', (i < k)%nat → script !! i = Some e' →
               calm e' ∧ answer w (b ++ take i script) e' = None).
Proof.
  revert b. induction script as [|e rest IH]; intros b.
  - left. by repeat split.
  - destruct (calm_or_throw e) as [Hc|[msg ->]].
    + rewrite performed_cons, verdict_cons by done.
      destruct (answer w b e) as [err|] eqn:Ha.
      * right. left. exists 0%nat, e, err. simpl. rewrite app_nil_r.
        do 5 (split; [done|]). intros; lia.
      * destruct (IH (b ++ [e]))
          as [(Hv & Hp & Hall)|[(k & e' & err & Hv & Hp & Hlook & Hce & Hans & Hall)
                               |(k & msg & Hv & Hp & Hlook & Hall)]].
        -- left. rewrite Hv, Hp. split; [done|]. split; [done|].
           intros [|i] e1 Hi; simpl in *.
           ++ injection Hi as <-. by rewrite app_nil_r.
           ++ rewrite app_cons_snoc. by apply Hall.
        -- right. left. exists (S k), e', err. rewrite Hv, Hp. simpl.
           rewrite app_cons_snoc.
           do 5 (split; [done|]).
           intros [|i] e1 Hlt Hi; simpl in *.
           ++ injection Hi as <-. by rewrite app_nil_r.
           ++ rewrite app_cons_snoc. apply (Hall i e1); [lia | done].
        -- right. right. exists (S k), msg. rewrite Hv, Hp. simpl.
           do 3 (split; [done|]).
           intros [|i] e1 Hlt Hi; simpl in *.
           ++ injection Hi as <-. by rewrite app_nil_r.
           ++ rewrite app_cons_snoc. apply (Hall i e1); [lia | done].
    + right. right. exists 0%nat, msg. simpl.
      do 3 (split; [done|]). intros; lia.
Qed.


(** ** How tasks follow a script *)

Lemma enacts_skip (w : world) (s : state) : enacts w [] s (Next None, s).
Proof.
  unfold enacts. simpl. rewrite app_nil_r, append_empty_r. repeat split; done.
Qed.

Lemma enacts_seq (w : world) (e1 e2 : list event) (s s1 : state) (r : outcome * state) :
  enacts w e1 s (Next None, s1) → enacts w e2 s1 r → enacts w (e1 ++ e2) s r.
Proof.
  unfold enacts. simpl.
  intros (Hv1 & Ht1 & Hfd1 & Hb1 & Htb1 & (Hs1 & He1 & Hel1 & Hw1) & Hc1)
         (Hv2 & Ht2 & Hfd2 & Hb2 & Htb2 & (Hs2 & He2 & Hel2 & Hw2) & Hc2).
  symmetry in Hv1. rewrite (performed_complete _ _ _ Hv1) in *.
  rewrite verdict_app, performed_app, Hv1. rewrite Ht1 in *.
  split; [done|].
  split; [by rewrite Ht2, app_assoc|].
  split; [congruence|].
  split; [by rewrite Hb2, Hb1, buffered_app, append_assoc|].
  split; [by rewrite Htb2, Htb1, recorded_app|].
  split; [repeat split; congruence|].
  intros Hnc. rewrite count_after_app, <- (Hc1 Hnc).
  apply Hc2. rewrite (Hc1 Hnc). by apply no_count_after.
Qed.

Lemma enacts_stop (w : world) (e1 e2 : list event) (s s1 : state) (r : outcome) :
  r ≠ Next None → enacts w e1 s (r, s1) → enacts w (e1 ++ e2) s (r, s1).
Proof.
  unfold enacts. simpl. intros Hr (Hv1 & H).
  rewrite verdict_app, performed_app, <- Hv1.
  destruct r as [[err|]|msg]; done.
Qed.

(** A task and what follows it. *)
Lemma enacts_then (w : world) (e1 e2 : list event) (t : task) (k : task) (s : state) :
  enacts w e1 s (t s) →
  (∀ s1, t s = (Next None, s1) → fd s1 = fd s → enacts w e2 s1 (k s1)) →
  enacts w (e1 ++ e2) s
    (match t s with
     | (Next None, s1) => k s1
     | (Next (Some err), s1) => (Next (Some err), s1)
     | (Thrown msg, s1) => (Thrown msg, s1)
     end).
Proof.
  intros H1 H2. destruct (t s) as [[[err|]|msg] s1].
  - by apply enacts_stop.
  - apply (enacts_seq w e1 e2 s s1); [done|].
    apply H2; [done|]. by destruct H1 as (_ & _ & Hfd & _).
  - by apply enacts_stop.
Qed.

Lemma enacts_eachSeries {A} (w : world) (arr : list A) (iterator : A → task)
  (f : A → list event) (d : option Z) :
  (∀ x s, fd s = d → enacts w (f x) s (iterator x s)) →
  ∀ s, fd s = d → enacts w (concat (map f arr)) s (async_eachSeries arr iterator s).
Proof.
  intros Hit. induction arr as [|x arr IH]; intros s Hfd; simpl.
  - apply enacts_skip.
  - apply (enacts_then w (f x) _ (iterator x) (async_eachSeries arr iterator) s).
    + by apply Hit.
    + intros s1 _ Hs1. apply IH. congruence.
Qed.

(** ** The text of a [write] *)

Lemma js_join_concat (sep : string) (l : list string) : js_join sep l = String.concat sep l.
Proof.
  destruct l as [|x r]; [reflexivity|]. simpl js_join.
  revert x. induction r as [|y r IH]; intros x; [reflexivity|].
  simpl fold_left. rewrite IH.
  destruct r as [|z r]; [reflexivity|].
  change (String.concat sep ((x +:+ sep +:+ y) :: z :: r))
    with ((x +:+ sep +:+ y) +:+ sep +:+ String.concat sep (z :: r)).
  change (String.concat sep (x :: y :: z :: r))
    with (x +:+ sep +:+ y +:+ sep +:+ String.concat sep (z :: r)).
  by rewrite !append_assoc.
Qed.

Lemma str_or_empty (s : string) : str_or s "" = s.
Proof. by destruct s. Qed.

Lemma write_text_concat (o : options.t) (args : list string) :
  write_text o args
  = String.concat (options.eol o) (List.filter nonempty args) +:+ options.eol o.
Proof.
  unfold write_text. rewrite js_join_concat. do 3 f_equal.
  induction args as [|x args IH]; [reflexivity|].
  simpl. by rewrite str_or_empty, IH.
Qed.

Lemma concat_cons2 (sep x y : string) (l : list string) :
  String.concat sep (x :: y :: l) = x +:+ sep +:+ String.concat sep (y :: l).
Proof. reflexivity. Qed.

Lemma indented_app (ind eol : string) (a b : list string) :
  indented ind eol (a ++ b) = indented ind eol a +:+ indented ind eol b.
Proof. unfold indented. by rewrite map_app, flatten_app. Qed.

Lemma indented_cons (ind eol x : string) (l : list string) :
  indented ind eol (x :: l) = ind +:+ x +:+ eol +:+ indented ind eol l.
Proof. unfold indented. simpl. by rewrite !append_assoc. Qed.

Lemma indented_map (ind eol : string) (l : list string) :
  indented "" eol (map (String.append ind) l) = indented ind eol l.
Proof.
  unfold indented. rewrite map_map. f_equal. apply map_ext. intros x.
  by rewrite append_empty_l, append_assoc.
Qed.

(** Lines joined by ends of line, with one more at the end. *)
Lemma concat_lines (eol : string) (l : list string) :
  l ≠ [] → String.concat eol l +:+ eol = indented "" eol l.
Proof.
  induction l as [|x l IH]; [done|]. intros _.
  destruct l as [|y l].
  - rewrite indented_cons. simpl. by rewrite append_empty_r.
  - rewrite concat_cons2, indented_cons, <- IH by done.
    by rewrite !append_assoc.
Qed.

Lemma write_text_lines (o : options.t) (args : list string) :
  List.filter nonempty args ≠ [] →
  write_text o args = indented "" (options.eol o) (List.filter nonempty args).
Proof. intros H. rewrite write_text_concat. by apply concat_lines. Qed.

Lemma filter_nonempty_keep (l : list string) :
  Forall (fun x => nonempty x = true) l → List.filter nonempty l = l.
Proof.
  induction 1 as [|x l Hx _ IH]; [reflexivity|]. simpl. by rewrite Hx, IH.
Qed.

(** A last argument [options.eol] puts two more ends of line behind the
    text, whether the end of line is empty or not. *)
Lemma write_text_blank (o : options.t) (args : list string) :
  List.filter nonempty args ≠ [] →
  write_text o (args ++ [options.eol o])
  = indented "" (options.eol o) (List.filter nonempty args)
    +:+ options.eol o +:+ options.eol o.
Proof.
  intros H. rewrite write_text_lines.
  - rewrite List.filter_app, indented_app. f_equal. simpl.
    destruct (nonempty (options.eol o)) eqn:E.
    + rewrite indented_cons. simpl. by rewrite append_empty_r.
    + by rewrite (nonempty_false _ E).
  - rewrite List.filter_app. intros Hnil. by apply app_eq_nil in Hnil as [? _].
Qed.

Lemma write_text_prepend (o : options.t) (text : string) :
  nonempty text = true →
  write_text o [text +:+ options.eol o] = text +:+ options.eol o +:+ options.eol o.
Proof.
  intros H. rewrite write_text_concat. simpl.
  rewrite (nonempty_append _ _ H). simpl. by rewrite append_assoc.
Qed.

Lemma write_text_append (o : options.t) (text : string) :
  nonempty text = true → write_text o [text] = text +:+ options.eol o.
Proof. intros H. rewrite write_text_concat. simpl. by rewrite H. Qed.

Lemma write_text_comment (w : world) (o : options.t) :
  write_text o [headerComment w +:+ options.eol o]
  = "// autogenerated by " +:+ info_name w +:+ " v" +:+ info_version w
    +:+ " on " +:+ now w +:+ options.eol o +:+ options.eol o.
Proof.
  rewrite write_text_prepend by done. unfold headerComment.
  by rewrite !append_assoc.
Qed.

Lemma write_text_opening (o : options.t) :
  write_text o (if options.modularize o
                then [ "module.exports = function(sql) {";
                       options.indent o +:+ "var exports = {};";
                       options.eol o ]
                else [ "var sql = require('sql');"; options.eol o ])
  = opening_text o.
Proof.
  unfold opening_text. destruct (options.modularize o).
  - change [ "module.exports = function(sql) {";
             options.indent o +:+ "var exports = {};"; options.eol o ]
      with ([ "module.exports = function(sql) {";
              options.indent o +:+ "var exports = {};" ] ++ [options.eol o]).
    rewrite write_text_blank.
    + simpl. rewrite (nonempty_append_r (options.indent o) "var exports = {};") by done.
      rewrite !indented_cons. simpl. by rewrite !append_assoc.
    + simpl. by rewrite (nonempty_append_r (options.indent o) "var exports = {};").
  - change [ "var sql = require('sql');"; options.eol o ]
      with ([ "var sql = require('sql');" ] ++ [options.eol o]).
    rewrite write_text_blank by done.
    simpl. rewrite indented_cons. simpl. by rewrite !append_assoc.
Qed.

Lemma write_text_wrapper (o : options.t) :
  write_text o [ options.indent o +:+ "return exports;"; "};" ]
  = options.indent o +:+ "return exports;" +:+ options.eol o +:+ "};" +:+ options.eol o.
Proof.
  rewrite write_text_lines.
  - simpl. rewrite (nonempty_append_r (options.indent o) "return exports;") by done.
    rewrite !indented_cons, !append_assoc. unfold indented. simpl.
    rewrite append_empty_r. reflexivity.
  - simpl. by rewrite (nonempty_append_r (options.indent o) "return exports;").
Qed.

(** *** The text of a table definition *)

Lemma columnString_line (w : world) (o : options.t) (column : gmap string jsval) :
  columnString w o column = table_indent o +:+ column_line w o column.
Proof.
  unfold columnString, column_line.
  destruct (options.camelize o), (options.includeMeta o);
    rewrite ?append_assoc, ?append_empty_l; reflexivity.
Qed.

Lemma concat_nonempty (sep x : string) (l : list string) :
  nonempty x = true → nonempty (String.concat sep (x :: l)) = true.
Proof. intros H. destruct l; [done|]. rewrite concat_cons2. by apply nonempty_append. Qed.

(** The column lines joined by a comma and an end of line. *)
Lemma joined_columns (ind eol : string) (l : list string) :
  l ≠ [] →
  String.concat ("," +:+ eol) (map (String.append ind) l) +:+ eol
  = indented ind eol (with_commas l).
Proof.
  induction l as [|x l IH]; [done|]. intros _.
  destruct l as [|y l].
  - simpl. rewrite indented_cons. unfold indented. simpl.
    by rewrite !append_assoc, append_empty_r.
  - change (map (String.append ind) (x :: y :: l))
      with ((ind +:+ x) :: map (String.append ind) (y :: l)).
    change (map (String.append ind) (y :: l))
      with ((ind +:+ y) :: map (String.append ind) l) at 1.
    rewrite concat_cons2.
    change (with_commas (x :: y :: l)) with ((x +:+ ",") :: with_commas (y :: l)).
    rewrite indented_cons, <- IH by done.
    change ((ind +:+ y) :: map (String.append ind) l)
      with (map (String.append ind) (y :: l)).
    by rewrite !append_assoc.
Qed.

Lemma column_line_nonempty (w : world) (o : options.t) (column : gmap string jsval) :
  nonempty (table_indent o +:+ column_line w o column) = true.
Proof.
  unfold column_line. apply nonempty_append_r.
  do 2 apply nonempty_append_r. done.
Qed.

Lemma joined_part (w : world) (o : options.t) (columns : list (gmap string jsval)) :
  indented "" (options.eol o)
    (List.filter nonempty
       [js_join ("," +:+ options.eol o) (map (columnString w o) columns)])
  = indented (table_indent o) (options.eol o) (with_commas (map (column_line w o) columns)).
Proof.
  destruct columns as [|c columns]; [reflexivity|].
  rewrite js_join_concat, (map_ext _ _ (columnString_line w o)).
  rewrite <- (map_map (column_line w o) (String.append (table_indent o))).
  set (l := map (column_line w o) (c :: columns)).
  assert (nonempty (String.concat ("," +:+ options.eol o)
                      (map (String.append (table_indent o)) l)) = true) as Hne.
  { apply concat_nonempty, column_line_nonempty. }
  cbn [List.filter]. rewrite Hne, indented_cons, append_empty_l.
  change (indented "" (options.eol o) []) with "". rewrite append_empty_r.
  by apply joined_columns.
Qed.

(** The arguments of [write] for a table give the lines of its
    definition. *)
Lemma write_text_table (w : world) (o : options.t) (tableName : string)
  (columns : list (gmap string jsval)) :
  write_text o (writeTable_args w o tableName columns) = table_text w o tableName columns.
Proof.
  unfold writeTable_args, table_text.
  set (ind := table_indent o).
  assert ((if options.modularize o then options.indent o else "") = ind) as -> by done.
  set (head := [ "exports." +:+ (if options.camelize o then camelize w tableName
                                 else tableName) +:+ " = sql.define({";
                 options.indent o +:+ "name: '" +:+ tableName +:+ "'," ]
               ++ (if options.includeSchema o
                   then [ options.indent o +:+ "schema: '"
                          +:+ str_or (options.schema o) (options.database o) +:+ "'," ]
                   else [])
               ++ [ options.indent o +:+ "columns: [" ]).
  set (foot := [ options.indent o +:+ "]"; "});" ]).
  set (joined := js_join ("," +:+ options.eol o) (map (columnString w o) columns)).
  assert ((if negb (options.omitComments o) then commentBlock o tableName else [])
          = map (String.append ind)
                (if options.omitComments o then [] else comment_lines o tableName)) as ->.
  { by destruct (options.omitComments o). }
  assert (definitionHead w o tableName = map (String.append ind) head) as ->.
  { unfold definitionHead, head, tryCamelize.
    destruct (options.camelize o), (options.includeSchema o); reflexivity. }
  assert (definitionFoot o = map (String.append ind) foot) as -> by reflexivity.
  assert (definition_lines w o tableName columns
          = head ++ with_commas (map (column_line w o) columns) ++ foot) as ->.
  { unfold definition_lines, head, foot. by rewrite <- !app_assoc. }
  set (comment := if options.omitComments o then [] else comment_lines o tableName).
  assert (Forall (fun x => nonempty x = true) (map (String.append ind) comment)) as Hc.
  { unfold comment, comment_lines.
    destruct (options.omitComments o); repeat constructor; by apply nonempty_append_r. }
  assert (Forall (fun x => nonempty x = true) (map (String.append ind) head)) as Hh.
  { unfold head. destruct (options.includeSchema o); repeat constructor;
      apply nonempty_append_r; try done;
      try (apply nonempty_append_r; done); by do 2 apply nonempty_append_r. }
  assert (Forall (fun x => nonempty x = true) (map (String.append ind) foot)) as Hf.
  { unfold foot. repeat constructor; apply nonempty_append_r; try done.
    by apply nonempty_append_r. }
  rewrite !app_assoc.
  rewrite write_text_blank.
  - f_equal. rewrite !List.filter_app, (filter_nonempty_keep _ Hc),
      (filter_nonempty_keep _ Hh), (filter_nonempty_keep _ Hf).
    rewrite !indented_app, !indented_map. rewrite !append_assoc. do 2 f_equal.
    f_equal. apply joined_part.
  - rewrite !List.filter_app, (filter_nonempty_keep _ Hh).
    unfold head. simpl. intros Hnil.
    apply app_eq_nil in Hnil as [Hnil _]. apply app_eq_nil in Hnil as [Hnil _].
    apply app_eq_nil in Hnil as [_ Hnil]. done.
Qed.

(** ** The tasks follow their scripts *)

Lemma write_enacts (w : world) (o : options.t) (args : list string) (text : string)
  (d : option Z) (s : state) :
  write_text o args = text → fd s = d →
  enacts w [write_event w o (fd_truthy d) text] s (write w o args s).
Proof.
  intros <- <-. unfold write, write_event, enacts.
  destruct (Buffer_new w (write_text o args) (options.encoding o)) as [msg|buffer].
  { simpl. rewrite app_nil_r, append_empty_r. repeat split; done. }
  destruct (fd_truthy (fd s)) as [z|] eqn:Hfd.
  - simpl. destruct (fs_write w (trace s) z (Buffer_bytes buffer)) as [err written].
    destruct err as [err|]; simpl; unfold buffered, count_after; simpl;
      rewrite append_empty_r; repeat split; try done;
      intros Hnc; by apply no_count_plus.
  - simpl. unfold buffered, count_after. simpl. rewrite append_empty_r.
    repeat split; try done. intros Hnc. by apply no_count_plus.
Qed.

Lemma connect_enacts (w : world) (s : state) : enacts w [EvConnect] s (connect w s).
Proof.
  unfold connect, enacts. simpl.
  destruct (connect_result w); simpl; unfold buffered; simpl;
    rewrite append_empty_r; repeat split; done.
Qed.

Lemma writeHead_enacts (w : world) (o : options.t) (d : option Z) (s : state) :
  fd s = d →
  enacts w (map (write_event w o (fd_truthy d)) (header_texts w o)) s (writeHead w o s).
Proof.
  intros Hfd. unfold writeHead, header_texts.
  pose proof (write_text_comment w o) as Hcomment.
  pose proof (write_text_opening o) as Hopening.
  unfold prepend_texts, comment_texts.
  destruct (nonempty (options.prepend o)) eqn:Hp, (options.omitComments o),
    (options.modularize o); simpl;
  repeat match goal with
  | |- enacts _ (write_event ?w ?o ?fd ?text :: ?l) ?s
         (match write ?w ?o ?args ?s with _ => _ end) =>
      apply (enacts_then w [write_event w o fd text] l (write w o args) _ s);
      [ apply write_enacts;
        [ first [ by apply write_text_prepend | exact Hcomment | exact Hopening ]
        | congruence ]
      | let s1 := fresh "s" in let H := fresh "H" in let H' := fresh "H" in
        intros s1 H H'; simpl ]
  end.
  all: try apply enacts_skip.
Qed.

Lemma answer_tables (w : world) (db : driver) (o : options.t) (b : list event) :
  answer w b (EvQuery (getListOfTables_query db o))
  = fst (tables_result w (getListOfTables_query db o)).
Proof. by destruct db. Qed.

Lemma answer_columns (w : world) (db : driver) (o : options.t) (t : string) (b : list event) :
  answer w b (EvQuery (getListOfColumns_query db o t))
  = fst (columns_result w (getListOfColumns_query db o t)).
Proof. by destruct db. Qed.

Lemma record_tables (w : world) (db : driver) (o : options.t) (m : table_map) :
  record_event w m (EvQuery (getListOfTables_query db o)) = m.
Proof. by destruct db. Qed.

Lemma record_columns (w : world) (db : driver) (o : options.t) (t : string) (m : table_map) :
  record_event w m (EvQuery (getListOfColumns_query db o t))
  = table_map_set t (table_entry w (getListOfColumns_query db o t)) m.
Proof. by destruct db. Qed.

Lemma table_map_set_twice (t : string) (a b : list column_stat) (m : table_map) :
  table_map_set t b (table_map_set t a m) = table_map_set t b m.
Proof.
  unfold table_map_set. destruct (String.eqb t "__proto__"); simpl; [done|].
  by rewrite insert_insert_eq.
Qed.

Lemma fetchTables_enacts (w : world) (db : driver) (o : options.t) (s : state) :
  enacts w [EvQuery (getListOfTables_query db o)] s (fetchTables w db o s) ∧
  (fst (fetchTables w db o s) = Next None →
   tableNames (snd (fetchTables w db o s)) = fetched_tables w db o).
Proof.
  unfold fetchTables, getListOfTables, fetched_tables, enacts.
  cbn [performed verdict]. rewrite answer_tables.
  destruct (tables_result w (getListOfTables_query db o)) as [[e|] rows];
    cbn [fst snd trace fd the_stats emit set_tableNames tableNames app];
    unfold buffered, recorded, count_after;
    cbn [foldl omap list_omap existsb is_write orb flatten foldr];
    rewrite ?record_tables; destruct db; simpl; rewrite append_empty_r;
    repeat split; done.
Qed.

Lemma columns_enacts (w : world) (db : driver) (o : options.t) (tableName : string)
  (s : state) :
  let q := getListOfColumns_query db o tableName in
  let s1 := emit (EvQuery q) (set_stats (stats_set_table tableName [] (the_stats s)) s) in
  match columns_result w q with
  | (Some e, _) => enacts w [EvQuery q] s (Next (Some e), s1)
  | (None, results) =>
      enacts w [EvQuery q] s
        (Next None,
         set_stats (stats_set_table tableName
                      (map (column_stat_of w) (map normalizeColumn results))
                      (the_stats s1)) s1)
  end.
Proof.
  intros q s1. unfold enacts. cbn [performed verdict].
  unfold q. rewrite answer_columns. fold q.
  unfold recorded. cbn [foldl]. unfold q. rewrite record_columns. fold q.
  unfold table_entry, s1.
  destruct (columns_result w q) as [[e|] results];
    cbn [fst snd trace fd the_stats emit set_stats stats_set_table stats.buffer
         stats.tables stats.start stats.end_ stats.elapsed stats.written
         stats.bytesWritten];
    unfold buffered, count_after; destruct db; simpl;
    rewrite ?append_empty_r, ?table_map_set_twice; repeat split; done.
Qed.

Lemma writeTable_enacts (w : world) (db : driver) (o : options.t) (d : option Z)
  (tableName : string) (s : state) :
  fd s = d →
  enacts w (map (event_of w o (fd_truthy d)) (table_steps w db o tableName)) s
    (writeTable w db o tableName s).
Proof.
  intros Hfd. unfold writeTable, getListOfColumns, table_steps, fetched_text, fetched_columns.
  cbn [map event_of].
  pose proof (columns_enacts w db o tableName s) as Hq. cbv zeta in Hq.
  destruct (columns_result w (getListOfColumns_query db o tableName))
    as [[e|] results] eqn:Hres; cbn [snd].
  - by apply (enacts_stop w [_] [_]).
  - apply (enacts_seq w [_] [_] _ _ _ Hq).
    apply write_enacts; [apply write_text_table | done].
Qed.

Lemma map_concat_map {A B C} (f : B → C) (g : A → list B) (l : list A) :
  map f (concat (map g l)) = concat (map (fun x => map f (g x)) l).
Proof.
  induction l as [|x l IH]; [reflexivity|]. simpl. by rewrite map_app, IH.
Qed.

Lemma processTables_enacts (w : world) (db : driver) (o : options.t) (d : option Z)
  (s : state) :
  fd s = d →
  enacts w (map (event_of w o (fd_truthy d))
              (concat (map (table_steps w db o) (tableNames s)))) s
    (processTables w db o s).
Proof.
  intros Hfd. rewrite map_concat_map. unfold processTables.
  apply (enacts_eachSeries w (tableNames s) (writeTable w db o) _ d); [|done].
  intros x s1 Hs1. by apply writeTable_enacts.
Qed.

Lemma writeTail_enacts (w : world) (o : options.t) (d : option Z) (s : state) :
  fd s = d →
  enacts w (map (write_event w o (fd_truthy d)) (tail_texts o)) s (writeTail w o s).
Proof.
  intros Hfd. unfold writeTail, tail_texts, wrapper_texts, append_texts.
  destruct (options.modularize o); simpl.
  - match goal with |- enacts _ (?e :: ?l) _ _ =>
      pose proof (enacts_then w [e] l
                    (write w o [options.indent o +:+ "return exports;"; "};"])
                    (fun s1 => if nonempty (options.append o)
                               then write w o [options.append o] s1
                               else (Next None, s1)) s) as Hthen
    end.
    destruct (write w o [options.indent o +:+ "return exports;"; "};"] s)
      as [[[err|]|msg] s1] eqn:Hw; simpl in *; apply Hthen.
    all: try (rewrite <- Hw; apply write_enacts; [apply write_text_wrapper | done]).
    all: intros s2 _ Hs2; destruct (nonempty (options.append o)) eqn:Ha; simpl;
      [ apply write_enacts; [by apply write_text_append | congruence]
      | apply enacts_skip ].
  - destruct (nonempty (options.append o)) eqn:Ha; simpl.
    + apply write_enacts; [by apply write_text_append | done].
    + apply enacts_skip.
Qed.

(** ** The series follows the plan *)

Lemma async_series_cons (t : task) (rest : list task) (s : state) :
  async_series (t :: rest) s
  = match t s with
    | (Next None, s1) => async_series rest s1
    | (Next (Some err), s1) => (Next (Some err), s1)
    | (Thrown msg, s1) => (Thrown msg, s1)
    end.
Proof. reflexivity. Qed.

Lemma inner_script (w : world) (db : driver) (o : options.t) (d : option Z) :
  map (event_of w o d) (inner_plan w db o)
  = [EvConnect]
    ++ map (write_event w o d) (header_texts w o)
    ++ [EvQuery (getListOfTables_query db o)]
    ++ map (event_of w o d) (concat (map (table_steps w db o) (fetched_tables w db o)))
    ++ map (write_event w o d) (tail_texts o).
Proof. unfold inner_plan. by rewrite !map_app, !map_map. Qed.

(** The five tasks after [openFile]. *)
Lemma inner_enacts (w : world) (db : driver) (o : options.t) (d : option Z) (s : state) :
  fd s = d →
  enacts w (map (event_of w o (fd_truthy d)) (inner_plan w db o)) s
    (async_series (drop 1 (pipeline w db o)) s).
Proof.
  intros Hfd. rewrite inner_script. unfold pipeline. cbn [drop].
  rewrite async_series_cons.
  apply enacts_then; [apply connect_enacts|]. intros s1 _ Hs1.
  rewrite async_series_cons.
  apply enacts_then; [apply writeHead_enacts; congruence|]. intros s2 _ Hs2.
  rewrite async_series_cons.
  destruct (fetchTables_enacts w db o s2) as [Hfetch Hnames].
  apply enacts_then; [exact Hfetch|]. intros s3 Hs3 Hfd3.
  rewrite Hs3 in Hnames. specialize (Hnames eq_refl). simpl in Hnames.
  rewrite async_series_cons.
  apply enacts_then.
  { rewrite <- Hnames. apply processTables_enacts. congruence. }
  intros s4 _ Hs4.
  rewrite async_series_cons.
  rewrite <- (app_nil_r (map (write_event w o (fd_truthy d)) (tail_texts o))).
  apply enacts_then; [apply writeTail_enacts; congruence|]. intros s5 _ Hs5.
  apply enacts_skip.
Qed.

Lemma script_open (w : world) (db : driver) (o : options.t) :
  script w db o
  = openFile_events o
    ++ map (event_of w o (fd_truthy (openFile_fd w o))) (inner_plan w db o).
Proof.
  unfold script, plan, open_steps, openFile_events. rewrite map_app.
  by destruct (options.outputFile o).
Qed.

(** The series as a whole: it ends as its script ends, its events are
    those of the script that take place, and the statistics follow
    them. *)
Lemma series_scripted (w : world) (db : driver) (o : options.t) :
  let r := series_result w db o in
  let body := performed w [] (script w db o) in
  fst r = verdict w [] (script w db o) ∧
  trace (snd r) = body ∧
  fd (snd r) = openFile_fd w o ∧
  stats_set_end (clock_end w) (the_stats (snd r)) = stats_after w body.
Proof.
  intros r body. unfold r, body, series_result. rewrite script_open.
  change (pipeline w db o) with (openFile w o :: drop 1 (pipeline w db o)).
  rewrite async_series_cons.
  assert (∀ s1 : state,
    fd s1 = openFile_fd w o → the_stats s1 = init_stats w →
    let r := async_series (drop 1 (pipeline w db o)) s1 in
    let inner := map (event_of w o (fd_truthy (openFile_fd w o))) (inner_plan w db o) in
    fst r = verdict w (trace s1) inner ∧
    trace (snd r) = trace s1 ++ performed w (trace s1) inner ∧
    fd (snd r) = openFile_fd w o ∧
    stats_set_end (clock_end w) (the_stats (snd r))
    = stats.mk (clock_start w) (Some (clock_end w)) (Some (clock_end w - clock_start w)) 0
               (buffered (performed w (trace s1) inner))
               (recorded w (performed w (trace s1) inner) (mkTables ∅ None))
               (count_after (performed w (trace s1) inner) JUndefined)) as Hrest.
  { intros s1 Hfd Hst r1 inner.
    destruct (inner_enacts w db o (openFile_fd w o) s1 Hfd)
      as (Hv & Ht & Hfd' & Hb & Htb & (Hs & He & Hel & Hw) & Hc).
    fold r1 inner in Hv, Ht, Hfd', Hb, Htb, Hs, He, Hel, Hw, Hc.
    rewrite Hst in *. simpl in Hb, Htb, Hs, He, Hel, Hw, Hc.
    specialize (Hc (or_introl eq_refl)).
    split; [done|]. split; [done|]. split; [congruence|].
    destruct (the_stats (snd r1)). unfold stats_set_end. simpl in *. by subst. }
  unfold openFile, openFile_fd, openFile_events in *.
  destruct (options.outputFile o) as [| |b|n|path].
  1-4: destruct (strict_eq _ (JNumber (Num 1)));
    by destruct (Hrest (set_fd _ (init_state w)) eq_refl eq_refl) as (-> & -> & -> & ->)
    || by destruct (Hrest (init_state w) eq_refl eq_refl) as (-> & -> & -> & ->).
  cbn [app]. rewrite performed_cons, verdict_cons by done. cbn [answer].
  destruct (fs_open w path) as [err|descriptor] eqn:Hopen.
  - simpl. repeat split; done.
  - specialize (Hrest (set_fd (Some descriptor) (emit (EvOpen path) (init_state w)))
                  eq_refl eq_refl).
    cbn [trace set_fd emit init_state app] in Hrest.
    destruct Hrest as (-> & -> & -> & ->).
    unfold stats_after, buffered, recorded, count_after. simpl.
    repeat split; done.
Qed.

(** ** The run follows the plan *)

Lemma runPipeline_finish (w : world) (db : driver) (o : options.t) (callback : bool) :
  runPipeline w db o callback
  = finish w callback (fst (series_result w db o)) (snd (series_result w db o)).
Proof. unfold runPipeline, series_result. by destruct (async_series _ _). Qed.

(** A run is the events of its script that take place, and the ending. *)
Lemma runPipeline_scripted (w : world) (db : driver) (o : options.t) (callback : bool) :
  runPipeline w db o callback
  = performed w [] (script w db o) ++ ending w db o callback.
Proof.
  rewrite runPipeline_finish.
  destruct (series_scripted w db o) as (Hv & Ht & Hfd & Hst).
  unfold finish, ending, closing. rewrite Hv, Ht, Hfd, Hst.
  destruct (verdict w [] (script w db o)) as [err|msg]; [|done].
  destruct (fd_truthy (openFile_fd w o)) as [z|]; [|done].
  by destruct (z =? 1).
Qed.

Lemma series_verdict (w : world) (db : driver) (o : options.t) :
  fst (series_result w db o) = verdict w [] (script w db o).
Proof. by destruct (series_scripted w db o) as (Hv & _). Qed.

(** *** What the script holds *)

Lemma write_event_at (w : world) (o : options.t) (d : option Z) (text : string) :
  at_descriptor d (write_event w o d text).
Proof.
  unfold write_event. destruct (Buffer_new w text (options.encoding o)); [done|].
  by destruct d.
Qed.

Lemma script_at_descriptor (w : world) (db : driver) (o : options.t) :
  Forall (at_descriptor (fd_truthy (openFile_fd w o))) (script w db o).
Proof.
  unfold script. apply Forall_forall. intros e (x & -> & _)%list_elem_of_fmap.
  destruct x; simpl; try done. apply write_event_at.
Qed.

Lemma performed_at_descriptor (w : world) (db : driver) (o : options.t) :
  Forall (at_descriptor (fd_truthy (openFile_fd w o))) (performed w [] (script w db o)).
Proof.
  exact (Forall_prefix _ _ _ (performed_prefix w [] _) (script_at_descriptor w db o)).
Qed.

Lemma at_descriptor_quiet (d : option Z) (evs : list event) :
  Forall (at_descriptor d) evs → callbacks_of evs = [] ∧ closes_of evs = [].
Proof.
  induction 1 as [|e evs He _ [IH1 IH2]]; [done|].
  destruct e; simpl in *; done.
Qed.

Lemma write_event_silent (w : world) (o : options.t) (d : option Z) (text : string) :
  query_of (write_event w o d text) = None ∧ open_of (write_event w o d text) = None.
Proof.
  unfold write_event. destruct (Buffer_new w text (options.encoding o)); [done|].
  by destruct d.
Qed.

Lemma queries_of_writes (w : world) (o : options.t) (d : option Z) (texts : list string) :
  queries_of (map (write_event w o d) texts) = [] ∧
  opens_of (map (write_event w o d) texts) = [].
Proof.
  unfold queries_of, opens_of.
  induction texts as [|t texts [IH1 IH2]]; [done|]. simpl.
  destruct (write_event_silent w o d t) as [-> ->]. done.
Qed.

Lemma queries_of_tables (w : world) (db : driver) (o : options.t) (d : option Z)
  (names : list string) :
  queries_of (map (event_of w o d) (concat (map (table_steps w db o) names)))
  = map (getListOfColumns_query db o) names ∧
  opens_of (map (event_of w o d) (concat (map (table_steps w db o) names))) = [].
Proof.
  unfold queries_of, opens_of.
  induction names as [|t names [IH1 IH2]]; [done|]. simpl.
  destruct (write_event_silent w o d (fetched_text w db o t)) as [-> ->].
  change (list_omap _ _ query_of ?l) with (omap query_of l).
  change (list_omap _ _ open_of ?l) with (omap open_of l).
  by rewrite IH1, IH2.
Qed.

Lemma queries_of_script (w : world) (db : driver) (o : options.t) :
  queries_of (script w db o) = expected_queries w db o.
Proof.
  rewrite script_open, inner_script. unfold expected_queries.
  rewrite !queries_of_app.
  destruct (queries_of_writes w o (fd_truthy (openFile_fd w o)) (header_texts w o)) as [-> _].
  destruct (queries_of_writes w o (fd_truthy (openFile_fd w o)) (tail_texts o)) as [-> _].
  destruct (queries_of_tables w db o (fd_truthy (openFile_fd w o)) (fetched_tables w db o))
    as [-> _].
  unfold openFile_events. destruct (options.outputFile o); simpl; by rewrite app_nil_r.
Qed.

Lemma opens_of_script (w : world) (db : driver) (o : options.t) :
  opens_of (map (event_of w o (fd_truthy (openFile_fd w o))) (inner_plan w db o)) = [].
Proof.
  rewrite inner_script, !opens_of_app.
  destruct (queries_of_writes w o (fd_truthy (openFile_fd w o)) (header_texts w o)) as [_ ->].
  destruct (queries_of_writes w o (fd_truthy (openFile_fd w o)) (tail_texts o)) as [_ ->].
  destruct (queries_of_tables w db o (fd_truthy (openFile_fd w o)) (fetched_tables w db o))
    as [_ ->].
  reflexivity.
Qed.

Lemma texts_of_plan (w : world) (db : driver) (o : options.t) :
  omap text_of (plan w db o) = the_texts w db o.
Proof.
  unfold plan, inner_plan, the_texts, open_steps. rewrite !omap_app.
  assert (∀ l, omap text_of (map DoWrite l) = l) as Hw.
  { induction l as [|x l IH]; [done|]. simpl. by f_equal. }
  rewrite !Hw.
  assert (omap text_of (concat (map (table_steps w db o) (fetched_tables w db o)))
          = map (fetched_text w db o) (fetched_tables w db o)) as ->.
  { induction (fetched_tables w db o) as [|t l IH]; [done|]. simpl. by f_equal. }
  by destruct (options.outputFile o).
Qed.

(** *** The ending *)

Lemma invoke_quiet (callback : bool) (err : option error) (st : option stats.t) :
  queries_of (invoke callback err st) = [] ∧
  opens_of (invoke callback err st) = [] ∧
  closes_of (invoke callback err st) = [] ∧
  omap written_of (invoke callback err st) = [].
Proof. by destruct callback. Qed.

Lemma closing_quiet (w : world) (o : options.t) :
  queries_of (closing w o) = [] ∧ opens_of (closing w o) = [] ∧
  callbacks_of (closing w o) = [] ∧ omap written_of (closing w o) = [].
Proof.
  unfold closing. destruct (fd_truthy (openFile_fd w o)) as [z|]; [|done].
  by destruct (z =? 1).
Qed.

Lemma ending_quiet (w : world) (db : driver) (o : options.t) (callback : bool) :
  queries_of (ending w db o callback) = [] ∧
  opens_of (ending w db o callback) = [] ∧
  omap written_of (ending w db o callback) = [].
Proof.
  unfold ending. destruct (verdict w [] (script w db o)) as [err|msg]; [|done].
  unfold queries_of, opens_of. rewrite !omap_app.
  destruct (closing_quiet w o) as (Hq & Ho & _ & Hw).
  destruct (invoke_quiet callback err
              (Some (stats_after w (performed w [] (script w db o)))))
    as (Hq' & Ho' & _ & Hw').
  unfold queries_of, opens_of in *. by rewrite Hq, Ho, Hw, Hq', Ho', Hw'.
Qed.

Lemma queries_of_runPipeline (w : world) (db : driver) (o : options.t) (callback : bool) :
  queries_of (runPipeline w db o callback)
  = queries_of (performed w [] (script w db o)).
Proof.
  rewrite runPipeline_scripted, queries_of_app.
  destruct (ending_quiet w db o callback) as (-> & _). by rewrite app_nil_r.
Qed.

(** The callback is called once, unless an exception ends the run. *)
Lemma callbacks_of_runPipeline (w : world) (db : driver) (o : options.t) :
  callbacks_of (runPipeline w db o true)
  = match fst (series_result w db o) with
    | Thrown _ => []
    | Next err => [(err, Some (stats_after w (performed w [] (script w db o))))]
    end.
Proof.
  rewrite runPipeline_scripted, callbacks_of_app, series_verdict.
  destruct (at_descriptor_quiet _ _ (performed_at_descriptor w db o)) as [-> _].
  unfold ending. destruct (verdict w [] (script w db o)) as [err|msg]; [|done].
  rewrite callbacks_of_app. by destruct (closing_quiet w o) as (_ & _ & -> & _).
Qed.

(** *** The output *)

Lemma rendered_utf8 (w : world) (o : options.t) (d : option Z) (text : string) :
  is_utf8 (options.encoding o) = true → rendered w o d text = text.
Proof. unfold rendered, Buffer_new. intros ->. by destruct d. Qed.

Lemma map_rendered_utf8 (w : world) (o : options.t) (d : option Z) (texts : list string) :
  is_utf8 (options.encoding o) = true → map (rendered w o d) texts = texts.
Proof.
  intros H. induction texts as [|t texts IH]; [done|].
  simpl. by rewrite IH, rendered_utf8.
Qed.


Lemma emitted_of_write (w : world) (o : options.t) (d : option Z) (text : string) :
  calm (write_event w o d text) →
  emitted_of (write_event w o d text) = Some (rendered w o d text).
Proof.
  unfold write_event, rendered.
  destruct (Buffer_new w text (options.encoding o)) as [msg|buffer]; [done|].
  by destruct d.
Qed.

Lemma emitted_of_events (w : world) (o : options.t) (d : option Z) (steps : list step) :
  Forall calm (map (event_of w o d) steps) →
  omap emitted_of (map (event_of w o d) steps) = map (rendered w o d) (omap text_of steps).
Proof.
  induction steps as [|x steps IH]; [done|].
  intros [Hx Hrest]%Forall_cons. specialize (IH Hrest).
  destruct x; simpl; try done.
  rewrite (emitted_of_write w o d text Hx). by f_equal.
Qed.

Lemma prefix_is_take {A} (a b : list A) : a `prefix_of` b → a = take (length a) b.
Proof. intros [k ->]. by rewrite take_app_length. Qed.

Lemma prefix_same_length {A} (a b : list A) :
  a `prefix_of` b → length a = length b → a = b.
Proof.
  intros [k ->]. rewrite length_app. destruct k; [by rewrite app_nil_r|]. simpl. lia.
Qed.

(** The events that took place are those of the first steps of the
    plan. *)
Lemma performed_steps (w : world) (db : driver) (o : options.t) :
  ∃ steps,
    steps `prefix_of` plan w db o ∧
    performed w [] (script w db o)
    = map (event_of w o (fd_truthy (openFile_fd w o))) steps ∧
    (fst (series_result w db o) = Next None → steps = plan w db o).
Proof.
  pose proof (performed_prefix w [] (script w db o)) as Hpre.
  exists (take (length (performed w [] (script w db o))) (plan w db o)).
  split; [apply prefix_take|].
  split.
  - rewrite (prefix_is_take _ _ Hpre) at 1. unfold script. by rewrite firstn_map.
  - intros Hnone. rewrite series_verdict in Hnone.
    rewrite (performed_complete _ _ _ Hnone). unfold script.
    rewrite length_map. apply firstn_all.
Qed.

Lemma at_descriptor_fd (z : Z) (evs : list event) :
  Forall (at_descriptor (Some z)) evs →
  omap written_of evs = omap emitted_of evs ∧ buffered evs = "".
Proof.
  unfold buffered.
  induction 1 as [|e evs He _ [IH1 IH2]]; [done|].
  destruct e; simpl in *; try done. split; [by f_equal | done].
Qed.

Lemma at_descriptor_memory (evs : list event) :
  Forall (at_descriptor None) evs →
  omap written_of evs = [] ∧ buffered evs = flatten (omap emitted_of evs).
Proof.
  unfold buffered.
  induction 1 as [|e evs He _ [IH1 IH2]]; [done|].
  destruct e; simpl in *; try done. split; [done | by f_equal].
Qed.

(** What a run puts out: what its events handed to [fs.write], and,
    unless an exception ends it, what they added to [stats.buffer]. *)
Lemma output_of_run (w : world) (db : driver) (o : options.t) :
  output_of (runPipeline w db o true)
  = flatten (omap written_of (performed w [] (script w db o)))
    +:+ match fst (series_result w db o) with
        | Thrown _ => ""
        | Next _ => buffered (performed w [] (script w db o))
        end.
Proof.
  unfold output_of, handed_back. rewrite callbacks_of_runPipeline.
  rewrite runPipeline_scripted at 1. rewrite omap_app.
  destruct (ending_quiet w db o true) as (_ & _ & ->). rewrite app_nil_r.
  by destruct (fst (series_result w db o)).
Qed.

(** The output of a run is that of the first [k] texts; of all the texts
    when the series ends without an error. *)
Lemma output_scripted (w : world) (db : driver) (o : options.t) :
  ∃ k,
    (k ≤ length (the_texts w db o))%nat ∧
    output_of (runPipeline w db o true)
    = flatten (map (rendered w o (fd_truthy (openFile_fd w o)))
                   (take k (the_texts w db o))) ∧
    (fst (series_result w db o) = Next None → k = length (the_texts w db o)).
Proof.
  rewrite output_of_run.
  destruct (performed_steps w db o) as (steps & Hpre & Hbody & Hall).
  pose proof (performed_at_descriptor w db o) as Hat.
  pose proof (performed_calm w [] (script w db o)) as Hcalm.
  rewrite Hbody in *.
  pose proof (emitted_of_events w o _ steps Hcalm) as Hem.
  pose proof (omap_prefix text_of _ _ Hpre) as Htexts.
  rewrite texts_of_plan in Htexts.
  assert (length (omap text_of steps) ≤ length (the_texts w db o))%nat as Hlen.
  { by apply prefix_length. }
  assert (fst (series_result w db o) = Next None →
          length (omap text_of steps) = length (the_texts w db o)) as Hfull.
  { intros Hnone. by rewrite (Hall Hnone), texts_of_plan. }
  destruct (fd_truthy (openFile_fd w o)) as [z|].
  - destruct (at_descriptor_fd z _ Hat) as [-> ->].
    exists (length (omap text_of steps)). split; [done|]. split; [|done].
    rewrite Hem, <- (prefix_is_take _ _ Htexts).
    destruct (fst (series_result w db o)); by rewrite append_empty_r.
  - destruct (at_descriptor_memory _ Hat) as [-> ->].
    destruct (fst (series_result w db o)) as [err|msg] eqn:Hr.
    + exists (length (omap text_of steps)). split; [done|]. split; [|done].
      by rewrite Hem, <- (prefix_is_take _ _ Htexts).
    + exists 0%nat. split; [lia|]. split; [done|]. done.
Qed.

(** *** Runs without an exception, files and descriptors *)





Lemma opens_of_performed (w : world) (db : driver) (o : options.t) :
  opens_of (performed w [] (script w db o)) = opens_of (openFile_events o).
Proof.
  rewrite script_open.
  set (inner := map (event_of w o (fd_truthy (openFile_fd w o))) (inner_plan w db o)).
  assert (∀ b, opens_of (performed w b inner) = []) as Hinner.
  { intros b. pose proof (omap_prefix open_of _ _ (performed_prefix w b inner)) as Hp.
    fold (opens_of inner) in Hp. unfold inner in Hp at 2. rewrite opens_of_script in Hp.
    by apply prefix_nil_inv in Hp. }
  unfold openFile_events. destruct (options.outputFile o) as [| |b|n|path]; try apply Hinner.
  change ([EvOpen path] ++ inner) with (EvOpen path :: inner).
  rewrite (performed_cons w [] (EvOpen path) inner I).
  destruct (answer w [] (EvOpen path)); [done|].
  change (path :: opens_of (performed w ([] ++ [EvOpen path]) inner) = [path]).
  by rewrite Hinner.
Qed.

Lemma opens_of_runPipeline (w : world) (db : driver) (o : options.t) (callback : bool) :
  opens_of (runPipeline w db o callback) = opens_of (openFile_events o).
Proof.
  rewrite runPipeline_scripted, opens_of_app, opens_of_performed.
  destruct (ending_quiet w db o callback) as (_ & -> & _). by rewrite app_nil_r.
Qed.

Lemma written_of_runPipeline (w : world) (db : driver) (o : options.t) (callback : bool) :
  omap written_of (runPipeline w db o callback)
  = omap written_of (performed w [] (script w db o)).
Proof.
  rewrite runPipeline_scripted, omap_app.
  destruct (ending_quiet w db o callback) as (_ & _ & ->). by rewrite app_nil_r.
Qed.

Lemma closes_of_runPipeline (w : world) (db : driver) (o : options.t) (callback : bool) :
  closes_of (runPipeline w db o callback)
  = match fst (series_result w db o) with
    | Thrown _ => []
    | Next _ => closes_of (closing w o)
    end.
Proof.
  rewrite runPipeline_scripted, closes_of_app, series_verdict.
  destruct (at_descriptor_quiet _ _ (performed_at_descriptor w db o)) as [_ ->].
  unfold ending. destruct (verdict w [] (script w db o)) as [err|msg]; [|done].
  rewrite closes_of_app. destruct (invoke_quiet callback err
    (Some (stats_after w (performed w [] (script w db o))))) as (_ & _ & -> & _).
  by rewrite app_nil_r.
Qed.

(** The text of [stats.buffer] the callback gets is what the events of
    the tasks added to it. *)
Lemma handed_back_run (w : world) (db : driver) (o : options.t) :
  handed_back (runPipeline w db o true)
  = match fst (series_result w db o) with
    | Thrown _ => ""
    | Next _ => buffered (performed w [] (script w db o))
    end.
Proof.
  unfold handed_back. rewrite callbacks_of_runPipeline.
  by destruct (fst (series_result w db o)).
Qed.


(** *** Worlds without trouble *)

Lemma opens_of_nil (evs : list event) :
  opens_of evs = [] → Forall (fun e => open_of e = None) evs.
Proof.
  unfold opens_of. induction evs as [|e evs IH]; [constructor|].
  simpl. destruct (open_of e) eqn:E; [done|]. intros H. constructor; [done | by apply IH].
Qed.

Lemma script_opens (w : world) (db : driver) (o : options.t) :
  Forall (fun e => match e with
                   | EvOpen path => options.outputFile o = JString path
                   | _ => True
                   end) (script w db o).
Proof.
  rewrite script_open. apply Forall_app. split.
  - unfold openFile_events. destruct (options.outputFile o); by repeat constructor.
  - eapply Forall_impl; [exact (opens_of_nil _ (opens_of_script w db o))|].
    intros e He. by destruct e.
Qed.

Lemma verdict_all_none (w : world) (b script : list event) :
  Forall (fun e => calm e ∧ ∀ b, answer w b e = None) script →
  verdict w b script = Next None.
Proof.
  intros H. revert b. induction H as [|e rest [He Hans] _ IH]; intros b; [done|].
  by rewrite (verdict_cons _ _ _ _ He), Hans.
Qed.

Lemma script_healthy (w : world) (db : driver) (o : options.t) :
  healthy w o →
  Forall (fun e => calm e ∧ ∀ b, answer w b e = None) (script w db o).
Proof.
  intros (Hc & Ht & Hcol & Hw & Hopen & Henc).
  pose proof (script_opens w db o) as Hso. unfold script in *.
  induction (plan w db o) as [|x l IH]; [constructor|].
  simpl in Hso. apply Forall_cons in Hso as [Hx Hl].
  simpl. constructor; [|by apply IH].
  destruct x as [path| |q|text]; simpl.
  - split; [done|]. intros _. simpl in Hx. by destruct (Hopen path Hx) as [z ->].
  - done.
  - split; [done|]. intros _. by destruct q.
  - unfold write_event. destruct (Henc text) as [buffer ->].
    destruct (fd_truthy (openFile_fd w o)); split; try done.
    intros b. apply Hw.
Qed.

Lemma healthy_series (w : world) (db : driver) (o : options.t) :
  healthy w o → fst (series_result w db o) = Next None.
Proof.
  intros H. rewrite series_verdict. by apply verdict_all_none, script_healthy.
Qed.

(** The output of a run against texts that are the texts of the plan. *)
Lemma output_against (w : world) (db : driver) (o : options.t) (texts : list string) :
  texts = the_texts w db o →
  ∃ k,
    (k ≤ length texts)%nat ∧
    output_of (runPipeline w db o true)
    = flatten (map (rendered w o (fd_truthy (openFile_fd w o))) (take k texts)) ∧
    (is_utf8 (options.encoding o) = true →
     output_of (runPipeline w db o true) = flatten (take k texts)) ∧
    (fst (series_result w db o) = Next None → k = length texts) ∧
    (healthy w o → k = length texts).
Proof.
  intros ->. destruct (output_scripted w db o) as (k & Hk & Hout & Hall).
  exists k. split; [done|]. split; [done|]. split; [|split; [done|]].
  - intros Hutf. by rewrite Hout, map_rendered_utf8.
  - intros Hh. by apply Hall, healthy_series.
Qed.
(** ** Dialect resolution *)

Lemma resolveDialect_no_dsn (o : options.t) :
  options.dsn o = "" → resolveDialect o = inl "options.dsn is required".
Proof. unfold resolveDialect. by intros ->. Qed.

Lemma resolveDialect_unrecognised_dsn (o : options.t) :
  nonempty (options.dsn o) = true → options.dialect o = "" →
  dsn_dialect (options.dsn o) = None →
  resolveDialect o = inl "options.dialect is required".
Proof. unfold resolveDialect. by intros -> -> ->. Qed.


Lemma toLowerCase_idemp (s : string) : toLowerCase (toLowerCase s) = toLowerCase s.
Proof.
  induction s as [|c s IH]; [reflexivity|]. simpl. f_equal; [|exact IH].
  unfold lower_char.
  destruct ((65 <=? nat_of_ascii c)%nat && (nat_of_ascii c <=? 90)%nat) eqn:E.
  - apply andb_true_iff in E as [H1%Nat.leb_le H2%Nat.leb_le].
    rewrite nat_ascii_embedding by lia.
    destruct ((65 <=? nat_of_ascii c + 32)%nat && (nat_of_ascii c + 32 <=? 90)%nat) eqn:E2;
      [|reflexivity].
    apply andb_true_iff in E2 as [_ H3%Nat.leb_le]. lia.
  - by rewrite E.
Qed.



(** C5, at the input [{ dsn: 'mysql://root@localhost/shop', dialect:
    'constructor' }]: the dialect is none of "mysql", "pg" and "mssql", yet
    [supportedDialects['constructor']] is the inherited [Object] function,
    so the check lets it pass, no callback receives an error, and
    [require('constructor')] throws. *)
Theorem resolveDialect_accepts_constructor :
  lookup_truthy supportedDialects "constructor" = true ∧
  resolveDialect constructor_options = inr constructor_options ∧
  generate sample_world constructor_options true
  = [EvThrow "Cannot find module 'constructor'"] ∧
  callbacks_of (generate sample_world constructor_options true) = [].
Proof. repeat split; vm_compute; reflexivity. Qed.
(** ** Column normalisation *)

Lemma normalizeColumn_type (col : gmap string jsval) :
  get (normalizeColumn col) "type"
  = if strict_eq (get col "type") (JString "character varying") then JString "varchar"
    else if strict_eq (get col "type") (JString "character") then JString "char"
    else if strict_eq (get col "type") (JString "integer") then JString "int"
    else get col "type".
Proof.
  unfold normalizeColumn, get.
  rewrite !lookup_insert_ne by done.
  repeat case_match; by rewrite ?lookup_insert_eq.
Qed.

Lemma normalizeColumn_nullable (col : gmap string jsval) :
  get (normalizeColumn col) "nullable"
  = JBool (strict_eq (get col "nullable") (JString "YES")).
Proof.
  unfold normalizeColumn, get.
  rewrite lookup_insert_ne, lookup_insert_eq by done. simpl.
  repeat case_match; by rewrite ?lookup_insert_ne by done.
Qed.

(** The length is read from the property [maxLength], which the query does
    not select; the selected [charLength] plays no part. *)
Lemma normalizeColumn_maxLength (col : gmap string jsval) :
  get (normalizeColumn col) "maxLength" = parseInt_or_null (get col "maxLength").
Proof.
  unfold normalizeColumn, get. rewrite lookup_insert_eq. simpl.
  rewrite lookup_insert_ne by done.
  repeat case_match; by rewrite ?lookup_insert_ne by done.
Qed.

Lemma normalizeColumn_fetched (col : gmap string jsval) :
  col !! "maxLength" = None → get (normalizeColumn col) "maxLength" = JNull.
Proof. intros H. rewrite normalizeColumn_maxLength. unfold get. by rewrite H. Qed.

Lemma normalizeColumn_charLength (col : gmap string jsval) :
  get (normalizeColumn col) "charLength" = get col "charLength".
Proof.
  unfold normalizeColumn, get. rewrite !lookup_insert_ne by done.
  repeat case_match; by rewrite ?lookup_insert_ne by done.
Qed.

(** C1, at the fetched row [{ name: 'full_name', nullable: 'YES',
    defaultValue: null, charLength: 255, type: 'character varying' }]:
    the type becomes 'varchar' and nullable becomes [true], but maxLength
    becomes [null] although the character maximum length is 255. *)
Theorem getListOfColumns_maxLength_null :
  sample_column !! "charLength" = Some (JNumber (Num 255)) ∧
  get (normalizeColumn sample_column) "type" = JString "varchar" ∧
  get (normalizeColumn sample_column) "nullable" = JBool true ∧
  get (normalizeColumn sample_column) "charLength" = JNumber (Num 255) ∧
  get (normalizeColumn sample_column) "maxLength" = JNull ∧
  (map (fun col => get col "maxLength")
       (snd (fst (getListOfColumns sample_world mysql sample_options "users"
                    (init_state sample_world))))
   = [JNull; JNull]).
Proof. repeat split; vm_compute; reflexivity. Qed.
(** ** The table filter *)

Lemma forallb_negb_existsb {A} (f : A → bool) (l : list A) :
  forallb (fun x => negb (f x)) l = negb (existsb f l).
Proof.
  induction l as [|x l IH]; [reflexivity|]. simpl.
  rewrite IH. by destruct (f x).
Qed.

Lemma tableRowFilter_kept (o : options.t) (name : string) :
  tableRowFilter o name = if table_kept o name then Some name else None.
Proof.
  unfold tableRowFilter, table_kept.
  destruct (options.includeRegex o) as [inc|], (options.excludeRegex o) as [exc|];
    simpl; rewrite ?forallb_negb_existsb, ?negb_involutive, ?andb_true_r;
    repeat case_match; simplify_eq/=; try done.
Qed.

Lemma filterTableRows_filter (o : options.t) (rows : list string) :
  filterTableRows o rows = List.filter (table_kept o) rows.
Proof.
  unfold filterTableRows.
  induction rows as [|name rows IH]; [reflexivity|].
  simpl. rewrite tableRowFilter_kept.
  change (list_omap _ _ (tableRowFilter o) rows) with (omap (tableRowFilter o) rows).
  destruct (table_kept o name); simpl; by rewrite IH.
Qed.

Lemma table_kept_true (o : options.t) (name : string) :
  table_kept o name = true ↔
  match options.includeRegex o with
  | Some includeRegex => ∃ re, re ∈ includeRegex ∧ re name = true
  | None => True
  end ∧
  match options.excludeRegex o with
  | Some excludeRegex => Forall (fun re : regex => re name = false) excludeRegex
  | None => True
  end.
Proof.
  unfold table_kept. rewrite andb_true_iff.
  assert (∀ exc : list regex,
    negb (existsb (fun re => re name) exc) = true
    ↔ Forall (fun re : regex => re name = false) exc) as Hexc.
  { intros exc.
    rewrite negb_true_iff, <- not_true_iff_false, existsb_exists, Forall_forall.
    setoid_rewrite <- list_elem_of_In. split.
    - intros Hno re Hin. destruct (re name) eqn:E; [|done]. exfalso. eauto.
    - intros Hall (re & Hin & Hre). rewrite (Hall re Hin) in Hre. done. }
  assert (∀ inc : list regex,
    existsb (fun re => re name) inc = true ↔ ∃ re, re ∈ inc ∧ re name = true) as Hinc.
  { intros inc. rewrite existsb_exists. by setoid_rewrite <- list_elem_of_In. }
  destruct (options.includeRegex o) as [inc|], (options.excludeRegex o) as [exc|];
    rewrite ?Hinc, ?Hexc; tauto.
Qed.

(** C4: the names [getListOfTables] hands on are the fetched names, in
    their order, for which some include pattern matches (when
    [includeRegex] is given) and no exclude pattern matches (when
    [excludeRegex] is given); with neither option every name is kept. *)
Theorem tableRowFilter_spec (o : options.t) (rows : list string) (name : string) :
  filterTableRows o rows = List.filter (table_kept o) rows ∧
  (name ∈ filterTableRows o rows ↔
   name ∈ rows ∧
   match options.includeRegex o with
   | Some includeRegex => ∃ re, re ∈ includeRegex ∧ re name = true
   | None => True
   end ∧
   match options.excludeRegex o with
   | Some excludeRegex => Forall (fun re : regex => re name = false) excludeRegex
   | None => True
   end) ∧
  match options.includeRegex o, options.excludeRegex o with
  | None, None => filterTableRows o rows = rows
  | _, _ => True
  end.
Proof.
  split; [apply filterTableRows_filter|]. split.
  - rewrite filterTableRows_filter, list_elem_of_In, filter_In, <- list_elem_of_In.
    by rewrite table_kept_true.
  - destruct (options.includeRegex o) eqn:Ei; [done|].
    destruct (options.excludeRegex o) eqn:Ee; [done|].
    rewrite filterTableRows_filter.
    induction rows as [|x rows IH]; [reflexivity|]. simpl.
    unfold table_kept at 1. rewrite Ei, Ee. simpl. by rewrite IH.
Qed.

(** ** The order of the pipeline *)


(** ** The byte count *)

(** [stats.bytesWritten] after the series: [undefined] when no [write]
    took place, [NaN] otherwise; never a count. *)
Lemma bytesWritten_never_counts (w : world) (db : driver) (o : options.t) :
  stats.bytesWritten (the_stats (snd (series_result w db o)))
  = count_after (trace (snd (series_result w db o))) JUndefined ∧
  no_count (stats.bytesWritten (the_stats (snd (series_result w db o)))).
Proof.
  destruct (series_scripted w db o) as (_ & Ht & _ & Hst).
  apply (f_equal stats.bytesWritten) in Hst. simpl in Hst.
  rewrite Ht, Hst. split; [reflexivity|]. apply no_count_after. by left.
Qed.

(** C3, at the input [{ dsn: 'mysql://root@localhost/shop' }] against a
    database with one table: the run writes 261 bytes into [stats.buffer],
    and the stats object handed to the callback has [bytesWritten] equal to
    [NaN], not 261; the counter the object literal initialises, [written],
    is still 0. *)
Theorem bytesWritten_is_NaN :
  ∃ st,
    callbacks_of (generate sample_world sample_options true) = [(None, Some st)] ∧
    String.length (stats.buffer st) = 261%nat ∧
    stats.bytesWritten st = JNumber NaN ∧
    stats.written st = 0 ∧
    stats.bytesWritten (init_stats sample_world) = JUndefined ∧
    js_plus JUndefined 261 = JNumber NaN.
Proof.
  eexists. split; [vm_compute; reflexivity|].
  repeat split; vm_compute; reflexivity.
Qed.

(** ** Output kept in memory *)




(** ** The texts of a run *)

Lemma comment_block_text (ind eol : string) (o : options.t) (tableName : string) :
  indented ind eol (comment_lines o tableName)
  = ind +:+ "/**" +:+ eol
    +:+ ind +:+ " * SQL definition for "
    +:+ str_or (options.schema o) (options.database o) +:+ "." +:+ tableName +:+ eol
    +:+ ind +:+ " */" +:+ eol.
Proof.
  unfold comment_lines. rewrite !indented_cons. unfold indented. simpl.
  by rewrite !append_assoc, append_empty_r.
Qed.

(** ** Comments *)

(** C6: with [options.omitComments] set the texts of a run hold neither
    the header comment nor a comment block; without it the header comment
    is one text of its own, written after the prepended text, and the
    text of every table definition starts with the three lines of a
    comment block that names the table.  The output of a run is that of
    the first texts, of all of them when the series ends without an
    error. *)
Theorem comments_follow_omitComments (w : world) (db : driver) (o : options.t) :
  let d := fd_truthy (openFile_fd w o) in
  let eol := options.eol o in
  let indent := if options.modularize o then options.indent o else "" in
  let header_comment :=
    "// autogenerated by " +:+ info_name w +:+ " v" +:+ info_version w
    +:+ " on " +:+ now w +:+ eol +:+ eol in
  let comment_block := fun tableName =>
    indent +:+ "/**" +:+ eol
    +:+ indent +:+ " * SQL definition for "
    +:+ str_or (options.schema o) (options.database o) +:+ "." +:+ tableName +:+ eol
    +:+ indent +:+ " */" +:+ eol in
  let definition := fun tableName =>
    flatten (map (fun line => indent +:+ line +:+ eol)
                 (definition_lines w o tableName
                    (map normalizeColumn (fetched_columns w db o tableName))))
    +:+ eol +:+ eol in
  let texts :=
    prepend_texts o
    ++ (if options.omitComments o then [] else [header_comment])
    ++ [opening_text o]
    ++ map (fun t => (if options.omitComments o then "" else comment_block t)
                     +:+ definition t)
           (fetched_tables w db o)
    ++ tail_texts o in
  ∃ k,
    (k ≤ length texts)%nat ∧
    output_of (runPipeline w db o true) = flatten (map (rendered w o d) (take k texts)) ∧
    (is_utf8 (options.encoding o) = true →
     output_of (runPipeline w db o true) = flatten (take k texts)) ∧
    (fst (series_result w db o) = Next None → k = length texts) ∧
    (healthy w o → k = length texts).
Proof.
  intros d eol indent header_comment comment_block definition texts.
  apply output_against. unfold texts, the_texts, header_texts, comment_texts.
  rewrite <- !app_assoc. do 3 f_equal. f_equal.
  apply map_ext. intros t. unfold fetched_text, definition, table_text, comment_block.
  fold eol indent.
  change (flatten (map (fun line => indent +:+ line +:+ eol) ?l))
    with (indented indent eol l).
  destruct (options.omitComments o); [reflexivity|].
  rewrite (indented_app _ _ (comment_lines o t)), comment_block_text. cbn [app].
  by rewrite !append_assoc.
Qed.

(** ** Module wrapping *)

(** C7: with [options.modularize] set the header is the
    [module.exports = function(sql) {] line and the [var exports = {};]
    line, every line of a table definition has [options.indent] in front,
    and the tail is [return exports;] and [};], written after the table
    definitions; without it the header is the [require('sql')] line, the
    lines have nothing in front, and there is no tail.  The lines
    themselves do not depend on the option.  The output of a run is that
    of the first texts, of all of them when the series ends without an
    error. *)
Theorem modularize_wraps_output (w : world) (db : driver) (o : options.t) :
  let d := fd_truthy (openFile_fd w o) in
  let eol := options.eol o in
  let indent := if options.modularize o then options.indent o else "" in
  let lines := fun tableName =>
    table_lines w (options.set_modularize false o) tableName
      (map normalizeColumn (fetched_columns w db o tableName)) in
  let texts :=
    prepend_texts o
    ++ comment_texts w o
    ++ [ if options.modularize o
         then "module.exports = function(sql) {" +:+ eol
              +:+ options.indent o +:+ "var exports = {};" +:+ eol +:+ eol +:+ eol
         else "var sql = require('sql');" +:+ eol +:+ eol +:+ eol ]
    ++ map (fun t => flatten (map (fun line => indent +:+ line +:+ eol) (lines t))
                     +:+ eol +:+ eol)
           (fetched_tables w db o)
    ++ (if options.modularize o
        then [ options.indent o +:+ "return exports;" +:+ eol +:+ "};" +:+ eol ]
        else [])
    ++ append_texts o in
  ∃ k,
    (k ≤ length texts)%nat ∧
    output_of (runPipeline w db o true) = flatten (map (rendered w o d) (take k texts)) ∧
    (is_utf8 (options.encoding o) = true →
     output_of (runPipeline w db o true) = flatten (take k texts)) ∧
    (fst (series_result w db o) = Next None → k = length texts) ∧
    (healthy w o → k = length texts).
Proof.
  intros d eol indent lines texts.
  apply output_against. unfold texts, the_texts, header_texts, tail_texts.
  rewrite <- !app_assoc. reflexivity.
Qed.

(** ** Prepended and appended text *)

(** C8: the prepended text, when given, is the first text of a run, and
    the appended text, when given, is the last, after the table
    definitions and the tail of a module.  The output of a run is that of
    the first texts, of all of them when the series ends without an
    error: so whatever a run puts out starts with the prepended text, and
    what a run without an error puts out ends with the appended text. *)
Theorem prepend_first_append_last (w : world) (db : driver) (o : options.t) :
  let d := fd_truthy (openFile_fd w o) in
  let eol := options.eol o in
  let first := if nonempty (options.prepend o)
               then [ options.prepend o +:+ eol +:+ eol ] else [] in
  let middle :=
    comment_texts w o ++ [opening_text o]
    ++ map (fetched_text w db o) (fetched_tables w db o)
    ++ wrapper_texts o in
  let last := if nonempty (options.append o) then [ options.append o +:+ eol ] else [] in
  let texts := first ++ middle ++ last in
  let out := output_of (runPipeline w db o true) in
  ∃ k,
    (k ≤ length texts)%nat ∧
    out = flatten (map (rendered w o d) (take k texts)) ∧
    (is_utf8 (options.encoding o) = true → out = flatten (take k texts)) ∧
    (fst (series_result w db o) = Next None → k = length texts) ∧
    (healthy w o → k = length texts) ∧
    (if nonempty (options.prepend o)
     then k = 0%nat
          ∨ ∃ rest, out = rendered w o d (options.prepend o +:+ eol +:+ eol) +:+ rest
     else True) ∧
    (if nonempty (options.append o)
     then fst (series_result w db o) = Next None ∨ healthy w o →
          ∃ front, out = front +:+ rendered w o d (options.append o +:+ eol)
     else True).
Proof.
  intros d eol first middle last texts out.
  destruct (output_against w db o texts) as (k & Hk & Hout & Hutf & Hall & Hhealthy).
  { unfold texts, first, middle, last, the_texts, header_texts, tail_texts,
      prepend_texts, append_texts.
    by rewrite <- !app_assoc. }
  fold out d in Hout, Hutf. exists k.
  do 5 (split; [done|]). split.
  - unfold texts, first in Hout. destruct (nonempty (options.prepend o)); [|done].
    destruct k as [|k]; [by left|]. right.
    simpl in Hout. eexists. exact Hout.
  - destruct (nonempty (options.append o)) eqn:Ha; [|done].
    intros Hnone.
    assert (k = length texts) as -> by (destruct Hnone; auto).
    rewrite firstn_all in Hout.
    unfold texts, last in Hout.
    rewrite !app_assoc, map_app, flatten_app in Hout. simpl in Hout.
    rewrite append_empty_r in Hout. eexists. exact Hout.
Qed.
(** ** The mssql DSN *)

Lemma replace_all_app (c : ascii) (rep a b : string) :
  replace_all c rep (a +:+ b) = replace_all c rep a +:+ replace_all c rep b.
Proof.
  induction a as [|x a IH]; [reflexivity|].
  rewrite append_cons. simpl. by rewrite IH, append_assoc.
Qed.

Lemma replace_all_absent (c : ascii) (rep s : string) :
  has_char c s = false → replace_all c rep s = s.
Proof.
  induction s as [|x s IH]; [reflexivity|]. simpl.
  intros [Hx Hs]%orb_false_iff. by rewrite Hx, IH.
Qed.

Lemma replace_all_concat (c : ascii) (rep sep : string) (l : list string) :
  replace_all c rep (String.concat sep l)
  = String.concat (replace_all c rep sep) (map (replace_all c rep) l).
Proof.
  induction l as [|x l IH]; [reflexivity|].
  destruct l as [|y l]; [reflexivity|].
  change (String.concat sep (x :: y :: l)) with (x +:+ sep +:+ String.concat sep (y :: l)).
  by rewrite !replace_all_app, IH.
Qed.

Lemma strip_last_semicolon_plain (a p : string) :
  nonempty p = true → has_char ";" p = false →
  strip_last_semicolon (a +:+ p) = a +:+ p.
Proof.
  intros Hne Hno. induction a as [|x a IH].
  - rewrite append_empty_l. clear Hne.
    induction p as [|y p IHp]; [reflexivity|].
    simpl in Hno. apply orb_false_iff in Hno as [Hy Hp]. simpl.
    destruct p; [by rewrite Hy | by rewrite (IHp Hp)].
  - rewrite append_cons. simpl. rewrite IH.
    destruct (a +:+ p) eqn:E; [|done].
    destruct a, p; done.
Qed.

Lemma strip_last_semicolon_one (s : string) : strip_last_semicolon (s +:+ ";") = s.
Proof.
  induction s as [|x s IH]; [reflexivity|].
  rewrite append_cons. simpl. rewrite IH. by destruct s.
Qed.

Lemma has_char_app (c : ascii) (a b : string) :
  has_char c (a +:+ b) = has_char c a || has_char c b.
Proof.
  induction a as [|x a IH]; [reflexivity|].
  rewrite append_cons. simpl. by rewrite IH, orb_assoc.
Qed.

Lemma dsn_pair_plain (kv : string * string) :
  plain_pair kv → nonempty (dsn_pair kv) = true ∧ has_char ";" (dsn_pair kv) = false.
Proof.
  intros (_ & Hk & _ & Hv). unfold dsn_pair. split.
  - by destruct (fst kv).
  - by rewrite !has_char_app, Hk, Hv.
Qed.

Lemma strip_last_semicolon_pairs (a : string) (kvs : list (string * string)) :
  kvs ≠ [] → Forall plain_pair kvs →
  strip_last_semicolon (a +:+ dsn_of_pairs kvs) = a +:+ dsn_of_pairs kvs.
Proof.
  intros Hne Hall. revert a. induction Hall as [|kv kvs Hkv Hall IH]; [done|]. intros a.
  destruct kvs as [|kv2 kvs].
  - destruct (dsn_pair_plain kv Hkv). by apply strip_last_semicolon_plain.
  - change (dsn_of_pairs (kv :: kv2 :: kvs))
      with (dsn_pair kv +:+ ";" +:+ dsn_of_pairs (kv2 :: kvs)).
    rewrite <- !append_assoc. by apply IH.
Qed.

Lemma prefix_append (pat s : string) : String.prefix pat (pat +:+ s) = true.
Proof.
  induction pat as [|c pat IH]; [by destruct s|].
  rewrite append_cons. simpl. by destruct (ascii_dec c c).
Qed.

Lemma drop_str_append (pat s : string) : drop_str (String.length pat) (pat +:+ s) = s.
Proof. induction pat as [|c pat IH]; [by destruct s | exact IH]. Qed.

Lemma replace_first_prefix (pat rep s : string) :
  replace_first pat rep (pat +:+ s) = rep +:+ s.
Proof.
  assert (∀ t, replace_first pat rep t
               = if String.prefix pat t then rep +:+ drop_str (String.length pat) t
                 else match t with
                      | EmptyString => EmptyString
                      | String c r => String c (replace_first pat rep r)
                      end) as Hunfold by (by intros [|c r]).
  by rewrite Hunfold, prefix_append, drop_str_append.
Qed.

Lemma replace_eq_pair (kv : string * string) :
  plain_pair kv →
  replace_all ";" (dquote +:+ "," +:+ dquote)
    (replace_all "=" (dquote +:+ ":" +:+ dquote) (dsn_pair kv))
  = fst kv +:+ dquote +:+ ":" +:+ dquote +:+ snd kv.
Proof.
  intros (Hk1 & Hk2 & Hv1 & Hv2). unfold dsn_pair.
  rewrite !replace_all_app, (replace_all_absent "=" _ (fst kv)),
    (replace_all_absent "=" _ (snd kv)) by done.
  change (replace_all "=" (dquote +:+ ":" +:+ dquote) "=") with (dquote +:+ ":" +:+ dquote).
  rewrite !replace_all_app, (replace_all_absent ";" _ (fst kv)),
    (replace_all_absent ";" _ (snd kv)) by done.
  reflexivity.
Qed.

Lemma quoted_members (kvs : list (string * string)) :
  kvs ≠ [] →
  dquote +:+ String.concat (dquote +:+ "," +:+ dquote)
               (map (fun kv => fst kv +:+ dquote +:+ ":" +:+ dquote +:+ snd kv) kvs)
  +:+ dquote
  = String.concat "," (map json_member kvs).
Proof.
  induction kvs as [|kv kvs IH]; [done|]. intros _.
  destruct kvs as [|kv2 kvs].
  - unfold json_member. simpl. by rewrite !append_assoc.
  - change (String.concat "," (map json_member (kv :: kv2 :: kvs)))
      with (json_member kv +:+ "," +:+ String.concat "," (map json_member (kv2 :: kvs))).
    rewrite <- IH by done. unfold json_member.
    change (String.concat (dquote +:+ "," +:+ dquote)
              (map (fun kv => fst kv +:+ dquote +:+ ":" +:+ dquote +:+ snd kv)
                   (kv :: kv2 :: kvs)))
      with ((fst kv +:+ dquote +:+ ":" +:+ dquote +:+ snd kv)
            +:+ (dquote +:+ "," +:+ dquote)
            +:+ String.concat (dquote +:+ "," +:+ dquote)
                  (map (fun kv => fst kv +:+ dquote +:+ ":" +:+ dquote +:+ snd kv)
                       (kv2 :: kvs))).
    by rewrite !append_assoc.
Qed.

(** The text handed to [JSON.parse] for a DSN of plain pairs, with or
    without a final semicolon, is the JSON text of the object with these
    pairs as members. *)
Lemma mssqlDsn_json_pairs (kvs : list (string * string)) (semicolon : bool) :
  kvs ≠ [] → Forall plain_pair kvs →
  mssqlDsn_json ("mssql://" +:+ dsn_of_pairs kvs +:+ (if semicolon then ";" else ""))
  = json_object kvs.
Proof.
  intros Hne Hall. unfold mssqlDsn_json.
  assert (strip_last_semicolon
            ("mssql://" +:+ dsn_of_pairs kvs +:+ (if semicolon then ";" else ""))
          = "mssql://" +:+ dsn_of_pairs kvs) as ->.
  { destruct semicolon.
    - rewrite <- append_assoc. apply strip_last_semicolon_one.
    - rewrite append_empty_r. by apply strip_last_semicolon_pairs. }
  rewrite replace_first_prefix, append_empty_l.
  unfold dsn_of_pairs, json_object.
  rewrite !replace_all_concat, !map_map.
  change (replace_all ";" (dquote +:+ "," +:+ dquote) (replace_all "=" _ ";"))
    with (dquote +:+ "," +:+ dquote).
  rewrite (map_ext_Forall _ _ (Forall_impl _ _ _ Hall replace_eq_pair)).
  rewrite <- quoted_members by done. by rewrite !append_assoc.
Qed.

Lemma resolveDialect_keeps (o o1 : options.t) :
  resolveDialect o = inr o1 →
  options.dsn o1 = options.dsn o ∧ options.database o1 = options.database o.
Proof.
  unfold resolveDialect. repeat case_match; intros; simplify_eq/=; done.
Qed.

(** C9: for the mssql dialect, the text handed to [JSON.parse] for a DSN
    of [key=value] pairs after [mssql://], with or without one final
    semicolon, is the JSON text of the object with these pairs; when the
    parse fails the run is the call of the callback with the parse error
    and nothing else; when it succeeds and the driver takes the object,
    [options.database] is the given one or else the [database] member, and
    the pipeline runs (or the callback receives the missing-database
    error); when the driver's constructor raises an exception, that ends
    the call. *)
Theorem mssql_dsn_parsed_before_connect (w : world) (o o1 : options.t) :
  resolveDialect o = inr o1 → options.dialect o1 = "mssql" →
  (∀ (kvs : list (string * string)) (semicolon : bool),
     kvs ≠ [] → Forall plain_pair kvs →
     mssqlDsn_json ("mssql://" +:+ dsn_of_pairs kvs +:+ (if semicolon then ";" else ""))
     = json_object kvs) ∧
  match JSON_parse w (mssqlDsn_json (options.dsn o)) with
  | inl e => generate w o true = [EvCallback (Some e) None]
  | inr mssqlDsn =>
      match mssql_Connection w mssqlDsn with
      | Some msg => generate w o true = [EvThrow msg]
      | None =>
          let database :=
            str_or (options.database o) (default "" (mssqlDsn !! "database")) in
          generate w o true
          = if nonempty database
            then runPipeline w mssql (options.set_database database (withDefaults o1)) true
            else [EvCallback
                    (Some "options.database is required if it is not part of the DSN") None]
      end
  end.
Proof.
  intros Hres Hdia. split; [apply mssqlDsn_json_pairs|].
  destruct (resolveDialect_keeps o o1 Hres) as [Hdsn Hdb].
  unfold generate. rewrite Hres.
  assert (options.dialect (withDefaults o1) = "mssql") as -> by exact Hdia.
  cbn [require String.eqb Ascii.eqb Bool.eqb andb]. cbn [setupClient].
  assert (options.dsn (withDefaults o1) = options.dsn o) as -> by exact Hdsn.
  destruct (JSON_parse w (mssqlDsn_json (options.dsn o))) as [e|mssqlDsn]; [reflexivity|].
  destruct (mssql_Connection w mssqlDsn) as [msg|]; [reflexivity|].
  assert (options.database (withDefaults o1) = options.database o) as -> by exact Hdb.
  cbn [options.database options.set_database].
  by destruct (nonempty _).
Qed.

(** The DSN [mssql://server=db1;database=shop;] in the sample world. *)
Lemma mssql_dsn_parsed_before_connect_sample :
  (∀ (kvs : list (string * string)) (semicolon : bool),
     kvs ≠ [] → Forall plain_pair kvs →
     mssqlDsn_json ("mssql://" +:+ dsn_of_pairs kvs +:+ (if semicolon then ";" else ""))
     = json_object kvs) ∧
  match JSON_parse sample_world (mssqlDsn_json (options.dsn mssql_options)) with
  | inl e => generate sample_world mssql_options true = [EvCallback (Some e) None]
  | inr mssqlDsn =>
      match mssql_Connection sample_world mssqlDsn with
      | Some msg => generate sample_world mssql_options true = [EvThrow msg]
      | None =>
          let database :=
            str_or (options.database mssql_options)
                   (default "" (mssqlDsn !! "database")) in
          generate sample_world mssql_options true
          = if nonempty database
            then runPipeline sample_world mssql
                   (options.set_database database
                      (withDefaults (options.set_dialect "mssql" mssql_options))) true
            else [EvCallback
                    (Some "options.database is required if it is not part of the DSN") None]
      end
  end.
Proof.
  apply (mssql_dsn_parsed_before_connect sample_world mssql_options
           (options.set_dialect "mssql" mssql_options)); reflexivity.
Defined.

Example mssql_dsn_sample_database :
  mssqlDsn_json "mssql://server=db1;database=shop;"
  = json_object [("server", "db1"); ("database", "shop")] ∧
  (∃ obj, JSON_parse sample_world (mssqlDsn_json "mssql://server=db1;database=shop;")
          = inr obj ∧ obj !! "database" = Some "shop" ∧
          mssql_Connection sample_world obj = None).
Proof.
  split; [reflexivity|]. eexists. split; [reflexivity|]. split; vm_compute; reflexivity.
Qed.

Example mssql_dsn_sample_failure :
  generate sample_world broken_mssql_options true
  = [EvCallback (Some "SyntaxError: Unexpected token") None].
Proof. vm_compute. reflexivity. Qed.

(** ** Worked runs *)

Example camelize_samples :
  camelize sample_world "foo_bar" = "fooBar" ∧
  camelize sample_world "a__b_" = "a_b_" ∧
  camelize sample_world "_id" = "Id" ∧
  camelize sample_world ("caf_" +:+ e_acute +:+ "_x") = "caf" +:+ E_acute +:+ "X" ∧
  camelize sample_world ("a_" +:+ LS +:+ "b") = "a_" +:+ LS +:+ "b" ∧
  camelize sample_world ("a_" +:+ LF +:+ "_b") = "a_" +:+ LF +:+ "B".
Proof. repeat split; vm_compute; reflexivity. Qed.

Example parseInt_samples :
  parseInt (JNumber (Num 255)) = Num 255 ∧
  parseInt (JString " 42px") = Num 42 ∧
  parseInt (JString "0x1F") = Num 31 ∧
  parseInt JNull = NaN ∧
  parseInt_or_null (JString "0") = JNull ∧
  parseInt_or_null (JNumber (Num 255)) = JNumber (Num 255).
Proof. repeat split; vm_compute; reflexivity. Qed.

Example filter_sample :
  filterTableRows filtered_options ["orders"; "users"; "user_log"; "user_roles"]
  = ["users"; "user_roles"].
Proof. reflexivity. Qed.

Example dialect_samples :
  dsn_dialect "MySQL://root@localhost/shop" = Some "mysql" ∧
  dsn_dialect "postgres://localhost/shop" = Some "postgres" ∧
  dsn_dialect "tcp://localhost/shop" = None ∧
  (∃ o, resolveDialect (options.set_dialect "PG" sample_options) = inr o
        ∧ options.dialect o = "pg") ∧
  resolveDialect (options.set_dialect "oracle" sample_options)
  = inl unsupported_dialect_message.
Proof.
  repeat split; try reflexivity. eexists. split; reflexivity.
Qed.

(** A refused connection: nothing is written, no query is sent, and the
    callback receives the error. *)
Example refused_connection :
  ∃ st,
    generate refusing_world sample_options true
    = [EvConnect; EvCallback (Some "ECONNREFUSED") (Some st)] ∧
    stats.buffer st = "" ∧ stats.bytesWritten st = JUndefined.
Proof. eexists. split; [vm_compute; reflexivity|]. split; reflexivity. Qed.

(** The same with an output file: the file that was opened is closed
    before the callback is called. *)
Example refused_connection_file :
  ∃ st,
    generate refusing_world file_options true
    = [EvOpen "out.js"; EvConnect; EvClose 3;
       EvCallback (Some "ECONNREFUSED") (Some st)] ∧
    stats.buffer st = "".
Proof. eexists. split; [vm_compute; reflexivity|]. reflexivity. Qed.

(** An encoding [Buffer] does not know: the first [write] raises the
    exception, and the callback is never called. *)
Example unknown_encoding :
  generate sample_world latin9_options true
  = [EvConnect; EvThrow "Unknown encoding: latin9"].
Proof. vm_compute. reflexivity. Qed.

(** Prepended and appended text around a module. *)
Example wrapped_run :
  omap emitted_of (runPipeline sample_world mysql wrapped_options true)
  = [ "//hello" +:+ LF +:+ LF;
      "// autogenerated by " +:+ info_name sample_world +:+ " v"
      +:+ info_version sample_world +:+ " on " +:+ now sample_world +:+ LF +:+ LF;
      "module.exports = function(sql) {" +:+ LF
      +:+ TAB +:+ "var exports = {};" +:+ LF +:+ LF +:+ LF;
      TAB +:+ "/**" +:+ LF
      +:+ TAB +:+ " * SQL definition for shop.users" +:+ LF
      +:+ TAB +:+ " */" +:+ LF
      +:+ TAB +:+ "exports.users = sql.define({" +:+ LF
      +:+ TAB +:+ TAB +:+ "name: 'users'," +:+ LF
      +:+ TAB +:+ TAB +:+ "columns: [" +:+ LF
      +:+ TAB +:+ TAB +:+ TAB +:+ "{ name: 'id' }," +:+ LF
      +:+ TAB +:+ TAB +:+ TAB +:+ "{ name: 'full_name' }" +:+ LF
      +:+ TAB +:+ TAB +:+ "]" +:+ LF
      +:+ TAB +:+ "});" +:+ LF +:+ LF +:+ LF;
      TAB +:+ "return exports;" +:+ LF +:+ "};" +:+ LF;
      "//bye" +:+ LF ].
Proof. vm_compute. reflexivity. Qed.

(** Output to a file: the descriptor is opened, written to and closed,
    and nothing accumulates in [stats.buffer]. *)
Example file_run :
  ∃ st,
    generate sample_world file_options true
    = [ EvOpen "out.js"; EvConnect;
        EvWrite 3 ("var sql = require('sql');" +:+ LF +:+ LF +:+ LF);
        EvQuery (QTables "mysql" "shop" "");
        EvQuery (QColumns "mysql" "users" "shop" "");
        EvWrite 3
          ("exports.users = sql.define({" +:+ LF
           +:+ TAB +:+ "name: 'users'," +:+ LF
           +:+ TAB +:+ "columns: [" +:+ LF
           +:+ TAB +:+ TAB
           +:+ "{ name: 'id', property: 'id', type: 'int', nullable: false, charLength: null },"
           +:+ LF +:+ TAB +:+ TAB
           +:+ "{ name: 'full_name', property: 'fullName', type: 'varchar', nullable: true, charLength: 255 }"
           +:+ LF +:+ TAB +:+ "]" +:+ LF +:+ "});" +:+ LF +:+ LF +:+ LF);
        EvClose 3; EvCallback None (Some st) ] ∧
    stats.buffer st = "" ∧ stats.bytesWritten st = JNumber NaN.
Proof. eexists. split; [vm_compute; reflexivity|]. split; reflexivity. Qed.

(** The same definitions in UTF-16: the bytes that reach the file are
    those of the texts in that encoding, two for each character here. *)
Example utf16_file_run :
  omap written_of
    (generate sample_world (options.set_outputFile (JString "out.js") utf16_options) true)
  = map (fun text => match sample_Buffer_encode "utf16le" text with
                     | inr bytes => bytes
                     | inl _ => ""
                     end)
        (the_texts sample_world mysql (resolved utf16_options)).
Proof. vm_compute. reflexivity. Qed.

(** ** What the tasks do besides writing *)

Lemma queries_of_run_prefix (w : world) (db : driver) (o : options.t) (callback : bool) :
  queries_of (runPipeline w db o callback) `prefix_of` expected_queries w db o.
Proof.
  rewrite queries_of_runPipeline, <- queries_of_script.
  apply omap_prefix, performed_prefix.
Qed.

Lemma queries_of_run_complete (w : world) (db : driver) (o : options.t) (callback : bool) :
  fst (series_result w db o) = Next None →
  queries_of (runPipeline w db o callback) = expected_queries w db o.
Proof.
  intros Hnone. rewrite series_verdict in Hnone.
  by rewrite queries_of_runPipeline, (performed_complete _ _ _ Hnone), queries_of_script.
Qed.

(** X1: the queries of a run are the tables query and then one columns
    query for each table the filter keeps, in the order the tables were
    fetched, up to the first error; a run without an error sends all of
    them, and none for a table the filter drops. *)
Theorem queries_in_order (w : world) (db : driver) (o : options.t) :
  queries_of (runPipeline w db o true) `prefix_of` expected_queries w db o ∧
  match fst (series_result w db o) with
  | Next None =>
      queries_of (runPipeline w db o true)
      = getListOfTables_query db o
        :: map (getListOfColumns_query db o)
             (List.filter (table_kept o)
                (snd (tables_result w (getListOfTables_query db o))))
  | _ => True
  end.
Proof.
  split; [apply queries_of_run_prefix|].
  destruct (fst (series_result w db o)) as [[e|]|msg] eqn:E; try done.
  rewrite (queries_of_run_complete _ _ _ _ E).
  unfold expected_queries, fetched_tables. by rewrite filterTableRows_filter.
Qed.

(** *** The tables of the stats object *)

Lemma record_write_event (w : world) (o : options.t) (d : option Z) (text : string)
  (m : table_map) :
  record_event w m (write_event w o d text) = m.
Proof.
  unfold write_event. destruct (Buffer_new w text (options.encoding o)); [done|].
  by destruct d.
Qed.

Lemma recorded_writes (w : world) (o : options.t) (d : option Z) (texts : list string)
  (m : table_map) :
  recorded w (map (write_event w o d) texts) m = m.
Proof.
  unfold recorded. revert m. induction texts as [|x texts IH]; intros m; [done|].
  simpl. by rewrite record_write_event, IH.
Qed.

Lemma recorded_table_steps (w : world) (db : driver) (o : options.t) (d : option Z)
  (names : list string) (m : table_map) :
  recorded w (map (event_of w o d) (concat (map (table_steps w db o) names))) m
  = foldl (fun m t => table_map_set t (table_entry w (getListOfColumns_query db o t)) m)
          m names.
Proof.
  unfold recorded. revert m. induction names as [|t names IH]; intros m; [done|].
  cbn [map concat table_steps app foldl event_of].
  by rewrite record_columns, record_write_event, IH.
Qed.

Lemma recorded_script (w : world) (db : driver) (o : options.t) :
  recorded w (script w db o) (mkTables ∅ None)
  = foldl (fun m t => table_map_set t (table_entry w (getListOfColumns_query db o t)) m)
          (mkTables ∅ None) (fetched_tables w db o).
Proof.
  rewrite script_open, inner_script, !recorded_app, !recorded_writes, recorded_table_steps.
  f_equal. unfold recorded, openFile_events.
  destruct (options.outputFile o); cbn [foldl app]; by rewrite record_tables.
Qed.

(** The own properties and the prototype of [stats.tables] after an entry
    was assigned for each of [names]. *)
Lemma foldl_table_map_set (f : string → list column_stat) (names : list string)
  (m : table_map) :
  let m' := foldl (fun m t => table_map_set t (f t) m) m names in
  (∀ t, t ≠ "__proto__" →
     own m' !! t = if bool_decide (t ∈ names) then Some (f t) else own m !! t) ∧
  own m' !! "__proto__" = own m !! "__proto__" ∧
  proto m' = if bool_decide ("__proto__" ∈ names) then Some (f "__proto__") else proto m.
Proof.
  revert m. induction names as [|x names IH]; intros m; [done|].
  cbn [foldl]. cbv zeta in IH. destruct (IH (table_map_set x (f x) m)) as (Ho & Hp & Hq).
  clear IH. unfold table_map_set in *.
  destruct (String.eqb x "__proto__") eqn:Hx.
  - apply String.eqb_eq in Hx. subst x. cbn [own proto] in *.
    split; [|split].
    + intros t Ht. rewrite (Ho t Ht).
      destruct (bool_decide (t ∈ names)) eqn:E.
      * apply bool_decide_eq_true in E.
        rewrite (bool_decide_eq_true_2 (t ∈ "__proto__" :: names)); [done|].
        apply elem_of_cons. by right.
      * apply bool_decide_eq_false in E.
        rewrite (bool_decide_eq_false_2 (t ∈ "__proto__" :: names)); [done|].
        by intros [?|?]%elem_of_cons.
    + done.
    + rewrite Hq.
      rewrite (bool_decide_eq_true_2 ("__proto__" ∈ "__proto__" :: names));
        [|apply elem_of_cons; by left].
      by destruct (bool_decide ("__proto__" ∈ names)).
  - apply String.eqb_neq in Hx. cbn [own proto] in *.
    split; [|split].
    + intros t Ht. rewrite (Ho t Ht).
      destruct (decide (t = x)) as [->|Hne].
      * rewrite lookup_insert_eq.
        rewrite (bool_decide_eq_true_2 (x ∈ x :: names)); [|apply elem_of_cons; by left].
        by destruct (bool_decide (x ∈ names)).
      * rewrite lookup_insert_ne by done.
        destruct (bool_decide (t ∈ names)) eqn:E.
        -- apply bool_decide_eq_true in E.
           rewrite (bool_decide_eq_true_2 (t ∈ x :: names)); [done|].
           apply elem_of_cons. by right.
        -- apply bool_decide_eq_false in E.
           rewrite (bool_decide_eq_false_2 (t ∈ x :: names)); [done|].
           by intros [?|?]%elem_of_cons.
    + rewrite Hp. by rewrite lookup_insert_ne.
    + rewrite Hq.
      destruct (bool_decide ("__proto__" ∈ names)) eqn:E.
      * apply bool_decide_eq_true in E.
        rewrite (bool_decide_eq_true_2 ("__proto__" ∈ x :: names)); [done|].
        apply elem_of_cons. by right.
      * apply bool_decide_eq_false in E.
        rewrite (bool_decide_eq_false_2 ("__proto__" ∈ x :: names)); [done|].
        intros [?|?]%elem_of_cons; [by subst x | done].
Qed.

Lemma elem_of_map {A B} (f : A → B) (x : A) (l : list A) : x ∈ l → f x ∈ map f l.
Proof.
  induction 1 as [x l | x y l _ IH]; simpl; [apply elem_of_cons; by left|].
  apply elem_of_cons. by right.
Qed.

(** In a run without an error every columns query was answered. *)
Lemma columns_answered (w : world) (db : driver) (o : options.t) (t : string) :
  fst (series_result w db o) = Next None → t ∈ fetched_tables w db o →
  table_entry w (getListOfColumns_query db o t) = table_stats w db o t.
Proof.
  intros Hnone Ht. rewrite series_verdict in Hnone.
  assert (EvQuery (getListOfColumns_query db o t) ∈ script w db o) as Hin.
  { assert (getListOfColumns_query db o t ∈ queries_of (script w db o)) as Hq.
    { rewrite queries_of_script. unfold expected_queries.
      apply elem_of_cons. right. by apply elem_of_map. }
    apply list_elem_of_omap in Hq as (e & He & Hq).
    destruct e; simpl in Hq; try done. by simplify_eq. }
  apply list_elem_of_lookup in Hin as [i Hi].
  destruct (performed_cases w [] (script w db o))
    as [(_ & _ & Hall) | [(k & e & err & Hv & _) | (k & msg & Hv & _)]];
    [|congruence|congruence].
  destruct (Hall i _ Hi) as [_ Hans]. rewrite answer_columns in Hans.
  unfold table_entry, table_stats, fetched_columns.
  destruct (columns_result w (getListOfColumns_query db o t)) as [[e|] results]; done.
Qed.

(** X2: after a run without an error, [stats.tables] of the stats object
    handed to the callback has an own entry exactly for the tables the
    filter kept, the table named [__proto__] apart: an assignment to that
    key makes no entry and replaces the prototype of the object, which
    then lists the columns of that table.  The entry of a table lists,
    column by column, the name, the camel-cased name, the normalised type,
    the nullable flag and the character length that were fetched for
    it. *)
Theorem stats_tables_complete (w : world) (db : driver) (o : options.t) :
  match fst (series_result w db o) with
  | Next None =>
      ∃ st,
        callbacks_of (runPipeline w db o true) = [(None, Some st)] ∧
        (∀ t, t ≠ "__proto__" →
           own (stats.tables st) !! t
           = if bool_decide (t ∈ fetched_tables w db o)
             then Some (map (column_stat_of w)
                          (map normalizeColumn (fetched_columns w db o t)))
             else None) ∧
        own (stats.tables st) !! "__proto__" = None ∧
        proto (stats.tables st)
        = if bool_decide ("__proto__" ∈ fetched_tables w db o)
          then Some (map (column_stat_of w)
                       (map normalizeColumn (fetched_columns w db o "__proto__")))
          else None
  | _ => True
  end.
Proof.
  destruct (fst (series_result w db o)) as [[e|]|msg] eqn:E; try done.
  eexists. split; [by rewrite callbacks_of_runPipeline, E|].
  cbn [stats_after stats.tables].
  pose proof E as Hv. rewrite series_verdict in Hv.
  rewrite (performed_complete _ _ _ Hv), recorded_script.
  destruct (foldl_table_map_set
              (fun t => table_entry w (getListOfColumns_query db o t))
              (fetched_tables w db o) (mkTables ∅ None)) as (Ho & Hp & Hq).
  split; [|split].
  - intros t Ht. rewrite (Ho t Ht).
    destruct (bool_decide (t ∈ fetched_tables w db o)) eqn:Hin; [|done].
    apply bool_decide_eq_true in Hin. by rewrite (columns_answered w db o t E Hin).
  - by rewrite Hp.
  - rewrite Hq.
    destruct (bool_decide ("__proto__" ∈ fetched_tables w db o)) eqn:Hin; [|done].
    apply bool_decide_eq_true in Hin. by rewrite (columns_answered w db o _ E Hin).
Qed.

(** X3: the stats object handed to the callback carries the start time,
    the end time and their difference as [elapsed]; its [written] counter
    is 0 in every run, whatever was written.  A run that an exception
    ends calls nothing back. *)
Theorem stats_times_and_written (w : world) (db : driver) (o : options.t) :
  match fst (series_result w db o) with
  | Thrown _ => callbacks_of (runPipeline w db o true) = []
  | Next err =>
      ∃ st,
        callbacks_of (runPipeline w db o true) = [(err, Some st)] ∧
        stats.start st = clock_start w ∧
        stats.end_ st = Some (clock_end w) ∧
        stats.elapsed st = Some (clock_end w - clock_start w) ∧
        stats.written st = 0 ∧
        st = stats_set_end (clock_end w) (the_stats (snd (series_result w db o)))
  end.
Proof.
  rewrite callbacks_of_runPipeline.
  destruct (fst (series_result w db o)) as [err|msg]; [|done].
  eexists. split; [reflexivity|].
  destruct (series_scripted w db o) as (_ & _ & _ & Hst).
  by rewrite Hst.
Qed.

Lemma descriptor_output_aux (w : world) (db : driver) (o : options.t) (z : Z) :
  fd_truthy (openFile_fd w o) = Some z →
  Forall (fun e => match e with
                   | EvWrite d _ => d = z
                   | EvBuffer _ => False
                   | _ => True
                   end) (runPipeline w db o true) ∧
  match fst (series_result w db o) with
  | Thrown _ => callbacks_of (runPipeline w db o true) = []
  | Next err =>
      ∃ st,
        callbacks_of (runPipeline w db o true) = [(err, Some st)] ∧
        stats.buffer st = ""
  end.
Proof.
  intros Hz. pose proof (performed_at_descriptor w db o) as Hat. rewrite Hz in Hat.
  split.
  - rewrite runPipeline_scripted. apply Forall_app. split.
    + eapply Forall_impl; [exact Hat|]. intros e He.
      destruct e; simpl in He; try done. by simplify_eq.
    + unfold ending, closing, invoke. rewrite Hz.
      destruct (verdict w [] (script w db o)); [|by repeat constructor].
      destruct (z =? 1); by repeat constructor.
  - rewrite callbacks_of_runPipeline.
    destruct (fst (series_result w db o)) as [err|msg]; [|done].
    eexists. split; [reflexivity|]. cbn [stats_after stats.buffer].
    by destruct (at_descriptor_fd z _ Hat) as [_ ->].
Qed.

(** X4: when the output goes to a descriptor (an opened file or stdout),
    every [write] of the run goes to that descriptor, none adds to
    [stats.buffer], and [stats.buffer] is still empty when the callback
    receives the stats object. *)
Theorem descriptor_output_leaves_buffer_empty (w : world) (db : driver) (o : options.t)
  (z : Z) :
  fd_truthy (openFile_fd w o) = Some z →
  Forall (fun e => match e with
                   | EvWrite d _ => d = z
                   | EvBuffer _ => False
                   | _ => True
                   end) (runPipeline w db o true) ∧
  match fst (series_result w db o) with
  | Thrown _ => callbacks_of (runPipeline w db o true) = []
  | Next err =>
      ∃ st,
        callbacks_of (runPipeline w db o true) = [(err, Some st)] ∧
        stats.buffer st = ""
  end.
Proof. apply descriptor_output_aux. Qed.

(** The run that writes to the file [out.js], opened as descriptor 3. *)
Lemma descriptor_output_leaves_buffer_empty_sample :
  Forall (fun e => match e with
                   | EvWrite d _ => d = 3
                   | EvBuffer _ => False
                   | _ => True
                   end) (runPipeline sample_world mysql file_options true) ∧
  match fst (series_result sample_world mysql file_options) with
  | Thrown _ => callbacks_of (runPipeline sample_world mysql file_options true) = []
  | Next err =>
      ∃ st,
        callbacks_of (runPipeline sample_world mysql file_options true)
        = [(err, Some st)] ∧
        stats.buffer st = ""
  end.
Proof.
  apply (descriptor_output_leaves_buffer_empty sample_world mysql file_options 3).
  reflexivity.
Defined.

(** X5: an error the callback receives from the pipeline is one the
    outside reported: by the opening of the output file, by the
    connection, by a query, or by [fs.write] when the output goes to a
    descriptor; the tasks raise none of their own. *)
Theorem callback_error_is_reported (w : world) (db : driver) (o : options.t) :
  match fst (series_result w db o) with
  | Thrown _ => callbacks_of (runPipeline w db o true) = []
  | Next err =>
      (∃ st, callbacks_of (runPipeline w db o true) = [(err, Some st)]) ∧
      match err with
      | None => True
      | Some e =>
          (∃ path, options.outputFile o = JString path ∧ fs_open w path = inl e) ∨
          connect_result w = Some e ∨
          (∃ q, fst (tables_result w q) = Some e) ∨
          (∃ q, fst (columns_result w q) = Some e) ∨
          (∃ z tr data,
             fd_truthy (openFile_fd w o) = Some z ∧ fst (fs_write w tr z data) = Some e)
      end
  end.
Proof.
  rewrite callbacks_of_runPipeline.
  destruct (fst (series_result w db o)) as [[e|]|msg] eqn:E; [|by eauto|done].
  split; [by eauto|].
  rewrite series_verdict in E.
  destruct (performed_cases w [] (script w db o))
    as [(Hv & _) | [(k & ev & err & Hv & _ & Hk & _ & Hans & _) | (k & msg & Hv & _)]];
    [congruence| |congruence].
  assert (err = e) as -> by congruence.
  pose proof (proj1 (Forall_lookup _ _) (script_opens w db o) k ev Hk) as Hopen.
  pose proof (proj1 (Forall_lookup _ _) (script_at_descriptor w db o) k ev Hk) as Hat.
  destruct ev as [path| |q|z data| | | |]; simpl in Hans; try done.
  - left. exists path. split; [done|]. by destruct (fs_open w path); simplify_eq.
  - right. by left.
  - destruct q; [right; right; left | right; right; right; left]; eauto.
  - right. right. right. right. simpl in Hat. eauto.
Qed.

(** *** Runs in a world without trouble *)

(** X6: when the outside answers every request without an error and
    every text finds its way into a [Buffer], the run ends without an
    error: its events are all those of the plan, then the closing of the
    file and the callback; every expected query is sent and every text
    is put out, so the output is complete.  Kept in memory,
    [stats.buffer] is the texts as the [Buffer] renders them, which for
    UTF-8 is the texts themselves; with a descriptor, this is what
    [fs.write] gets, call by call. *)
Theorem healthy_run_is_complete (w : world) (db : driver) (o : options.t) :
  healthy w o →
  let d := fd_truthy (openFile_fd w o) in
  let texts := the_texts w db o in
  let tr := runPipeline w db o true in
  fst (series_result w db o) = Next None ∧
  queries_of tr = expected_queries w db o ∧
  output_of tr = flatten (map (rendered w o d) texts) ∧
  (is_utf8 (options.encoding o) = true → output_of tr = flatten texts) ∧
  ∃ st,
    tr = script w db o ++ closing w o ++ [EvCallback None (Some st)] ∧
    callbacks_of tr = [(None, Some st)] ∧
    match d with
    | None =>
        stats.buffer st = flatten (map (rendered w o None) texts) ∧
        omap written_of tr = []
    | Some z =>
        stats.buffer st = "" ∧
        omap written_of tr = map (rendered w o (Some z)) texts
    end.
Proof.
  intros Hh d texts tr.
  pose proof (healthy_series w db o Hh) as Hnone.
  pose proof Hnone as Hv. rewrite series_verdict in Hv.
  pose proof (performed_complete _ _ _ Hv) as Hperf.
  split; [done|].
  split; [by apply queries_of_run_complete|].
  destruct (output_against w db o texts eq_refl) as (k & Hk & Hout & Hutf & Hall & _).
  fold tr d in Hout, Hutf. rewrite (Hall Hnone), firstn_all in Hout, Hutf.
  split; [done|]. split; [done|].
  exists (stats_after w (script w db o)).
  split.
  { unfold tr. rewrite runPipeline_scripted, Hperf. unfold ending. by rewrite Hv, Hperf. }
  split.
  { unfold tr. by rewrite callbacks_of_runPipeline, Hnone, Hperf. }
  pose proof (performed_at_descriptor w db o) as Hat.
  pose proof (performed_calm w [] (script w db o)) as Hcalm.
  rewrite Hperf in Hat, Hcalm. fold d in Hat.
  pose proof (emitted_of_events w o d (plan w db o) Hcalm) as Hem.
  rewrite texts_of_plan in Hem. fold texts in Hem.
  unfold tr. rewrite written_of_runPipeline, Hperf.
  cbn [stats_after stats.buffer].
  change (map (event_of w o d) (plan w db o)) with (script w db o) in Hem.
  destruct d as [z|].
  - destruct (at_descriptor_fd z _ Hat) as [Hwr Hbuf]. by rewrite Hbuf, Hwr, Hem.
  - destruct (at_descriptor_memory _ Hat) as [Hwr Hbuf]. by rewrite Hbuf, Hwr, Hem.
Qed.

(** The sample world is one. *)
Lemma healthy_run_is_complete_sample :
  let w := sample_world in
  let o := withDefaults sample_options in
  let d := fd_truthy (openFile_fd w o) in
  let texts := the_texts w mysql o in
  let tr := runPipeline w mysql o true in
  fst (series_result w mysql o) = Next None ∧
  queries_of tr = expected_queries w mysql o ∧
  output_of tr = flatten (map (rendered w o d) texts) ∧
  (is_utf8 (options.encoding o) = true → output_of tr = flatten texts) ∧
  ∃ st,
    tr = script w mysql o ++ closing w o ++ [EvCallback None (Some st)] ∧
    callbacks_of tr = [(None, Some st)] ∧
    match d with
    | None =>
        stats.buffer st = flatten (map (rendered w o None) texts) ∧
        omap written_of tr = []
    | Some z =>
        stats.buffer st = "" ∧
        omap written_of tr = map (rendered w o (Some z)) texts
    end.
Proof.
  apply (healthy_run_is_complete sample_world mysql (withDefaults sample_options)).
  repeat split; try reflexivity.
  - intros path. discriminate.
  - intros text. by eexists.
Defined.

(** *** The output file *)

Lemma closing_closes (w : world) (o : options.t) :
  closing w o = map EvClose (closes_of (closing w o)) ∧
  closes_of (closing w o)
  = match openFile_fd w o with
    | Some z => if (z =? 0) || (z =? 1) then [] else [z]
    | None => []
    end.
Proof.
  unfold closing, fd_truthy. destruct (openFile_fd w o) as [z|]; [|done].
  destruct (z =? 0); [done|]. by destruct (z =? 1).
Qed.

Lemma file_opened_and_closed_once_aux (w : world) (db : driver) (o : options.t) :
  opens_of (runPipeline w db o true)
  = match options.outputFile o with
    | JString path => [path]
    | _ => []
    end ∧
  match fst (series_result w db o) with
  | Thrown msg =>
      closes_of (runPipeline w db o true) = [] ∧
      callbacks_of (runPipeline w db o true) = []
  | Next err =>
      closes_of (runPipeline w db o true)
      = match openFile_fd w o with
        | Some z => if (z =? 0) || (z =? 1) then [] else [z]
        | None => []
        end ∧
      ∃ body st,
        runPipeline w db o true
        = body ++ map EvClose (closes_of (runPipeline w db o true))
          ++ [EvCallback err (Some st)] ∧
        closes_of body = []
  end.
Proof.
  split.
  { rewrite opens_of_runPipeline. unfold openFile_events.
    by destruct (options.outputFile o). }
  rewrite closes_of_runPipeline, callbacks_of_runPipeline.
  destruct (closing_closes w o) as [Hmap Hcl].
  destruct (fst (series_result w db o)) as [err|msg] eqn:E; [|done].
  split; [done|].
  exists (performed w [] (script w db o)),
         (stats_after w (performed w [] (script w db o))).
  split.
  - rewrite runPipeline_scripted at 1. unfold ending.
    rewrite <- series_verdict, E. by rewrite <- Hmap.
  - by destruct (at_descriptor_quiet _ _ (performed_at_descriptor w db o)) as [_ ->].
Qed.

(** X7: a run opens the output file once when [options.outputFile] is a
    string and never otherwise; it closes the descriptor it got, once and
    as its last act before the callback, whether or not a task reported an
    error; stdout (descriptor 1) is never closed, and neither is a file
    whose descriptor is 0.  After an exception nothing is closed and
    nothing called back. *)
Theorem file_opened_and_closed_once (w : world) (db : driver) (o : options.t) :
  opens_of (runPipeline w db o true)
  = match options.outputFile o with
    | JString path => [path]
    | _ => []
    end ∧
  match fst (series_result w db o) with
  | Thrown msg =>
      closes_of (runPipeline w db o true) = [] ∧
      callbacks_of (runPipeline w db o true) = []
  | Next err =>
      closes_of (runPipeline w db o true)
      = match openFile_fd w o with
        | Some z => if (z =? 0) || (z =? 1) then [] else [z]
        | None => []
        end ∧
      ∃ body st,
        runPipeline w db o true
        = body ++ map EvClose (closes_of (runPipeline w db o true))
          ++ [EvCallback err (Some st)] ∧
        closes_of body = []
  end.
Proof. apply file_opened_and_closed_once_aux. Qed.

(** ** The exported function as a whole *)





Lemma last_runPipeline_silent (w : world) (db : driver) (o : options.t) :
  callbacks_of (runPipeline w db o false) = [] ∧
  ∃ msg, last (runPipeline w db o false) = Some (EvThrow msg).
Proof.
  rewrite runPipeline_scripted, callbacks_of_app.
  destruct (at_descriptor_quiet _ _ (performed_at_descriptor w db o)) as [-> _].
  unfold ending. destruct (verdict w [] (script w db o)) as [err|msg].
  - rewrite callbacks_of_app. destruct (closing_quiet w o) as (_ & _ & -> & _).
    split; [done|]. eexists. unfold invoke. by rewrite !app_assoc, last_snoc.
  - split; [done|]. exists msg. by rewrite last_snoc.
Qed.

(** X9: called without a callback, the exported function does nothing
    when validation fails, and otherwise ends in an exception, after the
    whole run when the pipeline is reached: the callback that the
    documentation marks optional is called unguarded. *)
Theorem generate_without_callback (w : world) (o : options.t) :
  match resolveDialect o with
  | inl _ => generate w o false = []
  | inr _ =>
      callbacks_of (generate w o false) = [] ∧
      ∃ msg, last (generate w o false) = Some (EvThrow msg)
  end.
Proof.
  unfold generate. destruct (resolveDialect o) as [e|o1] eqn:Hres; [reflexivity|].
  destruct (require (options.dialect (withDefaults o1))) as [msg|db].
  { split; [reflexivity|]. by exists msg. }
  destruct (setupClient w db (withDefaults o1)) as [e|msg|o2].
  { split; [reflexivity|]. by eexists. }
  { split; [reflexivity|]. by eexists. }
  destruct (nonempty (options.database o2)); [|split; [reflexivity|by eexists]].
  apply last_runPipeline_silent.
Qed.

(** X10: for mysql and pg, when neither [options.database] nor the DSN
    names a database, the callback receives the error that
    [options.database] is required and nothing else happens: no file is
    opened and no connection is attempted. *)
Theorem generate_requires_database (w : world) (o o1 : options.t) :
  resolveDialect o = inr o1 →
  options.database o = "" →
  (options.dialect o1 = "mysql" ∧ mysql_createConnection w (options.dsn o) = inr "") ∨
  (options.dialect o1 = "pg" ∧ pg_Client w (options.dsn o) = inr "") →
  generate w o true
  = [EvCallback (Some "options.database is required if it is not part of the DSN") None].
Proof.
  intros Hres Hdb Hcase. destruct (resolveDialect_keeps o o1 Hres) as [Hdsn Hdb1].
  unfold generate. rewrite Hres.
  change (options.dialect (withDefaults o1)) with (options.dialect o1).
  destruct Hcase as [[-> Hnone]|[-> Hnone]]; simpl;
    change (options.dsn (withDefaults o1)) with (options.dsn o1);
    change (options.database (withDefaults o1)) with (options.database o1);
    by rewrite Hdsn, Hdb1, Hdb, Hnone.
Qed.

(** The DSN [mysql://root@localhost/] in a world that finds no database
    name in it. *)
Lemma generate_requires_database_sample :
  generate nameless_world nameless_options true
  = [EvCallback (Some "options.database is required if it is not part of the DSN") None].
Proof.
  apply (generate_requires_database nameless_world nameless_options
           (options.set_dialect "mysql" nameless_options)).
  - reflexivity.
  - reflexivity.
  - left. split; reflexivity.
Defined.

(** ** Dialect resolution, further *)

Lemma nonempty_toLowerCase (s : string) : nonempty (toLowerCase s) = nonempty s.
Proof. by destruct s. Qed.

(** X11: letter case plays no part in dialect resolution: an explicit
    dialect resolves as its lower-case spelling does, and the dialect
    inferred from a DSN is that of the DSN in lower case. *)
Theorem resolveDialect_ignores_case (o : options.t) (d : string) :
  resolveDialect (options.set_dialect d o)
  = resolveDialect (options.set_dialect (toLowerCase d) o) ∧
  dsn_dialect (toLowerCase (options.dsn o)) = dsn_dialect (options.dsn o).
Proof.
  split.
  - unfold resolveDialect. simpl. rewrite nonempty_toLowerCase.
    destruct (nonempty (options.dsn o)); [|reflexivity]. simpl.
    destruct (nonempty d); simpl; [|reflexivity].
    by rewrite toLowerCase_idemp.
  - unfold dsn_dialect. by rewrite toLowerCase_idemp.
Qed.

(** ** Column normalisation, further *)

(** X12: normalising a column row touches the properties [type],
    [nullable] and [maxLength] only: every other property of the row, such
    as [name], [defaultValue] and [charLength], is kept as fetched. *)
Theorem normalizeColumn_keeps_others (col : gmap string jsval) (k : string) :
  k ≠ "type" → k ≠ "nullable" → k ≠ "maxLength" →
  normalizeColumn col !! k = col !! k.
Proof.
  intros Ht Hn Hm. unfold normalizeColumn.
  rewrite !lookup_insert_ne by done.
  repeat case_match; by rewrite ?lookup_insert_ne by done.
Qed.

Lemma normalizeColumn_keeps_others_sample :
  normalizeColumn sample_column !! "name" = sample_column !! "name".
Proof. by apply (normalizeColumn_keeps_others sample_column "name"). Defined.

(** X13: after normalisation a column's type is none of the long names
    [character varying], [character] and [integer], its [nullable] is a
    boolean, and its [maxLength] is [null] or a number other than zero. *)
Theorem normalizeColumn_canonical (col : gmap string jsval) :
  strict_eq (get (normalizeColumn col) "type") (JString "character varying") = false ∧
  strict_eq (get (normalizeColumn col) "type") (JString "character") = false ∧
  strict_eq (get (normalizeColumn col) "type") (JString "integer") = false ∧
  (∃ b, get (normalizeColumn col) "nullable" = JBool b) ∧
  (get (normalizeColumn col) "maxLength" = JNull
   ∨ ∃ n, get (normalizeColumn col) "maxLength" = JNumber (Num n) ∧ (n =? 0) = false).
Proof.
  rewrite normalizeColumn_type, normalizeColumn_nullable, normalizeColumn_maxLength.
  repeat split.
  - destruct (strict_eq (get col "type") (JString "character varying")) eqn:E1; [done|].
    destruct (strict_eq (get col "type") (JString "character")) eqn:E2; [done|].
    by destruct (strict_eq (get col "type") (JString "integer")) eqn:E3.
  - destruct (strict_eq (get col "type") (JString "character varying")) eqn:E1; [done|].
    destruct (strict_eq (get col "type") (JString "character")) eqn:E2; [done|].
    by destruct (strict_eq (get col "type") (JString "integer")) eqn:E3.
  - destruct (strict_eq (get col "type") (JString "character varying")) eqn:E1; [done|].
    destruct (strict_eq (get col "type") (JString "character")) eqn:E2; [done|].
    by destruct (strict_eq (get col "type") (JString "integer")) eqn:E3.
  - by eexists.
  - unfold parseInt_or_null.
    destruct (parseInt (get col "maxLength")) as [|n]; simpl; [by left|].
    destruct (n =? 0) eqn:E; simpl; [by left|]. right. by exists n.
Qed.

(** ** Camel case, character by character *)

Lemma camelize_plain (w : world) (name : string) :
  has_char "_" name = false → camelize_from w 0 name = name.
Proof.
  induction name as [|c name IH]; [done|].
  cbn [has_char]. intros Hno. apply orb_false_iff in Hno as [Hc Hrest].
  cbn [camelize_from]. rewrite Hc. cbn [andb]. by rewrite IH.
Qed.

(** The bytes of a captured character are passed over. *)
Lemma camelize_skip (w : world) (ch rest : string) :
  camelize_from w (String.length ch) (ch +:+ rest) = camelize_from w 0 rest.
Proof. induction ch as [|c ch IH]; [done|]. rewrite append_cons. exact IH. Qed.

(** X14: a name without an underscore is emitted unchanged whether or
    not [options.camelize] is set. *)
Theorem tryCamelize_without_underscore (w : world) (o : options.t) (name : string) :
  has_char "_" name = false → tryCamelize w o name = name.
Proof.
  intros H. unfold tryCamelize. destruct (options.camelize o); [|reflexivity].
  by apply camelize_plain.
Qed.

Lemma tryCamelize_without_underscore_sample :
  tryCamelize sample_world file_options "users" = "users".
Proof. by apply (tryCamelize_without_underscore sample_world file_options "users"). Defined.

(** X15: in a name whose first underscore is followed by a character
    other than a line terminator (a line feed, a carriage return, U+2028
    or U+2029), that underscore and the character are replaced by the
    character in upper case; what precedes them is kept and what follows
    is camel-cased in the same way.  The character is the whole UTF-8
    sequence; before a line terminator the underscore stays. *)
Theorem camelize_first_underscore (w : world) (a ch b : string) :
  has_char "_" a = false →
  nonempty ch = true → first_char (ch +:+ b) = ch →
  (if is_line_terminator ch
   then camelize w (a +:+ "_" +:+ ch +:+ b) = a +:+ "_" +:+ camelize w (ch +:+ b)
   else camelize w (a +:+ "_" +:+ ch +:+ b)
        = a +:+ char_toUpperCase w ch +:+ camelize w b) ∧
  (∀ c, ch = String c "" → char_toUpperCase w ch = String (upper_char c) "") ∧
  (String.length ch = 2%nat ∨ String.length ch = 3%nat →
   char_toUpperCase w ch = toUpperCase w ch) ∧
  (String.length ch = 4%nat → char_toUpperCase w ch = ch).
Proof.
  intros Ha Hne Hch. split; [|split; [|split]].
  - unfold camelize. induction a as [|x a IH].
    + rewrite !append_empty_l.
      change (camelize_from w 0 ("_" +:+ ch +:+ b))
        with (if Ascii.eqb "_" "_" && nonempty (first_char (ch +:+ b))
                 && negb (is_line_terminator (first_char (ch +:+ b)))
              then char_toUpperCase w (first_char (ch +:+ b))
                   +:+ camelize_from w (String.length (first_char (ch +:+ b))) (ch +:+ b)
              else String "_" (camelize_from w 0 (ch +:+ b))).
      rewrite Hch, Hne. destruct (is_line_terminator ch); [reflexivity|].
      cbn [Ascii.eqb Bool.eqb andb negb]. by rewrite camelize_skip.
    + cbn [has_char] in Ha. apply orb_false_iff in Ha as [Hx Ha].
      specialize (IH Ha). rewrite !(append_cons x a). cbn [camelize_from].
      rewrite Hx. cbn [andb].
      destruct (is_line_terminator ch); by rewrite IH.
  - by intros c ->.
  - intros Hlen. destruct ch as [|c1 [|c2 [|c3 [|c4 [|c5 r]]]]]; simpl in Hlen;
      destruct Hlen; try done.
  - intros Hlen. by destruct ch as [|c1 [|c2 [|c3 [|c4 [|c5 r]]]]].
Qed.

(** The name [caf_és] in the sample world, whose [toUpperCase] knows
    Latin-1. *)
Lemma camelize_first_underscore_sample :
  (if is_line_terminator e_acute
   then camelize sample_world ("caf" +:+ "_" +:+ e_acute +:+ "s")
        = "caf" +:+ "_" +:+ camelize sample_world (e_acute +:+ "s")
   else camelize sample_world ("caf" +:+ "_" +:+ e_acute +:+ "s")
        = "caf" +:+ char_toUpperCase sample_world e_acute +:+ camelize sample_world "s") ∧
  (∀ c, e_acute = String c "" →
        char_toUpperCase sample_world e_acute = String (upper_char c) "") ∧
  (String.length e_acute = 2%nat ∨ String.length e_acute = 3%nat →
   char_toUpperCase sample_world e_acute = toUpperCase sample_world e_acute) ∧
  (String.length e_acute = 4%nat → char_toUpperCase sample_world e_acute = e_acute).
Proof. by apply (camelize_first_underscore sample_world "caf" e_acute "s"). Defined.

(** ** Text of a [write], further *)

Lemma write_text_skips_empty (o : options.t) (a b : list string) :
  write_text o (a ++ "" :: b) = write_text o (a ++ b).
Proof. unfold write_text. by rewrite !map_app, !List.filter_app. Qed.

(** X16: for a table without columns the empty column list leaves no
    line behind: the text written is that of the other lines alone, so
    the line that opens the column list is directly followed by the line
    that closes it. *)
Theorem table_without_columns (w : world) (o : options.t) (tableName : string) :
  write_text o (writeTable_args w o tableName [])
  = write_text o ((if options.omitComments o then [] else commentBlock o tableName)
                  ++ definitionHead w o tableName
                  ++ definitionFoot o
                  ++ [options.eol o]).
Proof.
  unfold writeTable_args. cbn [map js_join].
  destruct (options.omitComments o); cbn [negb].
  - exact (write_text_skips_empty o (definitionHead w o tableName)
             (definitionFoot o ++ [options.eol o])).
  - rewrite (app_assoc (commentBlock o tableName) (definitionHead w o tableName)
               ([""] ++ definitionFoot o ++ [options.eol o])).
    rewrite (app_assoc (commentBlock o tableName) (definitionHead w o tableName)
               (definitionFoot o ++ [options.eol o])).
    exact (write_text_skips_empty o
             (commentBlock o tableName ++ definitionHead w o tableName)
             (definitionFoot o ++ [options.eol o])).
Qed.

(** ** The table filter, further *)

(** X17: an [includeRegex] that is given but empty keeps no table at
    all, unlike an absent one, which keeps every table. *)
Theorem empty_include_keeps_nothing (o : options.t) (rows : list string) :
  options.includeRegex o = Some [] → filterTableRows o rows = [].
Proof.
  intros H. rewrite filterTableRows_filter.
  induction rows as [|x rows IH]; [reflexivity|].
  simpl. unfold table_kept at 1. rewrite H. simpl. exact IH.
Qed.

Lemma empty_include_keeps_nothing_sample :
  filterTableRows empty_include_options ["users"; "orders"] = [].
Proof.
  by apply (empty_include_keeps_nothing empty_include_options ["users"; "orders"]).
Defined.

Lemma filter_filter {A} (f : A → bool) (l : list A) :
  List.filter f (List.filter f l) = List.filter f l.
Proof.
  induction l as [|x l IH]; [reflexivity|]. simpl.
  destruct (f x) eqn:E; simpl; by rewrite ?E, IH.
Qed.

Lemma filter_sublist {A} (f : A → bool) (l : list A) : List.filter f l `sublist_of` l.
Proof.
  induction l as [|x l IH]; [constructor|]. simpl.
  destruct (f x); by constructor.
Qed.

(** X18: the filter only drops names: what it hands on is the fetched
    names with some left out, in the fetched order, and filtering the
    result again changes nothing. *)
Theorem filter_only_drops (o : options.t) (rows : list string) :
  filterTableRows o rows `sublist_of` rows ∧
  filterTableRows o (filterTableRows o rows) = filterTableRows o rows ∧
  (length (filterTableRows o rows) ≤ length rows)%nat.
Proof.
  rewrite !filterTableRows_filter. split; [apply filter_sublist|].
  split; [apply filter_filter|]. apply sublist_length, filter_sublist.
Qed.

(** ** The mssql DSN, further *)

Lemma replace_first_absent (pat rep s : string) :
  occurs pat s = false → replace_first pat rep s = s.
Proof.
  induction s as [|c r IH]; simpl.
  - intros H. apply orb_false_iff in H as [-> _]. reflexivity.
  - intros H. apply orb_false_iff in H as [-> Hr]. by rewrite IH.
Qed.

Lemma dsn_of_pairs_prefix (p k v : string) (rest : list (string * string)) :
  p +:+ dsn_of_pairs ((k, v) :: rest) = dsn_of_pairs ((p +:+ k, v) :: rest).
Proof.
  unfold dsn_of_pairs. destruct rest as [|kv rest].
  - simpl. unfold dsn_pair. simpl. by rewrite append_assoc.
  - change (String.concat ";" (map dsn_pair ((k, v) :: kv :: rest)))
      with (dsn_pair (k, v) +:+ ";" +:+ String.concat ";" (map dsn_pair (kv :: rest))).
    change (String.concat ";" (map dsn_pair ((p +:+ k, v) :: kv :: rest)))
      with (dsn_pair (p +:+ k, v) +:+ ";"
            +:+ String.concat ";" (map dsn_pair (kv :: rest))).
    unfold dsn_pair. simpl. by rewrite !append_assoc.
Qed.

(** A DSN of plain pairs in which [mssql://] does not occur. *)
Lemma mssqlDsn_json_no_prefix (kvs : list (string * string)) (semicolon : bool) :
  kvs ≠ [] → Forall plain_pair kvs →
  occurs "mssql://" (dsn_of_pairs kvs) = false →
  mssqlDsn_json (dsn_of_pairs kvs +:+ (if semicolon then ";" else ""))
  = json_object kvs.
Proof.
  intros Hne Hall Hocc. unfold mssqlDsn_json.
  assert (strip_last_semicolon (dsn_of_pairs kvs +:+ (if semicolon then ";" else ""))
          = dsn_of_pairs kvs) as ->.
  { destruct semicolon.
    - apply strip_last_semicolon_one.
    - rewrite append_empty_r.
      by apply (strip_last_semicolon_pairs "" kvs). }
  rewrite (replace_first_absent _ _ _ Hocc).
  unfold dsn_of_pairs, json_object.
  rewrite !replace_all_concat, !map_map.
  change (replace_all ";" (dquote +:+ "," +:+ dquote) (replace_all "=" _ ";"))
    with (dquote +:+ "," +:+ dquote).
  rewrite (map_ext_Forall _ _ (Forall_impl _ _ _ Hall replace_eq_pair)).
  rewrite <- quoted_members by done. by rewrite !append_assoc.
Qed.

(** X19: the dialect is inferred from the DSN prefix whatever its letter
    case, but only the lower-case [mssql://] is dropped before parsing:
    for a DSN that starts with [MSSQL://] the dialect is mssql and the
    first key of the parsed object keeps the prefix. *)
Theorem mssql_prefix_is_case_sensitive (k v : string) (rest : list (string * string))
  (semicolon : bool) :
  Forall plain_pair ((k, v) :: rest) →
  occurs "mssql://" ("MSSQL://" +:+ dsn_of_pairs ((k, v) :: rest)) = false →
  dsn_dialect ("MSSQL://" +:+ dsn_of_pairs ((k, v) :: rest)
               +:+ (if semicolon then ";" else "")) = Some "mssql" ∧
  mssqlDsn_json ("MSSQL://" +:+ dsn_of_pairs ((k, v) :: rest)
                 +:+ (if semicolon then ";" else ""))
  = json_object (("MSSQL://" +:+ k, v) :: rest).
Proof.
  intros Hall Hocc. split; [reflexivity|].
  rewrite <- append_assoc, dsn_of_pairs_prefix in *.
  apply mssqlDsn_json_no_prefix; [done| |exact Hocc].
  apply Forall_cons in Hall as [(Hk1 & Hk2 & Hv1 & Hv2) Hrest].
  constructor; [|exact Hrest]. unfold plain_pair. simpl in *.
  by rewrite !has_char_app, Hk1, Hk2.
Qed.

Lemma mssql_prefix_is_case_sensitive_sample :
  dsn_dialect ("MSSQL://" +:+ dsn_of_pairs [("server", "db1"); ("database", "shop")]
               +:+ ";") = Some "mssql" ∧
  mssqlDsn_json ("MSSQL://" +:+ dsn_of_pairs [("server", "db1"); ("database", "shop")]
                 +:+ ";")
  = json_object [("MSSQL://" +:+ "server", "db1"); ("database", "shop")].
Proof.
  apply (mssql_prefix_is_case_sensitive "server" "db1" [("database", "shop")] true).
  - repeat constructor.
  - reflexivity.
Defined.

(** ** Runs from the command line *)

(** X20: started from the command line without an output file, the
    generator writes to stdout: it opens and closes no file, every
    [write] goes to descriptor 1 and [stats.buffer] stays empty. *)
Theorem cli_writes_to_stdout (w : world) (db : driver) (program : options.t) :
  truthy (options.outputFile program) = false →
  options.outputFile (cli_options program) = JNumber (Num 1) ∧
  opens_of (runPipeline w db (cli_options program) true) = [] ∧
  closes_of (runPipeline w db (cli_options program) true) = [] ∧
  Forall (fun e => match e with
                   | EvWrite d _ => d = 1
                   | EvBuffer _ => False
                   | _ => True
                   end) (runPipeline w db (cli_options program) true) ∧
  match fst (series_result w db (cli_options program)) with
  | Thrown _ => callbacks_of (runPipeline w db (cli_options program) true) = []
  | Next err =>
      ∃ st,
        callbacks_of (runPipeline w db (cli_options program) true) = [(err, Some st)] ∧
        stats.buffer st = ""
  end.
Proof.
  intros Hfalsy.
  assert (options.outputFile (cli_options program) = JNumber (Num 1)) as Hout.
  { unfold cli_options, cli_outputFile. by rewrite Hfalsy. }
  assert (openFile_fd w (cli_options program) = Some 1) as Hfd.
  { unfold openFile_fd. by rewrite Hout. }
  split; [exact Hout|].
  destruct (file_opened_and_closed_once_aux w db (cli_options program)) as (Ho & Hc).
  rewrite Hout in Ho. rewrite Hfd in Hc.
  split; [exact Ho|].
  split.
  { destruct (fst (series_result w db (cli_options program))); by destruct Hc as [Hc _]. }
  apply (descriptor_output_aux w db (cli_options program) 1).
  by rewrite Hfd.
Qed.

Lemma cli_writes_to_stdout_sample :
  options.outputFile (cli_options sample_options) = JNumber (Num 1) ∧
  opens_of (runPipeline sample_world mysql (cli_options sample_options) true) = [] ∧
  closes_of (runPipeline sample_world mysql (cli_options sample_options) true) = [] ∧
  Forall (fun e => match e with
                   | EvWrite d _ => d = 1
                   | EvBuffer _ => False
                   | _ => True
                   end) (runPipeline sample_world mysql (cli_options sample_options) true) ∧
  match fst (series_result sample_world mysql (cli_options sample_options)) with
  | Thrown _ =>
      callbacks_of (runPipeline sample_world mysql (cli_options sample_options) true) = []
  | Next err =>
      ∃ st,
        callbacks_of (runPipeline sample_world mysql (cli_options sample_options) true)
        = [(err, Some st)] ∧
        stats.buffer st = ""
  end.
Proof.
  by apply (cli_writes_to_stdout sample_world mysql sample_options).
Defined.

(** ** Tables, defaults and the scope of the queries *)

Lemma emitted_of_ending (w : world) (db : driver) (o : options.t) (callback : bool) :
  omap emitted_of (ending w db o callback) = [].
Proof.
  unfold ending, closing, invoke.
  destruct (verdict w [] (script w db o)); [|done].
  destruct (fd_truthy (openFile_fd w o)) as [z|]; [destruct (z =? 1)|];
    by destruct callback.
Qed.

(** What a run puts out, call by call: the first texts, as the [Buffer]
    renders them. *)
Lemma emitted_scripted (w : world) (db : driver) (o : options.t) (callback : bool) :
  ∃ k,
    (k ≤ length (the_texts w db o))%nat ∧
    omap emitted_of (runPipeline w db o callback)
    = map (rendered w o (fd_truthy (openFile_fd w o))) (take k (the_texts w db o)) ∧
    (fst (series_result w db o) = Next None → k = length (the_texts w db o)).
Proof.
  rewrite runPipeline_scripted, omap_app, emitted_of_ending, app_nil_r.
  destruct (performed_steps w db o) as (steps & Hpre & Hbody & Hall).
  pose proof (performed_calm w [] (script w db o)) as Hcalm.
  rewrite Hbody in *.
  pose proof (omap_prefix text_of _ _ Hpre) as Htexts.
  rewrite texts_of_plan in Htexts.
  exists (length (omap text_of steps)).
  split; [by apply prefix_length|].
  split.
  - by rewrite (emitted_of_events w o _ steps Hcalm), <- (prefix_is_take _ _ Htexts).
  - intros Hnone. by rewrite (Hall Hnone), texts_of_plan.
Qed.

(** X21: the table definitions a run writes are those of the tables the
    filter keeps, one each and in the order fetched, up to the first
    error; a run without an error writes one for every kept table.  They
    come after the texts of the header and before those of the tail. *)
Theorem tables_written_in_order (w : world) (db : driver) (o : options.t) :
  let d := fd_truthy (openFile_fd w o) in
  let tables :=
    List.filter (table_kept o) (snd (tables_result w (getListOfTables_query db o))) in
  let header := header_texts w o in
  ∃ k,
    (k ≤ length header + length tables + length (tail_texts o))%nat ∧
    omap emitted_of (runPipeline w db o true)
    = map (rendered w o d)
        (take k header
         ++ map (fetched_text w db o) (take (k - length header) tables)
         ++ take (k - length header - length tables) (tail_texts o)) ∧
    (fst (series_result w db o) = Next None →
     k = (length header + length tables + length (tail_texts o))%nat ∧
     omap emitted_of (runPipeline w db o true)
     = map (rendered w o d)
         (header ++ map (fetched_text w db o) tables ++ tail_texts o)).
Proof.
  intros d tables header.
  destruct (emitted_scripted w db o true) as (k & Hk & Hem & Hall).
  assert (the_texts w db o
          = header ++ map (fetched_text w db o) tables ++ tail_texts o) as Htexts.
  { unfold the_texts, fetched_tables, tables, header. by rewrite filterTableRows_filter. }
  rewrite Htexts in Hk, Hem, Hall.
  rewrite !length_app, length_map in Hk, Hall.
  exists k. split; [lia|]. split.
  - rewrite Hem. fold d. f_equal.
    rewrite !take_app, length_map. by rewrite <- firstn_map.
  - intros Hnone. specialize (Hall Hnone). split; [lia|].
    rewrite Hem. fold d. f_equal. apply firstn_all2.
    rewrite !length_app, length_map. lia.
Qed.

Lemma resolveDialect_withDefaults (o : options.t) :
  resolveDialect (withDefaults o)
  = match resolveDialect o with
    | inl e => inl e
    | inr o1 => inr (withDefaults o1)
    end.
Proof.
  unfold resolveDialect. simpl.
  destruct (nonempty (options.dsn o)); [|reflexivity]. simpl.
  destruct (nonempty (options.dialect o)); simpl.
  - by destruct (lookup_truthy supportedDialects (toLowerCase (options.dialect o))).
  - destruct (dsn_dialect (options.dsn o)) as [m|]; [|reflexivity]. simpl.
    by destruct (lookup_truthy supportedDialects _).
Qed.

Lemma withDefaults_idemp (o : options.t) : withDefaults (withDefaults o) = withDefaults o.
Proof.
  unfold withDefaults, str_or. simpl.
  destruct (options.eol o), (options.indent o), (options.encoding o); reflexivity.
Qed.

(** X22: leaving [options.eol], [options.encoding] and [options.indent]
    unset is the same as passing a line feed, [utf8] and a tab: a call
    with the defaults filled in beforehand does exactly what the call
    without them does, and a value that is given is kept. *)
Theorem generate_defaults (w : world) (o : options.t) (callback : bool) :
  generate w (withDefaults o) callback = generate w o callback ∧
  options.eol (withDefaults o) = (if nonempty (options.eol o) then options.eol o else LF) ∧
  options.encoding (withDefaults o)
  = (if nonempty (options.encoding o) then options.encoding o else "utf8") ∧
  options.indent (withDefaults o)
  = (if nonempty (options.indent o) then options.indent o else TAB).
Proof.
  split; [|by repeat split].
  unfold generate. rewrite resolveDialect_withDefaults.
  destruct (resolveDialect o) as [e|o1]; [reflexivity|].
  by rewrite withDefaults_idemp.
Qed.

Lemma expected_queries_scope (w : world) (db : driver) (o : options.t) :
  Forall (fun q => query_scope q
                   = match db with
                     | mysql => ("mysql", options.database o, "")
                     | pg => ("pg", options.schema o, options.database o)
                     | mssql => ("mssql", str_or (options.schema o) "dbo",
                                 options.database o)
                     end) (expected_queries w db o).
Proof.
  unfold expected_queries. constructor; [by destruct db|].
  induction (fetched_tables w db o) as [|t l IH]; [constructor|].
  simpl. constructor; [by destruct db | exact IH].
Qed.

Lemma queries_of_generate_scope (w : world) (db : driver) (o : options.t) :
  Forall (fun q => query_scope q
                   = match db with
                     | mysql => ("mysql", options.database o, "")
                     | pg => ("pg", options.schema o, options.database o)
                     | mssql => ("mssql", str_or (options.schema o) "dbo",
                                 options.database o)
                     end) (queries_of (runPipeline w db o true)).
Proof.
  exact (Forall_prefix _ _ _ (queries_of_run_prefix w db o true)
           (expected_queries_scope w db o)).
Qed.

(** X23: every query of a call carries one and the same scope, settled
    before the first of them: for mysql the database as schema; for pg
    the schema, [public] when none is given, and the database as catalog;
    for mssql the schema, [dbo] when none is given, and the database as
    catalog; the database is the one given in the options or else the
    one the DSN names. *)
Theorem queries_carry_settled_scope (w : world) (o : options.t) :
  match resolveDialect o with
  | inl _ => queries_of (generate w o true) = []
  | inr o1 =>
      match require (options.dialect o1) with
      | inl _ => queries_of (generate w o true) = []
      | inr db =>
          Forall (fun q => query_scope q = settled_scope w db o)
                 (queries_of (generate w o true))
      end
  end.
Proof.
  unfold generate. destruct (resolveDialect o) as [e|o1] eqn:Hres; [reflexivity|].
  destruct (resolveDialect_keeps o o1 Hres) as [Hdsn Hdb].
  assert (options.schema o1 = options.schema o) as Hsch.
  { revert Hres. unfold resolveDialect. repeat case_match; intros; simplify_eq/=; done. }
  change (options.dialect (withDefaults o1)) with (options.dialect o1).
  destruct (require (options.dialect o1)) as [msg|db]; [reflexivity|].
  destruct (setupClient w db (withDefaults o1)) as [e|msg|o2] eqn:Hset;
    [constructor|constructor|].
  destruct (nonempty (options.database o2)); [|constructor].
  eapply Forall_impl; [apply queries_of_generate_scope|].
  intros q ->. unfold setupClient in Hset. unfold settled_scope.
  change (options.dsn (withDefaults o1)) with (options.dsn o1) in Hset.
  change (options.database (withDefaults o1)) with (options.database o1) in Hset.
  change (options.schema (withDefaults o1)) with (options.schema o1) in Hset.
  rewrite Hdsn, Hdb, ?Hsch in Hset.
  destruct db.
  - destruct (mysql_createConnection w (options.dsn o)) as [m|database]; [done|].
    injection Hset as <-. reflexivity.
  - destruct (pg_Client w (options.dsn o)) as [m|database]; [done|].
    injection Hset as <-. simpl. by rewrite Hsch.
  - destruct (JSON_parse w (mssqlDsn_json (options.dsn o))) as [e|obj]; [done|].
    destruct (mssql_Connection w obj); [done|].
    injection Hset as <-. simpl. by rewrite Hsch.
Qed.
